(** * Annotation format conversion of finetune: a shallow embedding

    Source: [finetune/encoding/sequence_encoder.py].

    The module converts between the character-offset ("indico") annotation
    format and the labeled-substring ("finetune") format.  Python values are
    modelled as follows:
    - [int] offsets are [Z] (annotation offsets come from the caller and may
      be any integer);
    - [str] is a list of characters, with Python's slicing, [find] and
      [strip] written out;
    - an annotation [dict] with the keys [start], [end], [label], [text] is
      a record, parametrised by the type of its [label] entry, which the
      source changes in place from a single label to a [set] and later to a
      [list];
    - a [set] of labels is a [gset]; a [dict] keyed by integers is a [gmap];
    - a raised exception is a value of [pyerror], threaded through the
      [outcome] monad. *)

From Stdlib Require Import ZArith Ascii String QArith.
From stdpp Require Import base tactics option list sorting countable gmap.

Local Open Scope Z_scope.

(** ** Python strings *)

Definition pystr := list ascii.

(** String literals for examples. *)
Definition str (s : string) : pystr := list_ascii_of_string s.

(** Index normalisation of a slice bound: a negative bound counts from the
    end, and the result is clamped to [0, n]. *)
Definition slice_bound (n i : Z) : Z :=
  Z.max 0 (Z.min n (if i <? 0 then i + n else i)).

(** [s[i:j]] *)
Definition py_slice {A} (s : list A) (i j : Z) : list A :=
  let n := Z.of_nat (length s) in
  let lo := slice_bound n i in
  let hi := slice_bound n j in
  take (Z.to_nat (hi - lo)) (drop (Z.to_nat lo) s).

(** ** Labels *)

(** A categorical label is an [int] or a [str]; the none-value defaults to
    [None]. *)
Inductive pylabel :=
  | PyNone
  | PyInt (n : Z)
  | PyStr (s : string).

#[global] Instance pylabel_eq_dec : EqDecision pylabel.
Proof. solve_decision. Defined.

Definition pylabel_encode (l : pylabel) : unit + (Z + string) :=
  match l with
  | PyNone => inl tt
  | PyInt n => inr (inl n)
  | PyStr s => inr (inr s)
  end.

Definition pylabel_decode (x : unit + (Z + string)) : pylabel :=
  match x with
  | inl _ => PyNone
  | inr (inl n) => PyInt n
  | inr (inr s) => PyStr s
  end.

#[global] Instance pylabel_countable : Countable pylabel.
Proof.
  apply (inj_countable' pylabel_encode pylabel_decode).
  by intros [].
Defined.

(** ** Annotations *)

(** The annotation dict.  [L] is the type of the value stored under
    ['label']: a single label on input, a set of labels while overlaps are
    resolved, a list of labels afterwards. *)
Record annot (L : Type) := Annotation {
  start : Z;
  end_ : Z;
  label : L;
  text : pystr
}.
Arguments Annotation {L} _ _ _ _.
Arguments start {L} _.
Arguments end_ {L} _.
Arguments label {L} _.
Arguments text {L} _.

#[global] Instance annot_eq_dec {L} `{EqDecision L} :
  EqDecision (annot L).
Proof. solve_decision. Defined.

Abbreviation labelset := (gset pylabel).

(** ** Exceptions *)

Inductive pyerror :=
  | ValueError                                  (* max() of an empty sequence *)
  | KeyError                                    (* missing dict key *)
  | IndexError                                  (* list index out of range *)
  | FinetuneError (a : annot (list pylabel)).

(** Result of running a piece of the program: a value, a raised exception,
    or the loop budget ran out before the program finished. *)
Inductive outcome (A : Type) :=
  | Returns (a : A)
  | Raises (e : pyerror)
  | OutOfFuel.
Arguments Returns {A} _.
Arguments Raises {A} _.
Arguments OutOfFuel {A}.

#[global] Instance outcome_ret : MRet outcome := fun _ a => Returns a.
#[global] Instance outcome_bind : MBind outcome := fun _ _ k m =>
  match m with
  | Returns a => k a
  | Raises e => Raises e
  | OutOfFuel => OutOfFuel
  end.

#[global] Instance outcome_fmap : FMap outcome := fun _ _ f m =>
  match m with
  | Returns a => Returns (f a)
  | Raises e => Raises e
  | OutOfFuel => OutOfFuel
  end.

(** ** sort_by_start, overlap, overlap_handler *)

(** [sorted(xs, key=key)].  Python's sort is stable; so is this insertion
    sort, and the result of a stable sort is determined by its input. *)
Fixpoint insert_by {A} (key : A -> Z) (a : A) (l : list A) : list A :=
  match l with
  | [] => [a]
  | b :: l' => if key b <=? key a then b :: insert_by key a l' else a :: b :: l'
  end.

Definition sorted_by {A} (key : A -> Z) (xs : list A) : list A :=
  foldl (fun acc a => insert_by key a acc) [] xs.

Definition sort_by_start {L} (annotations : list (annot L))
  : list (annot L) :=
  sorted_by start annotations.

Definition overlap {L} (current_annotation annotation : annot L) : bool :=
  ((start current_annotation <? end_ annotation)
     && (end_ annotation <=? end_ current_annotation))
  || ((start annotation <? end_ current_annotation)
        && (end_ current_annotation <=? end_ annotation)).

Definition overlap_handler (current_annotation annotation : annot labelset)
    (text : pystr) : list (annot labelset) :=
  let '(first, second) :=
    if start current_annotation <=? start annotation
    then (current_annotation, annotation)
    else (annotation, current_annotation) in
  let final_delimiter := Z.min (end_ first) (end_ second) in
  let final_label :=
    if end_ second >? end_ first then label second else label first in
  let end' := Z.max (end_ first) (end_ second) in
  let first_chunk :=
    Annotation (start first) (start second) (label first)
      (py_slice text (start first) (start second)) in
  let second_chunk :=
    Annotation (start second) final_delimiter (label first ∪ label second)
      (py_slice text (start second) final_delimiter) in
  let third_chunk :=
    Annotation final_delimiter end' final_label
      (py_slice text final_delimiter end') in
  [first_chunk; second_chunk; third_chunk].

(** ** The Interval Merge Engine: the worklist loop *)

(** [list.remove(x)]: deletes the first element equal to [x].  The source
    only removes an element it has just read from the same list, so the
    [ValueError] of a missing element cannot arise
    (see [scan_merged_Overlapping_elem]). *)
Fixpoint list_remove {A} `{EqDecision A} (x : A) (l : list A) : list A :=
  match l with
  | [] => []
  | y :: l' => if decide (y = x) then l' else y :: list_remove x l'
  end.

(** How the [for annotation in sort_by_start(merged_annotations)] scan
    ends. *)
Inductive scan_result :=
  | NoOverlapPossible                       (* first [break]: append *)
  | Overlapping (annotation : annot labelset) (* second [break]: split *)
  | Exhausted.                              (* [else] of the for: append *)

Fixpoint scan_merged (current_annotation : annot labelset)
    (sorted_merged : list (annot labelset)) : scan_result :=
  match sorted_merged with
  | [] => Exhausted
  | annotation :: rest =>
      if start annotation >? end_ current_annotation then NoOverlapPossible
      else if overlap current_annotation annotation then Overlapping annotation
      else scan_merged current_annotation rest
  end.

(** One iteration of [while len(queue)], on a non-empty queue. *)
Definition merge_step (text : pystr) (current_annotation : annot labelset)
    (queue merged_annotations : list (annot labelset))
  : list (annot labelset) * list (annot labelset) :=
  if start current_annotation =? end_ current_annotation then
    (queue, merged_annotations)
  else
    match scan_merged current_annotation (sort_by_start merged_annotations) with
    | NoOverlapPossible | Exhausted =>
        (queue, merged_annotations ++ [current_annotation])
    | Overlapping annotation =>
        (overlap_handler current_annotation annotation text ++ queue,
         list_remove annotation merged_annotations)
    end.

(** The loop, with a budget of iterations. *)
Fixpoint merge_loop (fuel : nat) (text : pystr)
    (queue merged_annotations : list (annot labelset))
  : outcome (list (annot labelset)) :=
  match queue with
  | [] => Returns merged_annotations
  | current_annotation :: queue' =>
      match fuel with
      | O => OutOfFuel
      | S fuel' =>
          let '(q, m) :=
            merge_step text current_annotation queue' merged_annotations in
          merge_loop fuel' text q m
      end
  end.

(** ** The Gap Filler *)

Fixpoint add_none_labels (text : pystr) (none_value : pylabel)
    (merged_annotations : list (annot (list pylabel))) (current_idx : Z)
  : list (annot (list pylabel)) :=
  match merged_annotations with
  | [] => []
  | annotation :: rest =>
      (if start annotation >? current_idx
       then [Annotation current_idx (start annotation) [none_value]
               (py_slice text current_idx (start annotation))]
       else [])
      ++ annotation :: add_none_labels text none_value rest (end_ annotation)
  end.

(** [max(xs)] *)
Definition py_max (xs : list Z) : outcome Z :=
  match xs with
  | [] => Raises ValueError
  | x :: xs' => Returns (foldl Z.max x xs')
  end.

(** [annotation[0]]: the dict has the keys ['start'], ['end'], ['label'] and
    ['text'], so subscripting it with the integer 0 raises. *)
Definition annotation_getitem_0 (annotation : annot (list pylabel))
  : outcome pylabel :=
  Raises KeyError.

(** The [if not multi_label:] loop.  What follows the subscript
    [annotation[0]] is never reached. *)
Fixpoint flatten_labels (all_annotations : list (annot (list pylabel)))
  : outcome (list (annot (list pylabel))) :=
  match all_annotations with
  | [] => Returns []
  | annotation :: rest =>
      if (1 <? length (label annotation))%nat
      then Raises (FinetuneError annotation)
      else
        l ← annotation_getitem_0 annotation;
        rest' ← flatten_labels rest;
        Returns (Annotation (start annotation) (end_ annotation) [l]
                   (text annotation) :: rest')
  end.

(** ** indico_to_finetune_sequence *)

(** [label['label'] = set([label['label']])] *)
Definition label_to_set (a : annot pylabel) : annot labelset :=
  Annotation (start a) (end_ a) {[ label a ]} (text a).

(** [annotation['label'] = list(annotation['label'])].  The order in which
    Python lists the members of a set is not specified (it follows the
    hashes of the members); [elements] fixes one, which need not be
    Python's.  What is stated of a label tuple is about its members, not
    about their order. *)
Definition label_to_list (a : annot labelset) : annot (list pylabel) :=
  Annotation (start a) (end_ a) (elements (label a)) (text a).

(** The queue the loop starts from.  The dicts of [label_seq] are shared
    with [queue], so the set-valued labels written after [queue] is built
    are seen through it. *)
Definition initial_queue (label_seq : list (annot pylabel))
  : list (annot labelset) :=
  let label_seq := sort_by_start label_seq in
  let queue := sort_by_start label_seq in
  label_to_set <$> queue.

(** The merged annotations of one document, sorted. *)
Definition merged_annotations_of (fuel : nat) (text : pystr)
    (label_seq : list (annot pylabel)) : outcome (list (annot (list pylabel))) :=
  merged_annotations ← merge_loop fuel text (initial_queue label_seq) [];
  Returns (sort_by_start (label_to_list <$> merged_annotations)).

(** [all_annotations] of one document, as it stands when [doc_subseqs] is
    computed. *)
Definition all_annotations_of (fuel : nat) (multi_label : bool)
    (none_value : pylabel) (text : pystr) (label_seq : list (annot pylabel))
  : outcome (list (annot (list pylabel))) :=
  merged_annotations ← merged_annotations_of fuel text label_seq;
  let all_annotations := add_none_labels text none_value merged_annotations 0 in
  end_idx ← py_max (end_ <$> all_annotations);
  let len_text := Z.of_nat (length text) in
  let all_annotations :=
    if decide (end_idx ≠ len_text)
    then all_annotations ++
         [Annotation end_idx len_text [none_value]
            (py_slice text end_idx len_text)]
    else all_annotations in
  if multi_label then Returns all_annotations
  else flatten_labels all_annotations.

(** [[annotation['text'] for annotation in all_annotations]] *)
Definition doc_subseqs (all_annotations : list (annot (list pylabel)))
  : list pystr :=
  text <$> all_annotations.

(** [[tuple(annotation['label']) for annotation in all_annotations]] *)
Definition doc_labels (all_annotations : list (annot (list pylabel)))
  : list (list pylabel) :=
  label <$> all_annotations.

(** The body of the loop over documents: [(doc_subseqs, doc_labels)]. *)
Definition indico_to_finetune_document (fuel : nat) (multi_label : bool)
    (none_value : pylabel) (text : pystr) (label_seq : list (annot pylabel))
  : outcome (list pystr * list (list pylabel)) :=
  all_annotations ← all_annotations_of fuel multi_label none_value text label_seq;
  Returns (doc_subseqs all_annotations, doc_labels all_annotations).

(** The loop over [zip(texts, labels)]; the first exception ends it. *)
Fixpoint convert_documents (fuel : nat) (multi_label : bool)
    (none_value : pylabel) (docs : list (pystr * list (annot pylabel)))
  : outcome (list (list pystr) * list (list (list pylabel))) :=
  match docs with
  | [] => Returns ([], [])
  | (text, label_seq) :: docs' =>
      '(subseqs, labels) ←
        indico_to_finetune_document fuel multi_label none_value text label_seq;
      '(all_subseqs, all_labels) ←
        convert_documents fuel multi_label none_value docs';
      Returns (subseqs :: all_subseqs, labels :: all_labels)
  end.

(** [indico_to_finetune_sequence(texts, labels, encoder, multi_label,
    none_value)], to its first two results [all_subseqs] and [all_labels];
    the three others are lists of empty lists.  The encoder is called, but
    nothing it returns is used.  [labels=None] stands for an empty
    annotation list per document. *)
Definition indico_to_finetune_sequence (fuel : nat) (texts : list pystr)
    (labels : option (list (list (annot pylabel)))) (multi_label : bool)
    (none_value : pylabel)
  : outcome (list (list pystr) * list (list (list pylabel))) :=
  let labels :=
    match labels with
    | None => replicate (length texts) []
    | Some labels => labels
    end in
  convert_documents fuel multi_label none_value (zip texts labels).

(** ** str.strip, str.find, list subscripts *)

(** [c.isspace()] for code points below 256. *)
Definition is_space (c : ascii) : bool :=
  let n := nat_of_ascii c in
  ((9 <=? n) && (n <=? 13) || (28 <=? n) && (n <=? 32)
   || (n =? 133) || (n =? 160))%nat.

Fixpoint lstrip (s : pystr) : pystr :=
  match s with
  | [] => []
  | c :: s' => if is_space c then lstrip s' else s
  end.

(** [s.strip()] *)
Definition strip (s : pystr) : pystr := rev (lstrip (rev (lstrip s))).

Fixpoint startswith (s sub : pystr) : bool :=
  match sub, s with
  | [], _ => true
  | _ :: _, [] => false
  | c :: sub', d :: s' => bool_decide (c = d) && startswith s' sub'
  end.

(** Lowest position of [sub] in [s], counted from [pos]; -1 if there is
    none. *)
Fixpoint find_from (s sub : pystr) (pos : Z) : Z :=
  if startswith s sub then pos
  else match s with
       | [] => -1
       | _ :: s' => find_from s' sub (pos + 1)
       end.

(** [s.find(sub, start)]: a negative [start] counts from the end. *)
Definition py_find (s sub : pystr) (start : Z) : Z :=
  let n := Z.of_nat (length s) in
  let start := if start <? 0 then Z.max 0 (start + n) else start in
  if start >? n then -1
  else find_from (drop (Z.to_nat start) s) sub start.

(** [l[i]]: a negative index counts from the end; out of range raises. *)
Definition py_getitem {A} (l : list A) (i : Z) : outcome A :=
  let i := if i <? 0 then i + Z.of_nat (length l) else i in
  if i <? 0 then Raises IndexError
  else match l !! Z.to_nat i with
       | Some x => Returns x
       | None => Raises IndexError
       end.

(** ** The Association Linker: assign_associations *)

(** A label of the substring format: a single label, or a tuple of labels
    in multi-label mode. *)
Inductive raw_label :=
  | Single (l : pylabel)
  | Tuple (ls : list pylabel).

(** [label == none_value], for a none-value that is a label and not a
    tuple. *)
Definition raw_label_is (label : raw_label) (none_value : pylabel) : bool :=
  match label with
  | Single l => bool_decide (l = none_value)
  | Tuple _ => false
  end.

(** A candidate tuple [(bpe_idx, candidate_idx, candidate_label,
    candidate_prob)].  Probabilities are compared, never computed with;
    they are modelled as rationals (floats that are not NaN). *)
Record candidate := Candidate {
  bpe_idx : Z;
  candidate_idx : Z;
  candidate_label : pylabel;
  candidate_prob : Q
}.

(** A resolved association [(index, relationship, prob)]. *)
Definition association : Type := Z * pylabel * Q.

(** The first loop, for one document: [idx_lookups[i]]. *)
Fixpoint build_idx_lookup (none_value : pylabel)
    (pairs : list (raw_label * list candidate)) (active_label_idx : Z)
    (idx_lookup : gmap Z Z) : gmap Z Z :=
  match pairs with
  | [] => idx_lookup
  | (label, association) :: rest =>
      if raw_label_is label none_value then
        build_idx_lookup none_value rest active_label_idx idx_lookup
      else
        let active_label_idx := active_label_idx + 1 in
        build_idx_lookup none_value rest active_label_idx
          (foldl (fun m c => <[bpe_idx c := active_label_idx]> m)
                 idx_lookup association)
  end.

(** The body of the innermost loop of the second pass. *)
Definition add_candidate (none_value : pylabel) (idx_lookup : gmap Z Z)
    (candidates : gmap Z (list association)) (c : candidate)
  : outcome (gmap Z (list association)) :=
  match bool_decide (candidate_label c = none_value), idx_lookup !! candidate_idx c with
  | false, Some target =>
      match idx_lookup !! bpe_idx c with
      | None => Raises KeyError
      | Some k =>
          Returns (<[k := default [] (candidates !! k)
                          ++ [(target, candidate_label c, candidate_prob c)]]>
                     candidates)
      end
  | _, _ => Returns candidates
  end.

Fixpoint add_candidates (none_value : pylabel) (idx_lookup : gmap Z Z)
    (candidates : gmap Z (list association)) (cs : list candidate)
  : outcome (gmap Z (list association)) :=
  match cs with
  | [] => Returns candidates
  | c :: cs' =>
      candidates ← add_candidate none_value idx_lookup candidates c;
      add_candidates none_value idx_lookup candidates cs'
  end.

(** [max(v, key=lambda x: x[2])]: the first element that no later element
    exceeds. *)
Fixpoint max_by_prob_from (best : association) (v : list association)
  : association :=
  match v with
  | [] => best
  | x :: v' =>
      if Qlt_le_dec (snd best) (snd x) then max_by_prob_from x v'
      else max_by_prob_from best v'
  end.

Definition max_by_prob (v : list association) : option association :=
  match v with
  | [] => None
  | x :: v' => Some (max_by_prob_from x v')
  end.

(** The second loop, for one document.  Every list stored in [candidates]
    has an element, so [max] does not raise
    (see [add_candidates_nonempty]). *)
Definition doc_candidates (none_value : pylabel) (idx_lookup : gmap Z Z)
    (doc_association : list (list candidate))
  : outcome (gmap Z association) :=
  mbind (M := outcome)
    (fun candidates : gmap Z (list association) =>
       Returns (omap max_by_prob candidates))
    (add_candidates none_value idx_lookup ∅ (concat doc_association)).

(** [assign_associations(labels, associations, none_value)].  The test
    [doc_label == none_value] compares a list with a label and is never
    true, so no document is skipped. *)
Fixpoint assign_associations (labels : list (list raw_label))
    (associations : list (list (list candidate))) (none_value : pylabel)
  : outcome (list (gmap Z association)) :=
  match labels, associations with
  | doc_label :: labels', doc_association :: associations' =>
      let idx_lookup :=
        build_idx_lookup none_value (zip doc_label doc_association) (-1) ∅ in
      candidates ← doc_candidates none_value idx_lookup doc_association;
      all_candidates ← assign_associations labels' associations' none_value;
      Returns (candidates :: all_candidates)
  | _, _ => Returns []
  end.

(** ** The Span Reconstructor: finetune_to_indico_sequence *)

Definition confidence : Type := list (pylabel * Q).

(** An annotation of the result. *)
Record indico_annotation := IndicoAnnotation {
  ia_start : Z;
  ia_end : Z;
  ia_label : pylabel;
  ia_text : pystr;
  ia_associations : option association;
  ia_confidence : option confidence
}.

(** A token of the word tokenizer: its offset [idx] and its [text]. *)
Record token := Token { tok_idx : Z; tok_text : pystr }.

(** The variables the loop over one document carries from one candidate to
    the next, and the warnings emitted. *)
Record doc_state := DocState {
  start_idx : Z;
  end_idx : Z;
  raw_annotation_start : Z;
  doc_annotations : list indico_annotation;
  annotation_ranges : gset (Z * Z * pylabel);
  warnings : list pystr
}.

(** [while start_idx < n_spacy_tokens and
           annotation_start >= spacy_token_starts[start_idx]: start_idx += 1],
    run on the token starts from [start_idx] on. *)
Fixpoint advance_start (starts_from : list Z) (annotation_start start_idx : Z)
  : Z :=
  match starts_from with
  | [] => start_idx
  | s :: rest =>
      if annotation_start >=? s
      then advance_start rest annotation_start (start_idx + 1)
      else start_idx
  end.

(** [while end_idx < (n_spacy_tokens - 1) and
           annotation_end > spacy_token_ends[end_idx]: end_idx += 1],
    run on the token ends from [end_idx] on. *)
Fixpoint advance_end (ends_from : list Z) (annotation_end end_idx : Z) : Z :=
  match ends_from with
  | e :: (_ :: _) as rest =>
      if annotation_end >? e
      then advance_end rest annotation_end (end_idx + 1)
      else end_idx
  | _ => end_idx
  end.

Definition initial_doc_state : doc_state :=
  DocState 0 0 0 [] ∅ [].

Section Reconstructor.

(** The word tokenizer [NLP]. *)
Variable NLP : pystr -> list token.

Variable none_value : pylabel.
Variable subtoken_predictions : bool.

(** The snapping block, [if not subtoken_predictions: ...]; returns the
    cursors and the adjusted boundaries. *)
Definition snap (spacy_token_starts spacy_token_ends : list Z)
    (multi_label : bool) (label : pylabel)
    (start_idx end_idx annotation_start annotation_end : Z)
  : outcome (Z * Z * Z * Z) :=
  if subtoken_predictions then
    Returns (start_idx, end_idx, annotation_start, annotation_end)
  else
    let '(start_idx, end_idx) :=
      if multi_label then (0, 0) else (start_idx, end_idx) in
    if bool_decide (label ≠ none_value) then
      let start_idx :=
        advance_start (drop (Z.to_nat start_idx) spacy_token_starts)
          annotation_start start_idx in
      annotation_start ← py_getitem spacy_token_starts (start_idx - 1);
      let end_idx :=
        advance_end (drop (Z.to_nat end_idx) spacy_token_ends)
          annotation_end end_idx in
      annotation_end ← py_getitem spacy_token_ends end_idx;
      Returns (start_idx, end_idx, annotation_start, annotation_end)
    else
      Returns (start_idx, end_idx, annotation_start, annotation_end).

(** The body of [for label in label_list]. *)
Definition process_label (raw_text : pystr)
    (spacy_token_starts spacy_token_ends : list Z)
    (associations_seq : option (gmap Z association))
    (sub_str : pystr) (multi_label : bool) (confidences : option confidence)
    (st : doc_state) (label : pylabel) : outcome doc_state :=
  let stripped_text := strip sub_str in
  let raw_annotation_start :=
    py_find raw_text stripped_text (raw_annotation_start st) in
  let raw_annotation_end :=
    raw_annotation_start + Z.of_nat (length stripped_text) in
  if raw_annotation_start =? -1 then
    Returns (DocState (start_idx st) (end_idx st) raw_annotation_start
               (doc_annotations st) (annotation_ranges st)
               (warnings st ++ [stripped_text]))
  else
    '(start_idx, end_idx, annotation_start, annotation_end) ←
      snap spacy_token_starts spacy_token_ends multi_label label
        (start_idx st) (end_idx st) raw_annotation_start raw_annotation_end;
    let text := py_slice raw_text annotation_start annotation_end in
    if bool_decide (label ≠ none_value) then
      let annotation :=
        IndicoAnnotation annotation_start annotation_end label text
          (associations_seq ≫=
             (fun m => m !! Z.of_nat (length (doc_annotations st))))
          confidences in
      if bool_decide
           ((annotation_start, annotation_end, label) ∉ annotation_ranges st)
      then
        Returns (DocState start_idx end_idx raw_annotation_start
                   (doc_annotations st ++ [annotation])
                   ({[ (annotation_start, annotation_end, label) ]}
                      ∪ annotation_ranges st)
                   (warnings st))
      else
        Returns (DocState start_idx end_idx raw_annotation_start
                   (doc_annotations st) (annotation_ranges st) (warnings st))
    else
      Returns (DocState start_idx end_idx raw_annotation_start
                 (doc_annotations st) (annotation_ranges st) (warnings st)).

Fixpoint process_labels (raw_text : pystr)
    (spacy_token_starts spacy_token_ends : list Z)
    (associations_seq : option (gmap Z association))
    (sub_str : pystr) (multi_label : bool) (confidences : option confidence)
    (st : doc_state) (label_list : list pylabel) : outcome doc_state :=
  match label_list with
  | [] => Returns st
  | label :: label_list' =>
      st ← process_label raw_text spacy_token_starts spacy_token_ends
             associations_seq sub_str multi_label confidences st label;
      process_labels raw_text spacy_token_starts spacy_token_ends
        associations_seq sub_str multi_label confidences st label_list'
  end.

(** The body of the loop over [zip(doc_seq, label_seq, prob_seq)]. *)
Definition process_substring (raw_text : pystr)
    (spacy_token_starts spacy_token_ends : list Z)
    (associations_seq : option (gmap Z association))
    (st : doc_state) (item : pystr * raw_label * option confidence)
  : outcome doc_state :=
  let '(sub_str, raw_label, confidences) := item in
  let '(multi_label, label_list) :=
    match raw_label with
    | Single l => (false, [l])
    | Tuple ls => (true, ls)
    end in
  process_labels raw_text spacy_token_starts spacy_token_ends
    associations_seq sub_str multi_label confidences st label_list.

Fixpoint process_substrings (raw_text : pystr)
    (spacy_token_starts spacy_token_ends : list Z)
    (associations_seq : option (gmap Z association))
    (st : doc_state) (items : list (pystr * raw_label * option confidence))
  : outcome doc_state :=
  match items with
  | [] => Returns st
  | item :: items' =>
      st ← process_substring raw_text spacy_token_starts spacy_token_ends
             associations_seq st item;
      process_substrings raw_text spacy_token_starts spacy_token_ends
        associations_seq st items'
  end.

(** [prob_seq or [None] * len(doc_seq)] *)
Definition prob_seq_or_none (prob_seq : option (list confidence))
    (doc_seq : list pystr) : list (option confidence) :=
  match prob_seq with
  | None | Some [] => replicate (length doc_seq) None
  | Some (c :: cs) => Some <$> (c :: cs)
  end.

(** The final state of the loop over one document. *)
Definition reconstruct_document (raw_text : pystr) (doc_seq : list pystr)
    (label_seq : list raw_label) (prob_seq : option (list confidence))
    (associations_seq : option (gmap Z association)) : outcome doc_state :=
  let spacy_tokens := NLP raw_text in
  let spacy_token_starts := tok_idx <$> spacy_tokens in
  let spacy_token_ends :=
    (fun t => tok_idx t + Z.of_nat (length (tok_text t))) <$> spacy_tokens in
  process_substrings raw_text spacy_token_starts spacy_token_ends
    associations_seq initial_doc_state
    (zip (zip doc_seq label_seq) (prob_seq_or_none prob_seq doc_seq)).

(** The body of the loop over documents: the sorted [doc_annotations]. *)
Definition finetune_to_indico_document (raw_text : pystr)
    (doc_seq : list pystr) (label_seq : list raw_label)
    (prob_seq : option (list confidence))
    (associations_seq : option (gmap Z association))
  : outcome (list indico_annotation) :=
  st ← reconstruct_document raw_text doc_seq label_seq prob_seq
         associations_seq;
  Returns (sorted_by ia_start (doc_annotations st)).

(** The loop over [zip(raw_texts, subseqs, labels, probs, assoc_cleaned)]. *)
Fixpoint reconstruct_documents
    (loop_vals : list (pystr * list pystr * list raw_label
                       * option (list confidence)
                       * option (gmap Z association)))
  : outcome (list (list indico_annotation)) :=
  match loop_vals with
  | [] => Returns []
  | (raw_text, doc_seq, label_seq, prob_seq, associations_seq) :: rest =>
      doc_annotations ←
        finetune_to_indico_document raw_text doc_seq label_seq prob_seq
          associations_seq;
      annotations ← reconstruct_documents rest;
      Returns (doc_annotations :: annotations)
  end.

(** [probs or [None] * len(raw_texts)] *)
Definition probs_or_none (probs : option (list (list confidence)))
    (raw_texts : list pystr) : list (option (list confidence)) :=
  match probs with
  | None | Some [] => replicate (length raw_texts) None
  | Some (p :: ps) => Some <$> (p :: ps)
  end.

(** [assoc_cleaned] *)
Definition assoc_cleaned_of (raw_texts : list pystr)
    (labels : list (list raw_label))
    (associations : option (list (list (list candidate))))
  : outcome (list (option (gmap Z association))) :=
  match associations with
  | Some associations =>
      mbind (M := outcome)
        (fun cleaned : list (gmap Z association) => Returns (Some <$> cleaned))
        (assign_associations labels associations none_value)
  | None => Returns (replicate (length raw_texts) None)
  end.

(** [finetune_to_indico_sequence(raw_texts, subseqs, labels, encoder,
    probs, none_value, subtoken_predictions, associations)], to its second
    result [annotations]; the first is [raw_texts].  The encoder is
    called, but nothing it returns is used. *)
Definition finetune_to_indico_sequence (raw_texts : list pystr)
    (subseqs : list (list pystr)) (labels : list (list raw_label))
    (probs : option (list (list confidence)))
    (associations : option (list (list (list candidate))))
  : outcome (list (list indico_annotation)) :=
  assoc_cleaned ← assoc_cleaned_of raw_texts labels associations;
  reconstruct_documents
    (zip (zip (zip (zip raw_texts subseqs) labels)
            (probs_or_none probs raw_texts))
       assoc_cleaned).

End Reconstructor.

(** * Vocabulary of the properties

    Predicates and measures in which the properties of the program are
    stated; none of them is part of the program. *)

(** [run] ends with [r]: some budget suffices, and [r] is not the budget
    running out. *)
Definition ends_with {A} (run : nat -> outcome A) (r : outcome A) : Prop :=
  r ≠ OutOfFuel ∧ ∃ fuel, run fuel = r.

(** The order of a sort by [key]. *)
Definition key_le {A} (key : A -> Z) (a b : A) : Prop := key a <= key b.

(** A span of the data model: [end >= start]. *)
Definition well_formed {L} (a : annot L) : Prop := start a <= end_ a.

(** A span that is not degenerate. *)
Definition proper {L} (a : annot L) : Prop := start a < end_ a.

(** The number of characters of a span. *)
Definition span_length {L} (a : annot L) : nat := Z.to_nat (end_ a - start a).

(** The total span length of a list of spans. *)
Definition mass {L} (l : list (annot L)) : nat := sum_list_with span_length l.

(** A number of iterations that is enough for the loop. *)
Definition merge_budget (queue merged_annotations : list (annot labelset)) : nat :=
  3 * (mass queue + mass merged_annotations) + length queue.

(** The states of a run that does not end: the queue is
    [reversed_A], [reversed_B], some copies of [reversed_C], then
    [reversed_D]. *)
Definition reversed_text : pystr := str "0123456789ab".

Definition reversed_A : annot labelset :=
  Annotation 3 10 {[PyStr "Y"]} (str "3456789").

Definition reversed_B : annot labelset :=
  Annotation 10 5 {[PyStr "X"; PyStr "Y"]} [].

Definition reversed_C : annot labelset :=
  Annotation 5 10 {[PyStr "Y"]} (str "56789").

Definition reversed_D : annot labelset :=
  Annotation 5 12 {[PyStr "Y"]} (str "56789ab").

(** The split rule as the specification words it, for [first] the span of
    smaller start and [second] the other. *)
Definition spec_split_rule (first second : annot labelset) (text : pystr)
  : list (annot labelset) :=
  let cut := Z.min (end_ first) (end_ second) in
  let end' := Z.max (end_ first) (end_ second) in
  let winner :=
    if end_ second >? end_ first then label second else label first in
  [Annotation (start first) (start second) (label first)
     (py_slice text (start first) (start second));
   Annotation (start second) cut (label first ∪ label second)
     (py_slice text (start second) cut);
   Annotation cut end' winner (py_slice text cut end')].

(** [q'] is [q] without some of its degenerate spans. *)
Inductive skips_degenerate {L} : list (annot L) -> list (annot L) -> Prop :=
  | skips_nil : skips_degenerate [] []
  | skips_keep a q q' :
      skips_degenerate q q' -> skips_degenerate (a :: q) (a :: q')
  | skips_drop a q q' :
      start a = end_ a -> skips_degenerate q q' -> skips_degenerate (a :: q) q'.

(** What follows the worklist loop does not depend on the budget. *)
Definition after_merge (multi_label : bool) (none_value : pylabel)
    (text : pystr) (merged_annotations : list (annot labelset))
  : outcome (list pystr * list (list pylabel)) :=
  let merged_annotations := sort_by_start (label_to_list <$> merged_annotations) in
  let all_annotations := add_none_labels text none_value merged_annotations 0 in
  end_idx ← py_max (end_ <$> all_annotations);
  let len_text := Z.of_nat (length text) in
  let all_annotations :=
    if decide (end_idx ≠ len_text)
    then all_annotations ++
         [Annotation end_idx len_text [none_value]
            (py_slice text end_idx len_text)]
    else all_annotations in
  all_annotations ←
    (if multi_label then Returns all_annotations
     else flatten_labels all_annotations);
  Returns (doc_subseqs all_annotations, doc_labels all_annotations).

(** An annotation lies in the text and its ['text'] is the slice of the raw
    text it names. *)
Definition faithful {L} (raw_text : pystr) (a : annot L) : Prop :=
  0 <= start a ∧ start a <= end_ a ∧ end_ a <= Z.of_nat (length raw_text)
  ∧ text a = py_slice raw_text (start a) (end_ a).

(** Two spans share no character. *)
Definition disjoint {L} (a b : annot L) : Prop :=
  end_ a <= start b ∨ end_ b <= start a.

(** [l] tiles the raw text from [from] to [to]: each span starts where the
    previous one ends, none is empty, and each carries its slice. *)
Fixpoint tiling {L} (raw_text : pystr) (from to : Z) (l : list (annot L))
  : Prop :=
  match l with
  | [] => from = to
  | a :: l' =>
      start a = from ∧ start a < end_ a
      ∧ text a = py_slice raw_text (start a) (end_ a)
      ∧ tiling raw_text (end_ a) to l'
  end.

(** No two spans of the list share a character. *)
Definition separate {L} (l : list (annot L)) : Prop :=
  StronglySorted disjoint l.

(** What holds of the queue and the merged list at each iteration. *)
Definition merge_invariant (raw_text : pystr)
    (queue merged_annotations : list (annot labelset)) : Prop :=
  Forall (faithful raw_text) queue
  ∧ Forall (faithful raw_text) merged_annotations
  ∧ Forall proper merged_annotations
  ∧ separate merged_annotations.

(** The [(start, end, label)] triple of an annotation. *)
Definition triple_of_annot (a : annot pylabel) : Z * Z * pylabel :=
  (start a, end_ a, label a).

(** The same of an annotation of the reconstructor. *)
Definition triple_of_indico (a : indico_annotation) : Z * Z * pylabel :=
  (ia_start a, ia_end a, ia_label a).

(** indico -> substrings -> indico, in multi-label mode (the default of
    [indico_to_finetune_sequence]); the labels of the substring format are
    the tuples the first conversion returns. *)
Definition round_trip (NLP : pystr -> list token) (none_value : pylabel)
    (subtoken_predictions : bool) (fuel : nat) (texts : list pystr)
    (labels : list (list (annot pylabel)))
  : outcome (list (list (Z * Z * pylabel))) :=
  mbind (M := outcome)
    (fun '(subseqs, tuples) =>
       map (map triple_of_indico) <$>
         finetune_to_indico_sequence NLP none_value subtoken_predictions texts
           subseqs (map (map Tuple) tuples) None None)
    (indico_to_finetune_sequence fuel texts (Some labels) true none_value).

(** What the second loop keeps of a candidate tuple: nothing if its label is
    the none-value or its target is not a known active occurrence. *)
Definition resolve (none_value : pylabel) (idx_lookup : gmap Z Z)
    (c : candidate) : option association :=
  if bool_decide (candidate_label c = none_value) then None
  else (fun target => (target, candidate_label c, candidate_prob c))
         <$> idx_lookup !! candidate_idx c.

(** What occurrence [k] keeps of a candidate tuple: what the tuple resolves
    to, if its source token belongs to [k]. *)
Definition kept_for (none_value : pylabel) (idx_lookup : gmap Z Z) (k : Z)
    (c : candidate) : option association :=
  match idx_lookup !! bpe_idx c with
  | Some k' => if decide (k' = k) then resolve none_value idx_lookup c else None
  | None => None
  end.

(** The kept candidates whose source token belongs to occurrence [k], in
    the order of iteration. *)
Definition selected (none_value : pylabel) (idx_lookup : gmap Z Z) (k : Z)
    (cs : list candidate) : list association :=
  omap (kept_for none_value idx_lookup k) cs.

Arguments selected : simpl never.

(** The number of active (not none) labels. *)
Definition count_active (none_value : pylabel) (labels : list raw_label) : Z :=
  Z.of_nat (length (filter (fun l => raw_label_is l none_value = false) labels)).

(** The source tokens of the valid candidates are known. *)
Definition sources_known (none_value : pylabel) (idx_lookup : gmap Z Z)
    (cs : list candidate) : Prop :=
  Forall (fun c => is_Some (resolve none_value idx_lookup c) ->
                   is_Some (idx_lookup !! bpe_idx c)) cs.

(** The source tokens of a list of (label, association) pairs. *)
Definition pair_tokens (pairs : list (raw_label * list candidate)) : list Z :=
  bpe_idx <$> concat pairs.*2.

(** The character at offset [p] lies in the span. *)
Definition covers {L} (a : annot L) (p : Z) : Prop :=
  start a <= p < end_ a.

(** Some span of [l] that holds the character at [p] carries the label
    [x]. *)
Definition labelled_at {L} `{ElemOf pylabel L} (p : Z) (x : pylabel)
    (l : list (annot L)) : Prop :=
  ∃ s, s ∈ l ∧ covers s p ∧ x ∈ label s.

(** Some input annotation that holds the character at [p] has the label
    [x]. *)
Definition annotated_at (p : Z) (x : pylabel) (label_seq : list (annot pylabel))
  : Prop :=
  ∃ a, a ∈ label_seq ∧ covers a p ∧ label a = x.

(** What holds of the queue and the merged list at each iteration, for
    spans of which only [end >= start] is known. *)
Definition resolved_invariant (queue merged_annotations : list (annot labelset))
  : Prop :=
  Forall well_formed queue
  ∧ Forall proper merged_annotations
  ∧ separate merged_annotations.

(** The labels a label of the substring format stands for. *)
Definition labels_of (raw_label : raw_label) : list pylabel :=
  match raw_label with
  | Single l => [l]
  | Tuple ls => ls
  end.

(** The snapping cursors of a document with [n] word tokens point into the
    token tables. *)
Definition cursors_in_range (n : Z) (st : doc_state) : Prop :=
  0 <= start_idx st ∧ start_idx st <= n ∧ 0 <= end_idx st ∧ end_idx st <= n - 1.

(** The record kept for the removal of duplicates is the set of the triples
    of the annotations made so far, none of which occurs twice. *)
Definition ranges_recorded (st : doc_state) : Prop :=
  (∀ t, t ∈ annotation_ranges st
        <-> t ∈ triple_of_indico <$> doc_annotations st)
  ∧ NoDup (triple_of_indico <$> doc_annotations st).

(** An annotation of the reconstructor that is an occurrence, in the raw
    text, of the stripped text of one of the substrings it was given, with
    one of the labels of that substring. *)
Definition occurrence_of (none_value : pylabel) (raw_text : pystr)
    (items : list (pystr * raw_label * option confidence))
    (a : indico_annotation) : Prop :=
  ia_label a ≠ none_value
  ∧ 0 <= ia_start a ∧ ia_start a <= ia_end a
  ∧ ia_end a <= Z.of_nat (length raw_text)
  ∧ ia_text a = py_slice raw_text (ia_start a) (ia_end a)
  ∧ ∃ sub_str raw_label confidences,
      (sub_str, raw_label, confidences) ∈ items
      ∧ ia_label a ∈ labels_of raw_label
      ∧ ia_text a = strip sub_str
      ∧ ia_confidence a = confidences.

(** An annotation of the reconstructor whose boundaries are token
    boundaries. *)
Definition on_token_boundaries (none_value : pylabel) (raw_text : pystr)
    (spacy_token_starts spacy_token_ends : list Z) (a : indico_annotation)
  : Prop :=
  ia_label a ≠ none_value
  ∧ ia_start a ∈ spacy_token_starts
  ∧ ia_end a ∈ spacy_token_ends
  ∧ ia_text a = py_slice raw_text (ia_start a) (ia_end a).

(** The items the loop over one document runs through. *)
Definition doc_items (doc_seq : list pystr) (label_seq : list raw_label)
    (prob_seq : option (list confidence))
  : list (pystr * raw_label * option confidence) :=
  zip (zip doc_seq label_seq) (prob_seq_or_none prob_seq doc_seq).

(** The lookup table the first loop builds for a document. *)
Definition doc_idx_lookup (none_value : pylabel) (doc_label : list raw_label)
    (doc_association : list (list candidate)) : gmap Z Z :=
  build_idx_lookup none_value (zip doc_label doc_association) (-1) ∅.

(** A document in which every candidate tuple that is kept has a source
    token the first loop has seen. *)
Definition doc_sources_known (none_value : pylabel)
    (doc : list raw_label * list (list candidate)) : Prop :=
  sources_known none_value (doc_idx_lookup none_value doc.1 doc.2)
    (concat doc.2).

(** * Properties *)

(** ** The stable sort *)

Section SortedBy.
Context {A : Type} (key : A -> Z).

Lemma insert_by_Permutation a l : insert_by key a l ≡ₚ a :: l.
Proof.
  induction l as [|b l IH]; simpl; [done|].
  case_match; [|done].
  rewrite IH. apply Permutation_swap.
Qed.

Lemma foldl_insert_by_Permutation xs acc :
  foldl (fun acc a => insert_by key a acc) acc xs ≡ₚ xs ++ acc.
Proof.
  revert acc. induction xs as [|a xs IH]; intros acc; simpl; [done|].
  rewrite IH, insert_by_Permutation. by rewrite Permutation_middle.
Qed.

Lemma sorted_by_Permutation xs : sorted_by key xs ≡ₚ xs.
Proof.
  unfold sorted_by. rewrite foldl_insert_by_Permutation. by rewrite app_nil_r.
Qed.

Lemma sorted_by_length xs : length (sorted_by key xs) = length xs.
Proof. by rewrite sorted_by_Permutation. Qed.

Lemma sorted_by_elem_of x xs : x ∈ sorted_by key xs ↔ x ∈ xs.
Proof. by rewrite sorted_by_Permutation. Qed.

Lemma sorted_by_Forall (P : A -> Prop) xs :
  Forall P (sorted_by key xs) ↔ Forall P xs.
Proof. by rewrite sorted_by_Permutation. Qed.

Lemma insert_by_Sorted a l :
  StronglySorted (key_le key) l ->
  StronglySorted (key_le key) (insert_by key a l).
Proof.
  induction 1 as [|b l Hl IH Hb]; simpl.
  - repeat constructor.
  - destruct (Z.leb_spec (key b) (key a)).
    + constructor; [done|].
      rewrite insert_by_Permutation. by constructor.
    + constructor; [by constructor|].
      constructor; [unfold key_le; lia|].
      eapply Forall_impl; [done|]. unfold key_le. intros; simpl in *; lia.
Qed.

Lemma foldl_insert_by_Sorted xs acc :
  StronglySorted (key_le key) acc ->
  StronglySorted (key_le key)
    (foldl (fun acc a => insert_by key a acc) acc xs).
Proof.
  revert acc. induction xs as [|a xs IH]; intros acc Hacc; simpl; [done|].
  by apply IH, insert_by_Sorted.
Qed.

Lemma sorted_by_Sorted xs : StronglySorted (key_le key) (sorted_by key xs).
Proof. apply foldl_insert_by_Sorted. constructor. Qed.

Lemma insert_by_lt a l :
  Forall (fun b => key a < key b) l -> insert_by key a l = a :: l.
Proof.
  destruct 1 as [|b l Hb _]; simpl; [done|].
  by rewrite (proj2 (Z.leb_gt _ _) Hb).
Qed.

(** Inserting into a sorted list that is already in place. *)
Lemma insert_by_app a l :
  Forall (fun b => key b <= key a) l -> insert_by key a l = l ++ [a].
Proof.
  induction 1 as [|b l Hb _ IH]; simpl; [done|].
  by rewrite (proj2 (Z.leb_le _ _) Hb), IH.
Qed.

Lemma foldl_insert_by_Sorted_id xs acc :
  StronglySorted (key_le key) (acc ++ xs) ->
  foldl (fun acc a => insert_by key a acc) acc xs = acc ++ xs.
Proof.
  revert acc. induction xs as [|a xs IH]; intros acc Hs; simpl.
  - by rewrite app_nil_r.
  - rewrite insert_by_app.
    + replace (acc ++ a :: xs) with ((acc ++ [a]) ++ xs) in *
        by (by rewrite <-(assoc_L (++))).
      by apply IH.
    + clear IH. induction acc as [|c acc IH]; [done|].
      simpl in Hs. apply StronglySorted_inv in Hs as [Hs Hc].
      constructor; [|by apply IH].
      rewrite Forall_app, Forall_cons in Hc. apply Hc.
Qed.

Lemma sorted_by_Sorted_id xs :
  StronglySorted (key_le key) xs -> sorted_by key xs = xs.
Proof. intros Hs. by apply (foldl_insert_by_Sorted_id xs []). Qed.

(** Sorting commutes with dropping elements: the sort is stable. *)
Lemma filter_insert_by (P : A -> Prop) `{!∀ x, Decision (P x)} a l :
  StronglySorted (key_le key) l ->
  filter P (insert_by key a l)
  = if decide (P a) then insert_by key a (filter P l) else filter P l.
Proof.
  induction 1 as [|b l Hl IH Hb]; simpl.
  - rewrite filter_cons, filter_nil. by case_decide.
  - destruct (Z.leb_spec (key b) (key a)) as [Hle|Hlt].
    + rewrite !filter_cons, IH.
      destruct (decide (P b)), (decide (P a)); simpl; try done.
      by rewrite (proj2 (Z.leb_le _ _) Hle).
    + rewrite !filter_cons.
      destruct (decide (P b)), (decide (P a)); simpl; try done.
      * by rewrite (proj2 (Z.leb_gt _ _) Hlt).
      * rewrite insert_by_lt; [done|].
        apply Forall_forall. intros c [_ Hc]%list_elem_of_filter.
        rewrite Forall_forall in Hb. specialize (Hb c Hc).
        unfold key_le in Hb. lia.
Qed.

Lemma filter_sorted_by (P : A -> Prop) `{!∀ x, Decision (P x)} xs :
  filter P (sorted_by key xs) = sorted_by key (filter P xs).
Proof.
  unfold sorted_by.
  assert (Hgen : ∀ acc, StronglySorted (key_le key) acc ->
    filter P (foldl (fun acc a => insert_by key a acc) acc xs)
    = foldl (fun acc a => insert_by key a acc) (filter P acc) (filter P xs)).
  { induction xs as [|a xs IH]; intros acc Hacc; simpl; [done|].
    rewrite IH by by apply insert_by_Sorted.
    rewrite filter_insert_by by done. rewrite filter_cons.
    by destruct (decide (P a)). }
  rewrite Hgen by constructor. done.
Qed.

End SortedBy.

(** Sorting commutes with a map that keeps the keys. *)
Lemma insert_by_fmap {A B} (key : A -> Z) (key' : B -> Z) (f : A -> B) a l :
  (∀ x, key' (f x) = key x) ->
  insert_by key' (f a) (f <$> l) = f <$> insert_by key a l.
Proof.
  intros Hkey. induction l as [|b l IH]; [done|].
  rewrite fmap_cons. cbn [insert_by]. rewrite !Hkey.
  case_match; rewrite !fmap_cons; [by rewrite IH|done].
Qed.

Lemma sorted_by_fmap {A B} (key : A -> Z) (key' : B -> Z) (f : A -> B) xs :
  (∀ x, key' (f x) = key x) ->
  sorted_by key' (f <$> xs) = f <$> sorted_by key xs.
Proof.
  intros Hkey. unfold sorted_by.
  change (@nil B) with (f <$> @nil A).
  generalize (@nil A) as acc.
  induction xs as [|a xs IH]; intros acc; [done|].
  rewrite fmap_cons. cbn [foldl]. by rewrite (insert_by_fmap key), IH.
Qed.

(** ** The merge engine: termination *)

Lemma mass_nil {L} : mass (@nil (annot L)) = 0%nat.
Proof. done. Qed.

Lemma mass_cons {L} (a : annot L) l : mass (a :: l) = (span_length a + mass l)%nat.
Proof. done. Qed.

Lemma mass_app {L} (l1 l2 : list (annot L)) :
  mass (l1 ++ l2) = (mass l1 + mass l2)%nat.
Proof. apply sum_list_with_app. Qed.

Lemma list_remove_Forall {A} `{EqDecision A} (P : A -> Prop) x l :
  Forall P l -> Forall P (list_remove x l).
Proof.
  induction 1 as [|y l Hy Hl IH]; simpl; [done|].
  case_decide; [done|by constructor].
Qed.

Lemma list_remove_Permutation {A} `{EqDecision A} (x : A) l :
  x ∈ l -> x :: list_remove x l ≡ₚ l.
Proof.
  induction l as [|y l IH]; simpl; intros Hx; [by apply elem_of_nil in Hx|].
  case_decide as Hy; [by subst|].
  apply elem_of_cons in Hx as [->|Hx]; [done|].
  rewrite Permutation_swap. by rewrite IH.
Qed.

Lemma mass_Permutation {L} (l1 l2 : list (annot L)) :
  l1 ≡ₚ l2 -> mass l1 = mass l2.
Proof. intros Hp. unfold mass. by rewrite Hp. Qed.

Lemma mass_list_remove (a : annot labelset) l :
  a ∈ l -> (span_length a + mass (list_remove a l))%nat = mass l.
Proof.
  intros Ha. rewrite <-mass_cons. by apply mass_Permutation, list_remove_Permutation.
Qed.

Lemma scan_merged_Overlapping current_annotation sorted_merged annotation :
  scan_merged current_annotation sorted_merged = Overlapping annotation ->
  annotation ∈ sorted_merged ∧ overlap current_annotation annotation = true.
Proof.
  induction sorted_merged as [|b l IH]; simpl; [done|].
  destruct (start b >? end_ current_annotation); [done|].
  destruct (overlap current_annotation b) eqn:Hov.
  - intros [= <-]. split; [left|done].
  - intros [Hin ?]%IH. split; [by right|done].
Qed.

(** The element the source removes is in the list it is removed from. *)
Lemma scan_merged_Overlapping_elem current_annotation merged_annotations annotation :
  scan_merged current_annotation (sort_by_start merged_annotations)
  = Overlapping annotation ->
  annotation ∈ merged_annotations.
Proof.
  intros [Hin _]%scan_merged_Overlapping.
  by apply sorted_by_elem_of in Hin.
Qed.

Lemma overlap_proper {L} (c a : annot L) :
  proper c -> proper a ->
  overlap c a = true <->
  Z.max (start c) (start a) < Z.min (end_ c) (end_ a).
Proof.
  unfold proper, overlap. intros Hc Ha.
  rewrite orb_true_iff, !andb_true_iff, !Z.ltb_lt, !Z.leb_le. lia.
Qed.

(** The three pieces of two overlapping spans are spans again, and their
    total length is less than that of the two. *)
Lemma overlap_handler_mass c a text :
  proper c -> proper a -> overlap c a = true ->
  Forall well_formed (overlap_handler c a text)
  ∧ (mass (overlap_handler c a text) < mass [c; a])%nat.
Proof.
  intros Hc Ha Hov. apply overlap_proper in Hov; [|done..].
  unfold proper in *. unfold overlap_handler.
  destruct (Z.leb_spec (start c) (start a)); simpl; split.
  all: try (repeat constructor; unfold well_formed; simpl; lia).
  all: unfold mass, span_length; simpl; lia.
Qed.

Lemma overlap_handler_length c a text : length (overlap_handler c a text) = 3%nat.
Proof. unfold overlap_handler. by case_match. Qed.

Lemma merge_step_decreases text c q m :
  Forall well_formed (c :: q) -> Forall proper m ->
  Forall well_formed (merge_step text c q m).1
  ∧ Forall proper (merge_step text c q m).2
  ∧ (merge_budget (merge_step text c q m).1 (merge_step text c q m).2
     < merge_budget (c :: q) m)%nat.
Proof.
  intros [Hc Hq]%Forall_cons Hm. unfold merge_step.
  destruct (Z.eqb_spec (start c) (end_ c)) as [Hdeg|Hnd]; simpl.
  { unfold merge_budget, mass. simpl. repeat split; [done..|lia]. }
  assert (proper c) as Hpc by (unfold proper, well_formed in *; lia).
  assert (Happend :
    Forall well_formed q ∧ Forall proper (m ++ [c])
    ∧ (merge_budget q (m ++ [c]) < merge_budget (c :: q) m)%nat).
  { repeat split; [done|by apply Forall_app; repeat constructor|].
    unfold merge_budget, mass. rewrite sum_list_with_app. simpl. lia. }
  destruct (scan_merged c (sort_by_start m)) as [|a|] eqn:Hscan; simpl;
    [done| |done].
  pose proof (scan_merged_Overlapping_elem _ _ _ Hscan) as Hin.
  apply scan_merged_Overlapping in Hscan as [_ Hov].
  assert (proper a) as Hpa by (by eapply Forall_forall in Hm).
  destruct (overlap_handler_mass c a text Hpc Hpa Hov) as [Hwf Hlt].
  repeat split.
  - by apply Forall_app.
  - by apply list_remove_Forall.
  - unfold merge_budget. rewrite <-(mass_list_remove a m Hin).
    unfold mass in *.
    rewrite sum_list_with_app, length_app, overlap_handler_length.
    simpl in *. lia.
Qed.

Lemma merge_loop_terminates text fuel : ∀ q m,
  Forall well_formed q -> Forall proper m ->
  (merge_budget q m <= fuel)%nat ->
  ∃ merged, merge_loop fuel text q m = Returns merged.
Proof.
  induction fuel as [|fuel IH]; intros q m Hq Hm Hfuel.
  - destruct q as [|c q]; [by eexists|].
    unfold merge_budget in Hfuel. simpl in Hfuel. lia.
  - destruct q as [|c q]; [by eexists|]. simpl.
    destruct (merge_step_decreases text c q m Hq Hm) as (Hq' & Hm' & Hlt).
    destruct (merge_step text c q m) as [q' m']. simpl in *.
    apply IH; [done..|lia].
Qed.

(** More fuel does not change a result. *)
Lemma merge_loop_fuel_mono text fuel : ∀ fuel' q m r,
  merge_loop fuel text q m = Returns r -> (fuel <= fuel')%nat ->
  merge_loop fuel' text q m = Returns r.
Proof.
  induction fuel as [|fuel IH]; intros fuel' q m r Hrun Hle.
  - destruct q; [|done]. by destruct fuel'.
  - destruct q as [|c q]; [by destruct fuel'|].
    destruct fuel' as [|fuel']; [lia|]. simpl in *.
    destruct (merge_step text c q m) as [q' m'].
    apply IH; [done|lia].
Qed.

Lemma merge_loop_not_Raises text fuel : ∀ q m e,
  merge_loop fuel text q m ≠ Raises e.
Proof.
  induction fuel as [|fuel IH]; intros q m e; destruct q as [|c q]; simpl;
    try done.
  destruct (merge_step text c q m). apply IH.
Qed.

Lemma initial_queue_well_formed label_seq :
  Forall well_formed label_seq -> Forall well_formed (initial_queue label_seq).
Proof.
  intros H. unfold initial_queue, sort_by_start.
  apply Forall_fmap. rewrite !sorted_by_Forall.
  eapply Forall_impl; [done|]. by intros [].
Qed.

(** C4: the worklist loop of the merge engine ends on every list of
    annotation spans ([end >= start], as the data model has them): a split
    replaces two overlapping spans by pieces of strictly smaller total
    length, so a budget computed from the total length of the queue is
    enough for the loop to return. *)
Theorem worklist_loop_terminates :
  (∀ (c a : annot labelset) text,
     proper c -> proper a -> overlap c a = true ->
     (mass (overlap_handler c a text) < mass [c; a])%nat)
  ∧ (∀ text (label_seq : list (annot pylabel)) fuel,
       Forall well_formed label_seq ->
       (merge_budget (initial_queue label_seq) [] <= fuel)%nat ->
       ∃ merged_annotations,
         merge_loop fuel text (initial_queue label_seq) []
         = Returns merged_annotations).
Proof.
  split.
  - intros c a text Hc Ha Hov. by apply overlap_handler_mass.
  - intros text label_seq fuel Hwf Hfuel.
    apply merge_loop_terminates; [by apply initial_queue_well_formed|done..].
Qed.

Lemma worklist_loop_terminates_witness :
  let text := str "0123456789abcde" in
  let c : annot labelset := Annotation 5 15 {[PyStr "Y"]} (str "56789abcde") in
  let a : annot labelset := Annotation 0 10 {[PyStr "X"]} (str "0123456789") in
  let label_seq :=
    [Annotation 0 10 (PyStr "X") (str "0123456789");
     Annotation 5 15 (PyStr "Y") (str "56789abcde")] in
  (mass (overlap_handler c a text) < mass [c; a])%nat
  ∧ ∃ merged_annotations,
      merge_loop (merge_budget (initial_queue label_seq) []) text
        (initial_queue label_seq) []
      = Returns merged_annotations.
Proof.
  intros text c a label_seq.
  destruct worklist_loop_terminates as [Hsplit Hloop]. split.
  - apply Hsplit; [unfold proper; simpl; lia..|reflexivity].
  - apply Hloop; [|reflexivity].
    repeat constructor; unfold well_formed; simpl; lia.
Defined.

(** *** A span with [end < start] can keep the loop running *)

Lemma reversed_split :
  overlap_handler reversed_B reversed_A reversed_text
  = [reversed_A; reversed_B; reversed_C].
Proof. by vm_compute. Qed.

Lemma reversed_two_steps rest fuel :
  merge_loop (S (S fuel)) reversed_text (reversed_A :: reversed_B :: rest) []
  = merge_loop fuel reversed_text
      (reversed_A :: reversed_B :: reversed_C :: rest) [].
Proof.
  cbn [merge_loop].
  change (merge_step reversed_text reversed_A (reversed_B :: rest) [])
    with (reversed_B :: rest, [reversed_A]).
  cbv beta iota. cbn [merge_loop].
  replace (merge_step reversed_text reversed_B rest [reversed_A])
    with (overlap_handler reversed_B reversed_A reversed_text ++ rest,
          @nil (annot labelset)).
  - by rewrite reversed_split.
  - unfold merge_step.
    change (start reversed_B =? end_ reversed_B) with false. cbv iota.
    replace (scan_merged reversed_B (sort_by_start [reversed_A]))
      with (Overlapping reversed_A) by (by vm_compute).
    f_equal; by vm_compute.
Qed.

Lemma reversed_loops n : ∀ fuel rest, (fuel <= n)%nat ->
  merge_loop fuel reversed_text (reversed_A :: reversed_B :: rest) []
  = OutOfFuel.
Proof.
  induction n as [|n IH]; intros fuel rest Hfuel.
  - by replace fuel with 0%nat by lia.
  - destruct fuel as [|[|fuel]]; [done|done|].
    rewrite reversed_two_steps. apply IH. lia.
Qed.

(** With the spans [3,12) Y and [10,5) X, the second of which ends before
    it starts, no budget is enough: the loop does not end. *)
Lemma merge_loop_reversed_span_diverges fuel :
  merge_loop fuel reversed_text
    (initial_queue [Annotation 3 12 (PyStr "Y") (str "3456789ab");
                    Annotation 10 5 (PyStr "X") []]) []
  = OutOfFuel.
Proof.
  destruct fuel as [|[|fuel]]; [done|done|].
  transitivity (merge_loop fuel reversed_text
                  [reversed_A; reversed_B; reversed_D] []).
  - set (queue := initial_queue _). vm_compute in queue. subst queue.
    cbn [merge_loop].
    match goal with |- context [merge_step ?t ?c ?q ?m] =>
      replace (merge_step t c q m)
        with (q, [c]) by (by vm_compute) end.
    cbv beta iota. cbn [merge_loop].
    match goal with |- context [merge_step ?t ?c ?q ?m] =>
      replace (merge_step t c q m)
        with ([reversed_A; reversed_B; reversed_D], @nil (annot labelset))
        by (by vm_compute) end.
    done.
  - by apply (reversed_loops fuel).
Qed.

(** ** The split rule *)

(** C2: [overlap_handler] returns the three pieces of the split rule, with
    [first] the span of smaller start, whichever of the two arguments it
    is (on equal starts, [first] is the span given first).  Merging
    [0,10) X with [5,15) Y gives [0,5) X, [5,10) {X,Y}, [10,15) Y, and
    merging [0,20) X with [5,10) Y gives [0,5) X, [5,10) {X,Y}, [10,20) X,
    both from [overlap_handler] and from the whole worklist loop. *)
Theorem overlap_handler_three_pieces :
  (∀ (first second : annot labelset) (text : pystr),
     start first <= start second ->
     overlap_handler first second text = spec_split_rule first second text
     ∧ (start first < start second ->
        overlap_handler second first text = spec_split_rule first second text))
  ∧ (let text := str "0123456789abcde" in
     let X : pylabel := PyStr "X" in
     let Y : pylabel := PyStr "Y" in
     let pieces : list (annot labelset) :=
       [Annotation 0 5 {[X]} (str "01234");
        Annotation 5 10 {[X; Y]} (str "56789");
        Annotation 10 15 {[Y]} (str "abcde")] in
     overlap_handler (Annotation 0 10 {[X]} (str "0123456789"))
       (Annotation 5 15 {[Y]} (str "56789abcde")) text = pieces
     ∧ (let queue :=
          initial_queue [Annotation 0 10 X (str "0123456789");
                         Annotation 5 15 Y (str "56789abcde")] in
        merge_loop (merge_budget queue []) text queue [] = Returns pieces))
  ∧ (let text := str "0123456789abcdefghij" in
     let X : pylabel := PyStr "X" in
     let Y : pylabel := PyStr "Y" in
     let pieces : list (annot labelset) :=
       [Annotation 0 5 {[X]} (str "01234");
        Annotation 5 10 {[X; Y]} (str "56789");
        Annotation 10 20 {[X]} (str "abcdefghij")] in
     overlap_handler (Annotation 0 20 {[X]} text)
       (Annotation 5 10 {[Y]} (str "56789")) text = pieces
     ∧ (let queue :=
          initial_queue [Annotation 0 20 X text;
                         Annotation 5 10 Y (str "56789")] in
        merge_loop (merge_budget queue []) text queue [] = Returns pieces)).
Proof.
  split; [|split].
  - intros first second text Hle. split.
    + unfold overlap_handler, spec_split_rule.
      by rewrite (proj2 (Z.leb_le _ _) Hle).
    + intros Hlt. unfold overlap_handler, spec_split_rule.
      by rewrite (proj2 (Z.leb_gt _ _) Hlt).
  - split; by vm_compute.
  - split; by vm_compute.
Qed.

Lemma overlap_handler_three_pieces_witness :
  let first : annot labelset := Annotation 0 10 {[PyStr "X"]} (str "0123456789") in
  let second : annot labelset := Annotation 5 15 {[PyStr "Y"]} (str "56789abcde") in
  let text := str "0123456789abcde" in
  overlap_handler first second text = spec_split_rule first second text
  ∧ overlap_handler second first text = spec_split_rule first second text.
Proof.
  intros first second text.
  destruct overlap_handler_three_pieces as [Hrule _].
  destruct (Hrule first second text) as [H1 H2]; [simpl; lia|].
  split; [exact H1|]. apply H2. simpl. lia.
Defined.

(** ** Documents without resolved spans, and the single-label mode *)

Lemma merge_loop_degenerate text : ∀ q m fuel,
  Forall (fun a => start a = end_ a) q -> (length q <= fuel)%nat ->
  merge_loop fuel text q m = Returns m.
Proof.
  induction q as [|c q IH]; intros m fuel Hq Hfuel; [by destruct fuel|].
  apply Forall_cons in Hq as [Hc Hq].
  destruct fuel as [|fuel]; simpl in *; [lia|].
  unfold merge_step. rewrite (proj2 (Z.eqb_eq _ _) Hc).
  apply IH; [done|lia].
Qed.

Lemma initial_queue_length label_seq :
  length (initial_queue label_seq) = length label_seq.
Proof.
  unfold initial_queue, sort_by_start.
  by rewrite length_fmap, !sorted_by_length.
Qed.

Lemma initial_queue_degenerate label_seq :
  Forall (fun a => start a = end_ a) label_seq ->
  Forall (fun a => start a = end_ a) (initial_queue label_seq).
Proof.
  intros H. unfold initial_queue, sort_by_start.
  apply Forall_fmap. rewrite !sorted_by_Forall.
  eapply Forall_impl; [done|]. by intros [].
Qed.

Lemma merge_loop_degenerate_any text : ∀ q m fuel,
  Forall (fun a => start a = end_ a) q ->
  merge_loop fuel text q m = Returns m ∨ merge_loop fuel text q m = OutOfFuel.
Proof.
  induction q as [|c q IH]; intros m fuel Hq; [left; by destruct fuel|].
  apply Forall_cons in Hq as [Hc Hq].
  destruct fuel as [|fuel]; [by right|]. simpl.
  unfold merge_step. rewrite (proj2 (Z.eqb_eq _ _) Hc). by apply IH.
Qed.

Lemma degenerate_document_not_Returns fuel multi_label none_value text
    label_seq r :
  Forall (fun a => start a = end_ a) label_seq ->
  indico_to_finetune_document fuel multi_label none_value text label_seq
  ≠ Returns r.
Proof.
  intros Hdeg.
  unfold indico_to_finetune_document, all_annotations_of,
    merged_annotations_of.
  by destruct (merge_loop_degenerate_any text (initial_queue label_seq) [] fuel
                 (initial_queue_degenerate _ Hdeg)) as [-> | ->].
Qed.

Lemma convert_documents_not_Returns fuel multi_label none_value docs text
    label_seq r :
  (text, label_seq) ∈ docs ->
  (∀ r', indico_to_finetune_document fuel multi_label none_value text label_seq
         ≠ Returns r') ->
  convert_documents fuel multi_label none_value docs ≠ Returns r.
Proof.
  intros Hin Hdoc. revert r.
  induction docs as [|[text' label_seq'] docs IH]; intros r;
    [by apply elem_of_nil in Hin|].
  cbn [convert_documents].
  destruct (indico_to_finetune_document fuel multi_label none_value text'
              label_seq') as [[subseqs labels]| |] eqn:Hhead; [|done..].
  apply elem_of_cons in Hin as [[= <- <-]|Hin];
    [by destruct (Hdoc (subseqs, labels))|].
  simpl.
  destruct (convert_documents fuel multi_label none_value docs)
    as [[all_subseqs all_labels]| |] eqn:Htail; [|done..].
  by destruct (IH Hin (all_subseqs, all_labels)).
Qed.

(** C10: a document whose annotation list is empty or holds degenerate
    spans only makes [indico_to_finetune_sequence] raise the [ValueError] of
    [max()] on an empty sequence, in either label mode, instead of returning
    one none-labeled span; so does every call at inference time
    ([labels=None]) on at least one text; and no call on a list of
    documents that holds such a document returns. *)
Theorem no_resolved_span_raises_ValueError :
  (∀ fuel multi_label none_value text label_seq,
     Forall (fun a => start a = end_ a) label_seq ->
     (length label_seq <= fuel)%nat ->
     indico_to_finetune_document fuel multi_label none_value text label_seq
     = Raises ValueError)
  ∧ (∀ fuel multi_label none_value text texts,
       indico_to_finetune_sequence fuel (text :: texts) None multi_label
         none_value
       = Raises ValueError)
  ∧ (∀ fuel multi_label none_value texts labels text label_seq r,
       (text, label_seq) ∈ zip texts labels ->
       Forall (fun a => start a = end_ a) label_seq ->
       indico_to_finetune_sequence fuel texts (Some labels) multi_label
         none_value
       ≠ Returns r).
Proof.
  assert (Hdoc : ∀ fuel multi_label none_value text label_seq,
     Forall (fun a => start a = end_ a) label_seq ->
     (length label_seq <= fuel)%nat ->
     indico_to_finetune_document fuel multi_label none_value text label_seq
     = Raises ValueError).
  { intros fuel multi_label none_value text label_seq Hdeg Hfuel.
    unfold indico_to_finetune_document, all_annotations_of,
      merged_annotations_of.
    rewrite merge_loop_degenerate;
      [done|by apply initial_queue_degenerate|by rewrite initial_queue_length]. }
  split; [done|split].
  - intros fuel multi_label none_value text texts.
    unfold indico_to_finetune_sequence. simpl.
    rewrite Hdoc; [done|done|simpl; lia].
  - intros fuel multi_label none_value texts labels text label_seq r Hin Hdeg.
    unfold indico_to_finetune_sequence.
    apply (convert_documents_not_Returns _ _ _ _ text label_seq); [done|].
    intros r'. by apply degenerate_document_not_Returns.
Qed.

Lemma no_resolved_span_raises_ValueError_witness :
  indico_to_finetune_document 1 true PyNone (str "ab")
    [Annotation 1 1 (PyStr "X") []]
  = Raises ValueError.
Proof.
  destruct no_resolved_span_raises_ValueError as [Hdoc _].
  apply Hdoc; [|simpl; lia].
  repeat constructor.
Defined.

(** C1, at the inputs where the code departs from it: a document without
    annotations, at inference time or in training data, has no partition
    returned for it; the call raises the [ValueError] of [max()] on an empty
    sequence. *)
Theorem partition_fails_without_annotations :
  indico_to_finetune_sequence 0 [str "ab"] None true PyNone
  = Raises ValueError
  ∧ indico_to_finetune_sequence 0 [str "ab"] (Some [[]]) true PyNone
    = Raises ValueError
  ∧ indico_to_finetune_sequence 10 [str "ab"; str "cd"]
      (Some [[Annotation 0 2 (PyStr "X") (str "ab")]; []]) true PyNone
    = Raises ValueError.
Proof. repeat split; by vm_compute. Qed.

Lemma flatten_labels_not_Returns all_annotations r :
  all_annotations ≠ [] -> flatten_labels all_annotations ≠ Returns r.
Proof.
  destruct all_annotations as [|a l]; [done|]. intros _. simpl.
  by case_match.
Qed.

Lemma all_annotations_single_label_not_Returns fuel none_value text label_seq r :
  all_annotations_of fuel false none_value text label_seq ≠ Returns r.
Proof.
  unfold all_annotations_of.
  destruct (merged_annotations_of fuel text label_seq) as [m| |]; simpl;
    [|done..].
  destruct (add_none_labels text none_value m 0) as [|a l] eqn:Hall; simpl;
    [done|].
  case_decide; apply flatten_labels_not_Returns; [|done].
  by destruct l.
Qed.

(** C5, at the inputs where the code departs from it: with
    [multi_label=False] the conversion never completes.  A document whose
    resolved spans all carry one label raises [KeyError] (from
    [annotation[0]]) instead of being flattened; a document with a
    two-label span after a one-label span raises that [KeyError] too and not
    the [FinetuneError]; the [FinetuneError] is raised when the first span
    of the document carries two labels. *)
Theorem single_label_mode_never_completes :
  indico_to_finetune_document 10 false PyNone (str "ab")
    [Annotation 0 2 (PyStr "X") (str "ab")]
  = Raises KeyError
  ∧ indico_to_finetune_document 10 false PyNone (str "abcd")
      [Annotation 0 3 (PyStr "X") (str "abc");
       Annotation 2 4 (PyStr "Y") (str "cd")]
    = Raises KeyError
  ∧ indico_to_finetune_document 10 false PyNone (str "ab")
      [Annotation 0 2 (PyStr "X") (str "ab");
       Annotation 0 2 (PyStr "Y") (str "ab")]
    = Raises (FinetuneError
                (Annotation 0 2 (elements ({[PyStr "X"; PyStr "Y"]} : labelset))
                   (str "ab")))
  ∧ ∀ fuel none_value text label_seq r,
      indico_to_finetune_document fuel false none_value text label_seq
      ≠ Returns r.
Proof.
  split; [by vm_compute|]. split; [by vm_compute|]. split; [by vm_compute|].
  intros fuel none_value text label_seq r.
  unfold indico_to_finetune_document.
  pose proof (all_annotations_single_label_not_Returns fuel none_value text
                label_seq) as Hall.
  destruct (all_annotations_of fuel false none_value text label_seq) as [l| |];
    [by destruct (Hall l)|done..].
Qed.

(** ** Degenerate spans *)

Lemma skips_degenerate_refl {L} (q : list (annot L)) : skips_degenerate q q.
Proof. induction q; by constructor. Qed.

Lemma skips_degenerate_app {L} (p q q' : list (annot L)) :
  skips_degenerate q q' -> skips_degenerate (p ++ q) (p ++ q').
Proof. intros H. induction p; simpl; [done|by constructor]. Qed.

Lemma skips_degenerate_filter {L} (q : list (annot L)) :
  skips_degenerate q (filter (fun a => start a ≠ end_ a) q).
Proof.
  induction q as [|a q IH]; [constructor|].
  rewrite filter_cons. case_decide as Ha.
  - by constructor.
  - constructor; [|done]. by destruct (decide (start a = end_ a)).
Qed.

Lemma merge_loop_skips_l text fuel : ∀ q q' m r,
  skips_degenerate q q' ->
  merge_loop fuel text q m = Returns r ->
  merge_loop fuel text q' m = Returns r.
Proof.
  induction fuel as [|fuel IH]; intros q q' m r Hskip Hrun.
  - destruct q; [|done]. by inversion Hskip.
  - destruct Hskip as [|a q q' Hskip|a q q' Ha Hskip]; [done| |].
    + simpl in *. unfold merge_step in *.
      destruct (start a =? end_ a); [by eapply IH|].
      destruct (scan_merged a (sort_by_start m)); [by eapply IH| |by eapply IH].
      eapply IH; [|done]. by apply skips_degenerate_app.
    + cbn [merge_loop] in Hrun. unfold merge_step in Hrun.
      rewrite (proj2 (Z.eqb_eq _ _) Ha) in Hrun.
      apply (merge_loop_fuel_mono _ fuel); [by eapply IH|lia].
Qed.

Lemma merge_loop_skips_r text fuel : ∀ q q' m r,
  skips_degenerate q q' ->
  merge_loop fuel text q' m = Returns r ->
  ∃ fuel', merge_loop fuel' text q m = Returns r.
Proof.
  induction fuel as [|fuel IH]; intros q q' m r Hskip.
  - induction Hskip as [|a q q' Hskip _|a q q' Ha Hskip IHskip]; intros Hrun.
    + by exists 0%nat.
    + done.
    + destruct (IHskip Hrun) as [fuel' Hfuel']. exists (S fuel'). simpl.
      unfold merge_step. by rewrite (proj2 (Z.eqb_eq _ _) Ha).
  - induction Hskip as [|a q q' Hskip _|a q q' Ha Hskip IHskip]; intros Hrun.
    + by exists 0%nat.
    + simpl in Hrun. unfold merge_step in Hrun.
      assert (∃ fuel', merge_loop fuel' text
                (merge_step text a q m).1 (merge_step text a q m).2 = Returns r)
        as [fuel' Hfuel'].
      { unfold merge_step.
        destruct (start a =? end_ a); [by eapply IH|].
        destruct (scan_merged a (sort_by_start m)); simpl;
          [by eapply IH| |by eapply IH].
        eapply IH; [|done]. by apply skips_degenerate_app. }
      exists (S fuel'). simpl. by destruct (merge_step text a q m).
    + destruct (IHskip Hrun) as [fuel' Hfuel']. exists (S fuel'). simpl.
      unfold merge_step. by rewrite (proj2 (Z.eqb_eq _ _) Ha).
Qed.

Lemma filter_label_to_set (l : list (annot pylabel)) :
  filter (fun a => start a ≠ end_ a) (label_to_set <$> l)
  = label_to_set <$> filter (fun a => start a ≠ end_ a) l.
Proof.
  induction l as [|a l IH]; [done|].
  rewrite fmap_cons, !filter_cons, IH. simpl.
  by destruct (decide (start a ≠ end_ a)).
Qed.

Lemma initial_queue_filter label_seq :
  initial_queue (filter (fun a => start a ≠ end_ a) label_seq)
  = filter (fun a => start a ≠ end_ a) (initial_queue label_seq).
Proof.
  unfold initial_queue, sort_by_start.
  by rewrite <-!filter_sorted_by, filter_label_to_set.
Qed.

Lemma indico_to_finetune_document_after_merge fuel multi_label none_value text
    label_seq :
  indico_to_finetune_document fuel multi_label none_value text label_seq
  = merge_loop fuel text (initial_queue label_seq) []
      ≫= after_merge multi_label none_value text.
Proof.
  unfold indico_to_finetune_document, all_annotations_of,
    merged_annotations_of, after_merge.
  destruct (merge_loop fuel text (initial_queue label_seq) []); simpl; [|done..].
  by destruct (py_max _).
Qed.

Lemma after_merge_not_OutOfFuel multi_label none_value text merged :
  after_merge multi_label none_value text merged ≠ OutOfFuel.
Proof.
  unfold after_merge.
  destruct (py_max _) as [end_idx| |] eqn:Hmax; simpl; [|done|].
  - destruct multi_label; simpl; [done|].
    match goal with |- context [flatten_labels ?l] => destruct l as [|a l'] end;
      simpl; [done|by case_match].
  - unfold py_max in Hmax. by case_match.
Qed.

Lemma document_ends_with multi_label none_value text label_seq r :
  ends_with (fun fuel =>
    indico_to_finetune_document fuel multi_label none_value text label_seq) r
  <-> ∃ merged fuel,
        merge_loop fuel text (initial_queue label_seq) [] = Returns merged
        ∧ after_merge multi_label none_value text merged = r.
Proof.
  unfold ends_with. split.
  - intros [Hr [fuel Hrun]].
    rewrite indico_to_finetune_document_after_merge in Hrun.
    destruct (merge_loop fuel text (initial_queue label_seq) []) as [m|e|] eqn:Hm;
      simpl in Hrun; [by eauto| |by subst].
    by apply merge_loop_not_Raises in Hm.
  - intros (merged & fuel & Hm & Hafter). split.
    + subst r. apply after_merge_not_OutOfFuel.
    + exists fuel. rewrite indico_to_finetune_document_after_merge.
      by rewrite Hm.
Qed.

(** C8: the spans with [start == end] contribute nothing and raise
    nothing: a document converts to the same result, or raises the same
    exception, as the document without them (and the worklist loop ends on
    one exactly when it ends on the other). *)
Theorem degenerate_spans_are_dropped multi_label none_value text label_seq r :
  ends_with (fun fuel =>
    indico_to_finetune_document fuel multi_label none_value text label_seq) r
  <-> ends_with (fun fuel =>
        indico_to_finetune_document fuel multi_label none_value text
          (filter (fun a => start a ≠ end_ a) label_seq)) r.
Proof.
  rewrite !document_ends_with, initial_queue_filter.
  split; intros (merged & fuel & Hm & Hafter).
  - exists merged, fuel. split; [|done].
    eapply merge_loop_skips_l; [apply skips_degenerate_filter|done].
  - eapply merge_loop_skips_r in Hm as [fuel' Hm];
      [|apply skips_degenerate_filter].
    by exists merged, fuel'.
Qed.

(** ** The partition of a document *)

Lemma py_slice_in_range {A} (s : list A) i j :
  0 <= i -> i <= j -> j <= Z.of_nat (length s) ->
  py_slice s i j = take (Z.to_nat (j - i)) (drop (Z.to_nat i) s).
Proof.
  intros Hi Hij Hj. unfold py_slice, slice_bound.
  destruct (Z.ltb_spec i 0), (Z.ltb_spec j 0); try lia.
  do 3 f_equal; lia.
Qed.

Lemma py_slice_app {A} (s : list A) i j k :
  0 <= i -> i <= j -> j <= k -> k <= Z.of_nat (length s) ->
  py_slice s i j ++ py_slice s j k = py_slice s i k.
Proof.
  intros Hi Hij Hjk Hk. rewrite !py_slice_in_range by lia.
  replace (Z.to_nat j) with (Z.to_nat i + Z.to_nat (j - i))%nat by lia.
  rewrite <-drop_drop, take_take_drop. f_equal. lia.
Qed.

Lemma py_slice_all {A} (s : list A) :
  py_slice s 0 (Z.of_nat (length s)) = s.
Proof.
  rewrite py_slice_in_range by lia. simpl. rewrite drop_0.
  apply take_ge. lia.
Qed.

Lemma py_slice_empty {A} (s : list A) i :
  0 <= i -> i <= Z.of_nat (length s) -> py_slice s i i = [].
Proof.
  intros Hi Hlen. rewrite py_slice_in_range by lia.
  by replace (Z.to_nat (i - i)) with 0%nat by lia.
Qed.

(** The substrings of a tiling concatenate to the slice it covers. *)
Lemma tiling_concat {L} raw_text (l : list (annot L)) : ∀ from to,
  0 <= from -> to <= Z.of_nat (length raw_text) ->
  tiling raw_text from to l ->
  from <= to ∧ concat (text <$> l) = py_slice raw_text from to.
Proof.
  induction l as [|a l IH]; intros from to Hfrom Hto.
  - intros <-. split; [lia|]. simpl. by rewrite py_slice_empty.
  - intros (<- & Hlt & Htext & Htail).
    destruct (IH (end_ a) to) as [Hle Hconcat]; [lia|done|done|].
    split; [lia|]. rewrite fmap_cons. cbn [concat].
    rewrite Hconcat, Htext. apply py_slice_app; lia.
Qed.

Lemma tiling_app {L} raw_text (l1 l2 : list (annot L)) : ∀ from mid to,
  tiling raw_text from mid l1 -> tiling raw_text mid to l2 ->
  tiling raw_text from to (l1 ++ l2).
Proof.
  induction l1 as [|a l1 IH]; intros from mid to; simpl.
  - by intros <-.
  - intros (? & ? & ? & ?) ?. repeat split; try done. by eapply IH.
Qed.

(** In a tiling the spans are in ascending order and do not overlap. *)
Lemma tiling_sorted {L} raw_text (l : list (annot L)) : ∀ from to,
  tiling raw_text from to l ->
  Forall (fun a => from <= start a ∧ end_ a <= to) l
  ∧ StronglySorted (fun a b => end_ a <= start b) l.
Proof.
  induction l as [|a l IH]; intros from to; simpl.
  - intros _. split; constructor.
  - intros (<- & Hlt & _ & Htail).
    destruct (IH _ _ Htail) as [Hbounds Hsorted].
    assert (end_ a <= to).
    { destruct l as [|b l]; simpl in Htail; [lia|].
      apply Forall_cons in Hbounds as [? _]. destruct Htail as (? & ? & _).
      lia. }
    split.
    + constructor; [lia|].
      eapply Forall_impl; [done|]. simpl. intros; lia.
    + constructor; [done|].
      eapply Forall_impl; [done|]. simpl. intros; lia.
Qed.

Lemma tiling_foldl_max {L} raw_text (l : list (annot L)) : ∀ from to,
  tiling raw_text from to l -> foldl Z.max from (end_ <$> l) = to.
Proof.
  induction l as [|b l IH]; intros from to; [done|].
  intros (Hb & Hlt & _ & Htail).
  rewrite fmap_cons. cbn [foldl].
  replace (from `max` end_ b) with (end_ b) by lia. by apply IH.
Qed.

(** [max] of the ends of a tiling is its last end. *)
Lemma tiling_py_max {L} raw_text (l : list (annot L)) from to :
  l ≠ [] -> tiling raw_text from to l -> py_max (end_ <$> l) = Returns to.
Proof.
  destruct l as [|a l]; [done|]. intros _ (_ & _ & _ & Htail).
  rewrite fmap_cons. unfold py_max. f_equal.
  by apply (tiling_foldl_max raw_text).
Qed.

(** *** The gap filler turns sorted, separate spans into a tiling *)

Lemma add_none_labels_tiling raw_text none_value merged : ∀ current_idx,
  0 <= current_idx ->
  Forall (fun a => proper a ∧ faithful raw_text a ∧ current_idx <= start a)
    merged ->
  StronglySorted (fun a b => end_ a <= start b) merged ->
  tiling raw_text current_idx (default current_idx (last (end_ <$> merged)))
    (add_none_labels raw_text none_value merged current_idx).
Proof.
  induction merged as [|a merged IH]; intros current_idx Hcur Hall Hsorted.
  { done. }
  apply Forall_cons in Hall as [(Hproper & Hfaithful & Hle) Hall].
  apply StronglySorted_inv in Hsorted as [Hsorted Hnext].
  destruct Hfaithful as (H0 & Hse & Hlen & Htext).
  assert (Htail : tiling raw_text (end_ a)
            (default current_idx (last (end_ <$> a :: merged)))
            (add_none_labels raw_text none_value merged (end_ a))).
  { replace (default current_idx (last (end_ <$> a :: merged)))
      with (default (end_ a) (last (end_ <$> merged))).
    2:{ rewrite fmap_cons, last_cons. by destruct (last (end_ <$> merged)). }
    apply IH; [lia| |done].
    rewrite Forall_forall in Hall, Hnext. apply Forall_forall.
    intros b Hb. destruct (Hall b Hb) as (? & ? & _). by auto. }
  cbn [add_none_labels].
  destruct (Z.gtb_spec (start a) current_idx) as [Hgap|Hnogap].
  - simpl. repeat split; try done; lia.
  - simpl. unfold proper in Hproper. repeat split; try done; lia.
Qed.

(** *** The invariant of the worklist loop *)

Lemma disjoint_sym {L} (a b : annot L) : disjoint a b -> disjoint b a.
Proof. unfold disjoint. tauto. Qed.

Lemma separate_Permutation {L} (l l' : list (annot L)) :
  l ≡ₚ l' -> separate l -> separate l'.
Proof.
  unfold separate. induction 1 as [|x l l' Hp IH|x y l|l l' l'' _ IH1 _ IH2].
  - done.
  - intros [Hl Hx]%StronglySorted_inv. constructor; [by apply IH|].
    by rewrite <-Hp.
  - intros [[Hl Hx]%StronglySorted_inv Hy]%StronglySorted_inv.
    apply Forall_cons in Hy as [Hyx Hy].
    constructor; [by constructor|].
    constructor; [by apply disjoint_sym|done].
  - by intros ?%IH1%IH2.
Qed.

Lemma not_overlap_disjoint {L} (c a : annot L) :
  proper c -> proper a -> overlap c a = false -> disjoint c a.
Proof.
  intros Hc Ha Hov. unfold disjoint.
  destruct (decide (Z.max (start c) (start a) < Z.min (end_ c) (end_ a)))
    as [Hlt|Hge]; [|unfold proper in *; lia].
  apply overlap_proper in Hlt; [congruence|done..].
Qed.

(** A scan that does not stop at an overlapping span has seen that there is
    none, the list being sorted. *)
Lemma scan_merged_no_overlap (c : annot labelset) l :
  StronglySorted (key_le start) l -> Forall proper l -> proper c ->
  (∀ a, scan_merged c l ≠ Overlapping a) ->
  Forall (disjoint c) l.
Proof.
  intros Hsorted Hall Hc. induction Hsorted as [|a l Hsorted IH Ha]; [done|].
  apply Forall_cons in Hall as [Hpa Hall]. simpl.
  destruct (Z.gtb_spec (start a) (end_ c)) as [Hgt|Hle].
  - intros _. constructor; [left; lia|].
    eapply Forall_impl; [exact Ha|]. unfold key_le, disjoint. intros; lia.
  - destruct (overlap c a) eqn:Hov; [by intros H; destruct (H a)|].
    intros Hscan. constructor; [by apply not_overlap_disjoint|by apply IH].
Qed.

Lemma overlap_handler_faithful raw_text c a :
  faithful raw_text c -> faithful raw_text a -> proper c -> proper a ->
  overlap c a = true ->
  Forall (faithful raw_text) (overlap_handler c a raw_text)
  ∧ Exists proper (overlap_handler c a raw_text).
Proof.
  intros (? & ? & ? & _) (? & ? & ? & _) Hc Ha Hov.
  apply overlap_proper in Hov; [|done..]. unfold proper in *.
  unfold overlap_handler.
  destruct (Z.leb_spec (start c) (start a)); simpl; split.
  1,3: repeat constructor; simpl; lia.
  all: apply Exists_cons_tl, Exists_cons_hd; unfold proper; simpl; lia.
Qed.

Lemma merge_step_invariant raw_text c q m :
  merge_invariant raw_text (c :: q) m ->
  Exists proper (c :: q) ∨ m ≠ [] ->
  merge_invariant raw_text (merge_step raw_text c q m).1
    (merge_step raw_text c q m).2
  ∧ (Exists proper (merge_step raw_text c q m).1
     ∨ (merge_step raw_text c q m).2 ≠ []).
Proof.
  intros ([Hc Hq]%Forall_cons & Hm & Hproper & Hsep) Hsome.
  unfold merge_step.
  destruct (Z.eqb_spec (start c) (end_ c)) as [Hdeg|Hnd]; simpl.
  { split; [done|]. destruct Hsome as [[Hp|Hp]%Exists_cons|?]; [|by left|by right].
    unfold proper in Hp. lia. }
  assert (proper c) as Hpc.
  { destruct Hc as (? & ? & _). unfold proper. lia. }
  assert (Happend : (∀ a, scan_merged c (sort_by_start m) ≠ Overlapping a) ->
    merge_invariant raw_text q (m ++ [c])
    ∧ (Exists proper q ∨ m ++ [c] ≠ [])).
  { intros Hscan. split; [|right; by destruct m].
    repeat split;
      [done|apply Forall_app; split; [done|by constructor]..|].
    apply (separate_Permutation (c :: m)); [by rewrite Permutation_app_comm|].
    constructor; [done|].
    apply (sorted_by_Forall start), scan_merged_no_overlap; try done.
    - apply sorted_by_Sorted.
    - by apply sorted_by_Forall. }
  destruct (scan_merged c (sort_by_start m)) as [|a|] eqn:Hscan; simpl;
    [by apply Happend| |by apply Happend].
  pose proof (scan_merged_Overlapping_elem _ _ _ Hscan) as Hin.
  apply scan_merged_Overlapping in Hscan as [_ Hov].
  assert (proper a) as Hpa by (by eapply Forall_forall in Hproper).
  assert (faithful raw_text a) as Hfa by (by eapply Forall_forall in Hm).
  destruct (overlap_handler_faithful raw_text c a Hc Hfa Hpc Hpa Hov)
    as [Hpieces Hpiece].
  split; [|left; by apply Exists_app; left].
  repeat split.
  - by apply Forall_app.
  - by apply list_remove_Forall.
  - by apply list_remove_Forall.
  - apply (separate_Permutation _ (a :: list_remove a m)) in Hsep;
      [|by rewrite list_remove_Permutation].
    by apply StronglySorted_inv in Hsep as [? _].
Qed.

Lemma merge_loop_invariant raw_text fuel : ∀ q m r,
  merge_invariant raw_text q m -> Exists proper q ∨ m ≠ [] ->
  merge_loop fuel raw_text q m = Returns r ->
  merge_invariant raw_text [] r ∧ r ≠ [].
Proof.
  induction fuel as [|fuel IH]; intros q m r Hinv Hsome Hrun.
  - destruct q as [|c q]; [|done]. injection Hrun as <-.
    split; [done|]. destruct Hsome as [Hex|?]; [|done]. by inversion Hex.
  - destruct q as [|c q].
    + injection Hrun as <-.
      split; [done|]. destruct Hsome as [Hex|?]; [|done]. by inversion Hex.
    + simpl in Hrun.
      destruct (merge_step_invariant raw_text c q m Hinv Hsome) as [Hinv' Hsome'].
      destruct (merge_step raw_text c q m) as [q' m']. by eapply IH.
Qed.

(** Spans sorted by start that share no character follow one another. *)
Lemma sorted_separate_chain {L} (l : list (annot L)) :
  StronglySorted (key_le start) l -> separate l -> Forall proper l ->
  StronglySorted (fun a b => end_ a <= start b) l.
Proof.
  induction 1 as [|a l Hsorted IH Ha]; [constructor|].
  intros [Hsep Hda]%StronglySorted_inv [Hpa Hall]%Forall_cons.
  constructor; [by apply IH|].
  rewrite Forall_forall in Ha, Hda, Hall. apply Forall_forall.
  intros b Hb. specialize (Ha b Hb). specialize (Hda b Hb).
  specialize (Hall b Hb). unfold key_le, disjoint, proper in *. lia.
Qed.

Lemma separate_fmap {L M} (f : annot L -> annot M) l :
  (∀ a, start (f a) = start a ∧ end_ (f a) = end_ a) ->
  separate l -> separate (f <$> l).
Proof.
  intros Hf. unfold separate.
  induction 1 as [|a l Hl IH Ha]; [constructor|].
  rewrite fmap_cons. constructor; [done|].
  apply Forall_fmap. eapply Forall_impl; [done|].
  intros b. unfold disjoint. simpl.
  destruct (Hf a) as [-> ->], (Hf b) as [-> ->]. done.
Qed.

Lemma initial_queue_faithful raw_text label_seq :
  Forall (faithful raw_text) label_seq ->
  Forall (faithful raw_text) (initial_queue label_seq).
Proof.
  intros H. unfold initial_queue, sort_by_start.
  apply Forall_fmap. rewrite !sorted_by_Forall.
  eapply Forall_impl; [done|]. by intros [].
Qed.

Lemma initial_queue_Exists_proper label_seq :
  Exists proper label_seq -> Exists proper (initial_queue label_seq).
Proof.
  unfold initial_queue, sort_by_start.
  rewrite !Exists_exists. intros (a & Ha & Hp).
  exists (label_to_set a). split; [|done].
  apply list_elem_of_fmap_2. by rewrite !sorted_by_elem_of.
Qed.

(** The worklist loop leaves spans that are not empty, carry their slice
    of the raw text and share no character; there is one at least when
    the document has a span that is not degenerate. *)
Lemma merged_annotations_of_spec fuel raw_text label_seq :
  Forall (faithful raw_text) label_seq -> Exists proper label_seq ->
  (merge_budget (initial_queue label_seq) [] <= fuel)%nat ->
  ∃ merged,
    merged_annotations_of fuel raw_text label_seq = Returns merged
    ∧ merged ≠ []
    ∧ Forall (fun a => proper a ∧ faithful raw_text a ∧ 0 <= start a) merged
    ∧ StronglySorted (fun a b => end_ a <= start b) merged.
Proof.
  intros Hfaithful Hproper Hfuel.
  destruct (merge_loop_terminates raw_text fuel (initial_queue label_seq) [])
    as [r Hrun]; [|constructor|done|].
  { apply initial_queue_well_formed.
    eapply Forall_impl; [done|]. by intros a (_ & ? & _). }
  destruct (merge_loop_invariant raw_text fuel (initial_queue label_seq) [] r)
    as [(_ & Hr_faithful & Hr_proper & Hr_sep) Hr_ne];
    [|by left; apply initial_queue_Exists_proper|done|].
  { repeat split; [by apply initial_queue_faithful|constructor..]. }
  unfold merged_annotations_of. rewrite Hrun. simpl.
  eexists. split; [done|].
  assert (Hp : Forall proper (sort_by_start (label_to_list <$> r))).
  { apply sorted_by_Forall, Forall_fmap.
    eapply Forall_impl; [exact Hr_proper|]. by intros []. }
  assert (Hf : Forall (faithful raw_text) (sort_by_start (label_to_list <$> r))).
  { apply sorted_by_Forall, Forall_fmap.
    eapply Forall_impl; [exact Hr_faithful|]. by intros []. }
  split; [|split].
  - intros Hnil. apply (f_equal length) in Hnil.
    unfold sort_by_start in Hnil.
    rewrite sorted_by_length, length_fmap in Hnil. by destruct r.
  - rewrite Forall_forall in Hp, Hf. apply Forall_forall. intros a Ha.
    split; [by apply Hp|]. split; [by apply Hf|].
    by destruct (Hf a Ha) as (? & _).
  - apply sorted_separate_chain; [apply sorted_by_Sorted| |done].
    apply (separate_Permutation (label_to_list <$> r));
      [by unfold sort_by_start; rewrite sorted_by_Permutation|].
    by apply separate_fmap.
Qed.

Lemma add_none_labels_nonempty raw_text none_value merged current_idx :
  merged ≠ [] -> add_none_labels raw_text none_value merged current_idx ≠ [].
Proof.
  destruct merged as [|a merged]; [done|]. intros _. simpl.
  by destruct (start a >? current_idx).
Qed.

(** X7: the partition invariant, for a document with a span that is not
    degenerate, whose annotations lie in the text and carry their slice of
    it, in multi-label mode: the conversion returns; the spans it returns
    tile the raw text from its first to its last character, each starting
    where the previous one ends; the substrings concatenate to the raw
    text; and there are as many labels as substrings. *)
Theorem partition_of_annotated_document fuel none_value raw_text label_seq :
  Forall (faithful raw_text) label_seq -> Exists proper label_seq ->
  (merge_budget (initial_queue label_seq) [] <= fuel)%nat ->
  ∃ all_annotations,
    all_annotations_of fuel true none_value raw_text label_seq
    = Returns all_annotations
    ∧ indico_to_finetune_document fuel true none_value raw_text label_seq
      = Returns (doc_subseqs all_annotations, doc_labels all_annotations)
    ∧ tiling raw_text 0 (Z.of_nat (length raw_text)) all_annotations
    ∧ StronglySorted (fun a b => end_ a <= start b) all_annotations
    ∧ concat (doc_subseqs all_annotations) = raw_text
    ∧ length (doc_subseqs all_annotations)
      = length (doc_labels all_annotations).
Proof.
  intros Hfaithful Hproper Hfuel.
  destruct (merged_annotations_of_spec fuel raw_text label_seq)
    as (merged & Hrun & Hne & Hall & Hchain); [done..|].
  pose proof (add_none_labels_tiling raw_text none_value merged 0) as Htiling.
  specialize (Htiling ltac:(lia) Hall Hchain).
  set (to := default 0 (last (end_ <$> merged))) in *.
  assert (Hto : to <= Z.of_nat (length raw_text)).
  { subst to. destruct (last (end_ <$> merged)) as [e|] eqn:Hlast; [|simpl; lia].
    apply last_Some_elem_of, list_elem_of_fmap in Hlast as (a & -> & Ha).
    rewrite Forall_forall in Hall. destruct (Hall a Ha) as (_ & (_ & _ & ? & _) & _).
    done. }
  assert (Hfinal : ∃ all_annotations,
    all_annotations_of fuel true none_value raw_text label_seq
    = Returns all_annotations
    ∧ tiling raw_text 0 (Z.of_nat (length raw_text)) all_annotations).
  { unfold all_annotations_of. rewrite Hrun. simpl.
    rewrite (tiling_py_max raw_text _ 0 to);
      [|by apply add_none_labels_nonempty|done].
    simpl. case_decide as Hend.
    - eexists. split; [done|].
      eapply tiling_app; [done|]. simpl. repeat split; lia.
    - eexists. split; [done|]. by rewrite <-Hend. }
  destruct Hfinal as (all_annotations & Hall_run & Hall_tiling).
  exists all_annotations. split; [done|]. split; [|split; [done|split; [|split]]].
  - unfold indico_to_finetune_document. by rewrite Hall_run.
  - by eapply tiling_sorted.
  - unfold doc_subseqs.
    destruct (tiling_concat raw_text all_annotations 0
                (Z.of_nat (length raw_text))) as [_ ->]; [lia..|done|].
    apply py_slice_all.
  - unfold doc_subseqs, doc_labels. by rewrite !length_fmap.
Qed.

Lemma partition_of_annotated_document_witness :
  let raw_text := str "0123456789abcde--" in
  let label_seq := [Annotation 0 10 (PyStr "X") (str "0123456789");
                    Annotation 5 15 (PyStr "Y") (str "56789abcde")] in
  ∃ all_annotations,
    all_annotations_of 100 true PyNone raw_text label_seq
    = Returns all_annotations
    ∧ indico_to_finetune_document 100 true PyNone raw_text label_seq
      = Returns (doc_subseqs all_annotations, doc_labels all_annotations)
    ∧ tiling raw_text 0 (Z.of_nat (length raw_text)) all_annotations
    ∧ StronglySorted (fun a b => end_ a <= start b) all_annotations
    ∧ concat (doc_subseqs all_annotations) = raw_text
    ∧ length (doc_subseqs all_annotations)
      = length (doc_labels all_annotations).
Proof.
  intros raw_text label_seq.
  apply partition_of_annotated_document.
  - repeat constructor; simpl; lia.
  - left. unfold proper. simpl. lia.
  - vm_compute. lia.
Defined.

(** ** The span reconstructor *)

(** C3, at inputs where the code departs from it.  On the text "aa" with the
    annotations [0,1) X and [1,2) Y (no overlap, full cover) the round trip
    returns [0,1) X and [0,1) Y, whatever the tokenizer, when sub-token
    predictions are allowed: the search for the second "a" starts where the
    first match started.  On the text "a b" with the annotations [0,2) X
    and [2,3) Y and whole-token snapping on the words "a" and "b", it
    returns [0,1) X: the substring is stripped before it is searched for. *)
Theorem round_trip_loses_spans :
  (∀ NLP,
     let labels := [[Annotation 0 1 (PyStr "X") (str "a");
                     Annotation 1 2 (PyStr "Y") (str "a")]] in
     round_trip NLP PyNone true 10 [str "aa"] labels
     = Returns [[(0, 1, PyStr "X"); (0, 1, PyStr "Y")]]
     ∧ map (map triple_of_annot) labels
       = [[(0, 1, PyStr "X"); (1, 2, PyStr "Y")]])
  ∧ (let NLP := fun _ : pystr => [Token 0 (str "a"); Token 2 (str "b")] in
     let labels := [[Annotation 0 2 (PyStr "X") (str "a ");
                     Annotation 2 3 (PyStr "Y") (str "b")]] in
     round_trip NLP PyNone false 10 [str "a b"] labels
     = Returns [[(0, 1, PyStr "X"); (2, 3, PyStr "Y")]]
     ∧ map (map triple_of_annot) labels
       = [[(0, 2, PyStr "X"); (2, 3, PyStr "Y")]]).
Proof.
  split.
  - intros NLP. split; by vm_compute.
  - split; by vm_compute.
Qed.

(** A candidate that is not found adds no annotation, emits one warning and
    raises nothing; it leaves the search cursor at -1. *)
Lemma process_label_not_found none_value subtoken_predictions raw_text
    starts ends associations_seq sub_str multi_label confidences st label :
  py_find raw_text (strip sub_str) (raw_annotation_start st) = -1 ->
  process_label none_value subtoken_predictions raw_text starts ends
    associations_seq sub_str multi_label confidences st label
  = Returns (DocState (start_idx st) (end_idx st) (-1) (doc_annotations st)
               (annotation_ranges st) (warnings st ++ [strip sub_str])).
Proof. intros Hfind. unfold process_label. by rewrite Hfind. Qed.

(** C6, with the input where the code departs from it.  A candidate whose
    stripped text is not found adds no annotation, emits one warning and
    raises nothing.  But it leaves the search cursor at -1, so the later
    candidates of the document are searched for from the last character of
    the text only: in "abc def", after the miss of "zzz", the substring
    "def" is not found and the document gets no annotation, while without
    the miss "def" is found at [4,7). *)
Theorem not_found_drops_later_candidates :
  (∀ none_value subtoken_predictions raw_text starts ends associations_seq
     sub_str multi_label confidences st label,
     py_find raw_text (strip sub_str) (raw_annotation_start st) = -1 ->
     ∃ st',
       process_label none_value subtoken_predictions raw_text starts ends
         associations_seq sub_str multi_label confidences st label
       = Returns st'
       ∧ doc_annotations st' = doc_annotations st
       ∧ warnings st' = warnings st ++ [strip sub_str]
       ∧ raw_annotation_start st' = -1)
  ∧ (∀ NLP,
       map triple_of_indico <$>
         finetune_to_indico_document NLP PyNone true (str "abc def")
           [str "zzz"; str "def"] [Single (PyStr "X"); Single (PyStr "Y")]
           None None
       = Returns []
       ∧ map triple_of_indico <$>
           finetune_to_indico_document NLP PyNone true (str "abc def")
             [str "def"] [Single (PyStr "Y")] None None
         = Returns [(4, 7, PyStr "Y")]).
Proof.
  split.
  - intros. eexists. split; [by apply process_label_not_found|done].
  - intros NLP. split; by vm_compute.
Qed.

Lemma not_found_drops_later_candidates_witness :
  let st := initial_doc_state in
  ∃ st',
    process_label PyNone true (str "abc def") [] [] None (str "zzz") false None
      st (PyStr "X")
    = Returns st'
    ∧ doc_annotations st' = doc_annotations st
    ∧ warnings st' = warnings st ++ [strip (str "zzz")]
    ∧ raw_annotation_start st' = -1.
Proof.
  intros st.
  destruct not_found_drops_later_candidates as [Hmiss _].
  apply Hmiss. reflexivity.
Defined.

(** ** Whole-token snapping *)

Lemma advance_start_aligned a : ∀ rest prev i,
  StronglySorted Z.le (prev :: rest) -> prev <= a -> a ∈ prev :: rest ->
  0 <= i ->
  let k := advance_start rest a (i + 1) in
  i + 1 <= k ∧ (prev :: rest) !! Z.to_nat (k - i - 1) = Some a.
Proof.
  induction rest as [|s rest IH]; intros prev i Hsorted Hprev Hin Hi; simpl.
  - apply list_elem_of_singleton in Hin as ->.
    split; [lia|]. by replace (i + 1 - i - 1) with 0 by lia.
  - apply StronglySorted_inv in Hsorted as [Hsorted Hall].
    apply Forall_cons in Hall as [Hs Hall].
    destruct (Z.geb_spec a s) as [Hge|Hlt].
    + destruct (IH s (i + 1)) as [Hk Hlook]; [done|lia| |lia|].
      { apply elem_of_cons in Hin as [->|Hin]; [|done].
        assert (s = prev) as -> by lia. left. }
      split; [lia|].
      replace (Z.to_nat (advance_start rest a (i + 1 + 1) - i - 1))
        with (S (Z.to_nat (advance_start rest a (i + 1 + 1) - (i + 1) - 1)))
        by lia.
      done.
    + split; [lia|]. replace (i + 1 - i - 1) with 0 by lia. simpl.
      apply elem_of_cons in Hin as [->|Hin]; [done|].
      apply StronglySorted_inv in Hsorted as [_ Hrest].
      apply elem_of_cons in Hin as [->|Hin]; [lia|].
      rewrite Forall_forall in Hrest. specialize (Hrest a Hin). lia.
Qed.

Lemma advance_end_cons x y ends e i :
  advance_end (x :: y :: ends) e i
  = if e >? x then advance_end (y :: ends) e (i + 1) else i.
Proof. done. Qed.

Lemma advance_end_aligned e : ∀ ends i,
  StronglySorted Z.le ends -> e ∈ ends -> 0 <= i ->
  let k := advance_end ends e i in
  i <= k ∧ ends !! Z.to_nat (k - i) = Some e.
Proof.
  induction ends as [|x ends IH]; intros i Hsorted Hin Hi.
  { by apply elem_of_nil in Hin. }
  apply StronglySorted_inv in Hsorted as [Hsorted Hall].
  destruct ends as [|y ends].
  - apply list_elem_of_singleton in Hin as ->. simpl.
    split; [lia|]. by replace (i - i) with 0 by lia.
  - rewrite advance_end_cons. destruct (Z.gtb_spec e x) as [Hgt|Hle].
    + destruct (IH (i + 1)) as [Hk Hlook]; [done| |lia|].
      { apply elem_of_cons in Hin as [->|Hin]; [lia|done]. }
      split; [lia|].
      replace (Z.to_nat (advance_end (y :: ends) e (i + 1) - i))
        with (S (Z.to_nat (advance_end (y :: ends) e (i + 1) - (i + 1))))
        by lia.
      done.
    + split; [lia|]. replace (i - i) with 0 by lia. simpl.
      apply elem_of_cons in Hin as [->|Hin]; [done|].
      rewrite Forall_forall in Hall. specialize (Hall e Hin). f_equal. lia.
Qed.

Lemma py_getitem_lookup {A} (l : list A) (i : Z) x :
  0 <= i -> l !! Z.to_nat i = Some x -> py_getitem l i = Returns x.
Proof.
  intros Hi Hx. unfold py_getitem.
  do 2 (destruct (Z.ltb_spec i 0); [lia|]). by rewrite Hx.
Qed.

(** X15: with the cursors reset (as they are for a tuple of labels) and
    token starts and token ends in ascending order, snapping raises nothing
    and leaves the boundaries of a token-aligned annotation as they are. *)
Lemma snap_fresh_aligned none_value spacy_token_starts spacy_token_ends label
    start_idx end_idx annotation_start annotation_end :
  StronglySorted Z.le spacy_token_starts ->
  StronglySorted Z.le spacy_token_ends ->
  annotation_start ∈ spacy_token_starts ->
  annotation_end ∈ spacy_token_ends ->
  ∃ start_idx' end_idx',
    snap none_value false spacy_token_starts spacy_token_ends true label
      start_idx end_idx annotation_start annotation_end
    = Returns (start_idx', end_idx', annotation_start, annotation_end).
Proof.
  intros Hstarts Hends Hstart Hend. unfold snap.
  case_bool_decide; [|by eauto].
  change (Z.to_nat 0) with 0%nat. rewrite !drop_0.
  destruct spacy_token_starts as [|s0 starts];
    [by apply elem_of_nil in Hstart|].
  assert (s0 <= annotation_start) as Hs0.
  { apply StronglySorted_inv in Hstarts as [_ Hall].
    apply elem_of_cons in Hstart as [->|Hin]; [lia|].
    rewrite Forall_forall in Hall. by apply Hall. }
  cbn [advance_start]. rewrite (proj2 (Z.geb_le _ _) Hs0).
  destruct (advance_start_aligned annotation_start starts s0 0)
    as [Hk Hlook]; [done..|lia|].
  destruct (advance_end_aligned annotation_end spacy_token_ends 0)
    as [Hk' Hlook']; [done..|lia|].
  rewrite Z.sub_0_r in Hlook, Hlook'.
  eexists _, _.
  erewrite py_getitem_lookup; [|lia|done]. simpl.
  erewrite py_getitem_lookup; [|lia|done]. done.
Qed.

Lemma snap_fresh_aligned_witness :
  ∃ start_idx' end_idx',
    snap PyNone false [0; 3; 6] [2; 5; 8] true (PyStr "Y") 2 2 3 5
    = Returns (start_idx', end_idx', 3, 5).
Proof.
  apply snap_fresh_aligned.
  - repeat constructor; lia.
  - repeat constructor; lia.
  - right. left.
  - right. left.
Defined.

(** C9, with the input where the code departs from it.  With the cursors
    reset, snapping keeps a token-aligned annotation ([snap_fresh_aligned]).
    With single labels the cursors persist: in "ab cd ab" with the words
    [0,2), [3,5), [6,8), after the substring "ab cd" the substring "ab" is
    located at [0,2), on token boundaries, and snapping moves its end to 5,
    the end of the token the end cursor was left on. *)
Theorem snapping_moves_aligned_end :
  let NLP := fun _ : pystr =>
    [Token 0 (str "ab"); Token 3 (str "cd"); Token 6 (str "ab")] in
  let spacy_token_starts := [0; 3; 6] in
  let spacy_token_ends := [2; 5; 8] in
  snap PyNone false spacy_token_starts spacy_token_ends false (PyStr "Y")
    1 1 0 2
  = Returns (1, 1, 0, 5)
  ∧ map triple_of_indico <$>
      finetune_to_indico_document NLP PyNone false (str "ab cd ab")
        [str "ab cd"; str " ab"] [Single (PyStr "X"); Single (PyStr "Y")]
        None None
    = Returns [(0, 5, PyStr "X"); (0, 5, PyStr "Y")]
  ∧ map triple_of_indico <$>
      finetune_to_indico_document NLP PyNone true (str "ab cd ab")
        [str "ab cd"; str " ab"] [Single (PyStr "X"); Single (PyStr "Y")]
        None None
    = Returns [(0, 5, PyStr "X"); (0, 2, PyStr "Y")].
Proof. repeat split; by vm_compute. Qed.

(** ** The association linker *)

Section Linker.
Context (none_value : pylabel) (idx_lookup : gmap Z Z).

Lemma selected_cons k c cs :
  selected none_value idx_lookup k (c :: cs)
  = match kept_for none_value idx_lookup k c with
    | Some a => a :: selected none_value idx_lookup k cs
    | None => selected none_value idx_lookup k cs
    end.
Proof. done. Qed.

Lemma add_candidate_skip candidates c :
  resolve none_value idx_lookup c = None ->
  add_candidate none_value idx_lookup candidates c = Returns candidates.
Proof.
  unfold resolve, add_candidate. case_bool_decide; [done|].
  by destruct (idx_lookup !! candidate_idx c).
Qed.

Lemma add_candidate_keep candidates c a k :
  resolve none_value idx_lookup c = Some a ->
  idx_lookup !! bpe_idx c = Some k ->
  add_candidate none_value idx_lookup candidates c
  = Returns (<[k := default [] (candidates !! k) ++ [a]]> candidates).
Proof.
  unfold resolve, add_candidate. case_bool_decide; [done|].
  destruct (idx_lookup !! candidate_idx c); [|done].
  intros [= <-] ->. done.
Qed.

Lemma add_candidate_KeyError candidates c :
  is_Some (resolve none_value idx_lookup c) ->
  idx_lookup !! bpe_idx c = None ->
  add_candidate none_value idx_lookup candidates c = Raises KeyError.
Proof.
  unfold resolve, add_candidate. case_bool_decide; [by intros []|].
  destruct (idx_lookup !! candidate_idx c); [|by intros []].
  by intros _ ->.
Qed.

Lemma add_candidates_spec cs : ∀ candidates,
  sources_known none_value idx_lookup cs ->
  ∃ candidates',
    add_candidates none_value idx_lookup candidates cs = Returns candidates'
    ∧ ∀ k, candidates' !! k
           = match selected none_value idx_lookup k cs with
             | [] => candidates !! k
             | v => Some (default [] (candidates !! k) ++ v)
             end.
Proof.
  induction cs as [|c cs IH]; intros candidates Hknown; [by eexists|].
  apply Forall_cons in Hknown as [Hc Hknown]. simpl.
  destruct (resolve none_value idx_lookup c) as [a|] eqn:Hres.
  - destruct Hc as [k0 Hk0]; [done|].
    rewrite (add_candidate_keep _ _ a k0) by done. simpl.
    destruct (IH (<[k0 := default [] (candidates !! k0) ++ [a]]> candidates))
      as (candidates' & -> & Hspec); [done|].
    eexists. split; [done|]. intros k. rewrite Hspec, selected_cons.
    unfold kept_for. rewrite Hk0.
    destruct (decide (k0 = k)) as [->|Hne].
    + rewrite Hres, lookup_insert_eq. simpl.
      destruct (selected none_value idx_lookup k cs); [done|].
      by rewrite <-(assoc_L (++)).
    + by rewrite lookup_insert_ne.
  - rewrite add_candidate_skip by done. simpl.
    destruct (IH candidates) as (candidates' & -> & Hspec); [done|].
    eexists. split; [done|]. intros k. rewrite Hspec, selected_cons.
    unfold kept_for. rewrite Hres.
    destruct (idx_lookup !! bpe_idx c) as [k'|]; [|done].
    by destruct (decide (k' = k)).
Qed.

Lemma add_candidates_KeyError cs : ∀ candidates,
  ¬ sources_known none_value idx_lookup cs ->
  add_candidates none_value idx_lookup candidates cs = Raises KeyError.
Proof.
  induction cs as [|c cs IH]; intros candidates Hknown.
  { destruct Hknown. constructor. }
  simpl.
  destruct (resolve none_value idx_lookup c) as [a|] eqn:Hres.
  - destruct (idx_lookup !! bpe_idx c) as [k0|] eqn:Hk0.
    + rewrite (add_candidate_keep _ _ a k0) by done. simpl.
      apply IH. intros Hcs. apply Hknown. constructor; [by eauto|done].
    + rewrite add_candidate_KeyError; [done|by rewrite Hres|done].
  - rewrite add_candidate_skip by done. simpl.
    apply IH. intros Hcs. apply Hknown. constructor; [|done].
    rewrite Hres. by intros [].
Qed.

(** Every list stored in [candidates] has an element. *)
Lemma add_candidates_nonempty cs candidates' k :
  add_candidates none_value idx_lookup ∅ cs = Returns candidates' ->
  candidates' !! k ≠ Some [].
Proof.
  intros Hrun.
  destruct (decide (sources_known none_value idx_lookup cs)) as [Hknown|Hknown].
  - destruct (add_candidates_spec cs ∅ Hknown) as (c' & Hrun' & Hspec).
    rewrite Hrun in Hrun'. injection Hrun' as <-.
    rewrite Hspec, lookup_empty. by case_match.
  - by rewrite add_candidates_KeyError in Hrun.
Qed.

Lemma doc_candidates_spec doc_association :
  sources_known none_value idx_lookup (concat doc_association) ->
  ∃ candidates,
    doc_candidates none_value idx_lookup doc_association = Returns candidates
    ∧ ∀ k, candidates !! k
           = max_by_prob
               (selected none_value idx_lookup k (concat doc_association)).
Proof.
  intros Hknown. unfold doc_candidates.
  destruct (add_candidates_spec (concat doc_association) ∅ Hknown)
    as (candidates' & -> & Hspec).
  eexists. split; [done|]. intros k.
  rewrite lookup_omap, Hspec, lookup_empty. by case_match.
Qed.

Lemma doc_candidates_KeyError doc_association :
  ¬ sources_known none_value idx_lookup (concat doc_association) ->
  doc_candidates none_value idx_lookup doc_association = Raises KeyError.
Proof.
  intros Hknown. unfold doc_candidates.
  by rewrite add_candidates_KeyError.
Qed.

Lemma selected_app k cs1 cs2 :
  selected none_value idx_lookup k (cs1 ++ cs2)
  = selected none_value idx_lookup k cs1 ++ selected none_value idx_lookup k cs2.
Proof. apply omap_app. Qed.

Lemma selected_own k cs :
  (∀ c, c ∈ cs -> idx_lookup !! bpe_idx c = Some k) ->
  selected none_value idx_lookup k cs = omap (resolve none_value idx_lookup) cs.
Proof.
  intros Hown. unfold selected. apply list_omap_ext.
  induction cs as [|c cs IH]; constructor.
  - unfold kept_for. rewrite (Hown c) by left. by rewrite decide_True.
  - apply IH. intros c' Hc'. apply Hown. by right.
Qed.

Lemma selected_other k cs :
  (∀ c, c ∈ cs -> idx_lookup !! bpe_idx c ≠ Some k) ->
  selected none_value idx_lookup k cs = [].
Proof.
  intros Hother.
  induction cs as [|c cs IH]; [done|]. rewrite selected_cons.
  rewrite IH by (intros c' Hc'; apply Hother; by right).
  specialize (Hother c ltac:(left)). unfold kept_for.
  destruct (idx_lookup !! bpe_idx c) as [k'|]; [|done].
  by rewrite decide_False by congruence.
Qed.

End Linker.

(** *** The lookup table of the first loop *)

Lemma foldl_insert_lookup (k : Z) (cs : list candidate) : ∀ (m : gmap Z Z) b,
  foldl (fun m c => <[bpe_idx c := k]> m) m cs !! b
  = if decide (b ∈ bpe_idx <$> cs) then Some k else m !! b.
Proof.
  induction cs as [|c cs IH]; intros m b.
  { rewrite decide_False; [done|]. apply not_elem_of_nil. }
  cbn [foldl]. rewrite IH, fmap_cons. destruct (decide (b ∈ bpe_idx <$> cs)) as [Hin|Hnin].
  - rewrite decide_True; [done|]. by right.
  - destruct (decide (bpe_idx c = b)) as [<-|Hne].
    + rewrite lookup_insert_eq, decide_True; [done|]. left.
    + rewrite lookup_insert_ne by done. rewrite decide_False; [done|].
      intros [?|?]%elem_of_cons; congruence.
Qed.

Lemma count_active_cons none_value l ls :
  count_active none_value (l :: ls)
  = (if raw_label_is l none_value then 0 else 1) + count_active none_value ls.
Proof.
  unfold count_active. rewrite filter_cons.
  destruct (raw_label_is l none_value); simpl; [done|lia].
Qed.

Lemma count_active_nonneg none_value ls : 0 <= count_active none_value ls.
Proof. unfold count_active. lia. Qed.

Section Lookup.
Context (none_value : pylabel).

Lemma build_idx_lookup_preserve pairs : ∀ a m b,
  b ∉ pair_tokens pairs ->
  build_idx_lookup none_value pairs a m !! b = m !! b.
Proof.
  induction pairs as [|[l cs] pairs IH]; intros a m b Hb; simpl; [done|].
  unfold pair_tokens in Hb. simpl in Hb.
  rewrite fmap_app, elem_of_app in Hb.
  destruct (raw_label_is l none_value).
  - apply IH. unfold pair_tokens. tauto.
  - rewrite IH by (unfold pair_tokens; tauto).
    rewrite foldl_insert_lookup, decide_False; [done|tauto].
Qed.

Lemma build_idx_lookup_new pairs : ∀ a m b v,
  build_idx_lookup none_value pairs a m !! b = Some v ->
  m !! b = Some v ∨ a < v.
Proof.
  induction pairs as [|[l cs] pairs IH]; intros a m b v; simpl; [by left|].
  destruct (raw_label_is l none_value); [apply IH|].
  intros [Hm|Hlt]%IH; [|right; lia].
  rewrite foldl_insert_lookup in Hm. case_decide; [|by left].
  right. injection Hm as <-. lia.
Qed.

Lemma build_idx_lookup_upper pairs : ∀ a (m : gmap Z Z),
  (∀ b v, m !! b = Some v -> v <= a) ->
  ∀ b v, build_idx_lookup none_value pairs a m !! b = Some v ->
         v <= a + count_active none_value pairs.*1.
Proof.
  induction pairs as [|[l cs] pairs IH]; intros a m Hm b v.
  { intros Hb%Hm. unfold count_active. simpl. lia. }
  rewrite fmap_cons, count_active_cons. cbn [build_idx_lookup fst].
  destruct (raw_label_is l none_value).
  - intros Hb. eapply IH in Hb; [lia|done].
  - intros Hb. eapply IH in Hb; [lia|].
    intros b' v'. rewrite foldl_insert_lookup. case_decide.
    + intros [= <-]. lia.
    + intros Hb'%Hm. lia.
Qed.

Lemma build_idx_lookup_app pairs1 pairs2 : ∀ a m,
  build_idx_lookup none_value (pairs1 ++ pairs2) a m
  = build_idx_lookup none_value pairs2
      (a + count_active none_value pairs1.*1)
      (build_idx_lookup none_value pairs1 a m).
Proof.
  induction pairs1 as [|[l cs] pairs1 IH]; intros a m.
  { unfold count_active. simpl. by rewrite Z.add_0_r. }
  rewrite fmap_cons, count_active_cons. cbn [build_idx_lookup fst app].
  destruct (raw_label_is l none_value); rewrite IH; f_equal; lia.
Qed.

(** The tokens of an active occurrence map to its index, and nothing else
    does, when no later substring has a tuple on one of its tokens. *)
Lemma build_idx_lookup_occurrence pre l cs post :
  raw_label_is l none_value = false ->
  let idx_lookup :=
    build_idx_lookup none_value (pre ++ (l, cs) :: post) (-1) ∅ in
  let k := count_active none_value pre.*1 in
  (∀ b, b ∈ bpe_idx <$> cs -> b ∉ pair_tokens post ->
        idx_lookup !! b = Some k)
  ∧ (∀ b, idx_lookup !! b = Some k -> b ∈ bpe_idx <$> cs).
Proof.
  intros Hactive idx_lookup k. subst idx_lookup.
  rewrite build_idx_lookup_app. simpl. rewrite Hactive.
  replace (-1 + count_active none_value pre.*1 + 1) with k by (subst k; lia).
  split.
  - intros b Hb Hpost. rewrite build_idx_lookup_preserve by done.
    by rewrite foldl_insert_lookup, decide_True.
  - intros b [Hb|Hlt]%build_idx_lookup_new; [|lia].
    rewrite foldl_insert_lookup in Hb. case_decide; [done|].
    eapply build_idx_lookup_upper in Hb; [subst k; lia|].
    intros b' v'. by rewrite lookup_empty.
Qed.

End Lookup.

(** *** max by probability *)

Lemma max_by_prob_from_spec v : ∀ best,
  let r := max_by_prob_from best v in
  (r = best ∧ Forall (fun y => (snd y <= snd best)%Q) v)
  ∨ (∃ v1 v2, v = v1 ++ r :: v2
       ∧ (snd best < snd r)%Q
       ∧ Forall (fun y => (snd y < snd r)%Q) v1
       ∧ Forall (fun y => (snd y <= snd r)%Q) v2).
Proof.
  induction v as [|x v IH]; intros best; simpl; [by left|].
  destruct (Qlt_le_dec (snd best) (snd x)) as [Hlt|Hle].
  - right. destruct (IH x) as [[Hr Hall]|(v1 & v2 & Hv & Hx & H1 & H2)].
    + exists [], v. rewrite Hr. by repeat split.
    + exists (x :: v1), v2. rewrite Hv at 1. repeat split; try done.
      * by eapply Qlt_trans.
      * by constructor.
  - destruct (IH best) as [[Hr Hall]|(v1 & v2 & Hv & Hx & H1 & H2)].
    + left. split; [done|by constructor].
    + right. exists (x :: v1), v2. rewrite Hv at 1. repeat split; try done.
      constructor; [|done]. by eapply Qle_lt_trans.
Qed.

(** [max_by_prob] returns the first element of maximal probability. *)
Lemma max_by_prob_first_max v x :
  max_by_prob v = Some x ->
  ∃ v1 v2, v = v1 ++ x :: v2
    ∧ Forall (fun y => (snd y < snd x)%Q) v1
    ∧ Forall (fun y => (snd y <= snd x)%Q) v2.
Proof.
  destruct v as [|best v]; [done|]. simpl. intros [= <-].
  destruct (max_by_prob_from_spec v best)
    as [[Hr Hall]|(v1 & v2 & Hv & Hx & H1 & H2)].
  - exists [], v. rewrite Hr. by repeat split.
  - exists (best :: v1), v2. rewrite Hv at 1. repeat split; try done.
    by constructor.
Qed.

Lemma max_by_prob_None v : max_by_prob v = None <-> v = [].
Proof. by destruct v. Qed.

Lemma elem_of_concat {A} (x : A) (ls : list (list A)) :
  x ∈ concat ls <-> ∃ l, l ∈ ls ∧ x ∈ l.
Proof.
  induction ls as [|l ls IH]; simpl.
  - split; [by intros ?%elem_of_nil|]. by intros (l & ?%elem_of_nil & _).
  - rewrite elem_of_app, IH. split.
    + intros [Hx|(l' & Hl' & Hx)]; [exists l; split; [left|done]|].
      exists l'. split; [by right|done].
    + intros (l' & [->|Hl']%elem_of_cons & Hx); [by left|].
      right. by exists l'.
Qed.

Lemma elem_of_concat_zip_snd {A B} (x : B) (l : list A) (k : list (list B)) :
  x ∈ concat (zip l k).*2 -> x ∈ concat k.
Proof.
  rewrite !elem_of_concat. intros (cs & Hcs & Hx). exists cs. split; [|done].
  apply list_elem_of_fmap in Hcs as ([a cs'] & -> & Hpair).
  by eapply elem_of_zip_r.
Qed.

(** The documents are linked one by one: the entry of a document in the
    result is what the second loop returns for it. *)
Lemma assign_associations_lookup none_value : ∀ labels associations all_candidates,
  assign_associations labels associations none_value = Returns all_candidates ->
  ∀ (i : nat) doc_label doc_association,
    labels !! i = Some doc_label -> associations !! i = Some doc_association ->
    ∃ candidates,
      all_candidates !! i = Some candidates
      ∧ doc_candidates none_value
          (build_idx_lookup none_value (zip doc_label doc_association) (-1) ∅)
          doc_association
        = Returns candidates.
Proof.
  induction labels as [|dl labels IH]; intros associations all_candidates Hrun i
    doc_label doc_association Hl Ha; [done|].
  destruct associations as [|da associations]; [done|].
  cbn [assign_associations] in Hrun.
  destruct (doc_candidates none_value _ da) as [c| |] eqn:Hdoc; [|done..].
  simpl in Hrun.
  destruct (assign_associations labels associations none_value)
    as [rest| |] eqn:Hrest; [|done..].
  injection Hrun as <-.
  destruct i as [|i]; simpl in *.
  - injection Hl as <-. injection Ha as <-. by exists c.
  - by eapply IH.
Qed.

(** The valid tuples filed under an active occurrence are those of the list
    of its own substring, when no tuple of another substring has one of its
    source tokens. *)
Lemma selected_occurrence none_value lpre l lpost apre cs apost :
  let doc_label := lpre ++ l :: lpost in
  let doc_association := apre ++ cs :: apost in
  let idx_lookup := doc_idx_lookup none_value doc_label doc_association in
  length lpre = length apre ->
  raw_label_is l none_value = false ->
  (∀ c c', c ∈ cs -> c' ∈ concat (apre ++ apost) ->
           bpe_idx c ≠ bpe_idx c') ->
  selected none_value idx_lookup (count_active none_value lpre)
    (concat doc_association)
  = omap (resolve none_value idx_lookup) cs.
Proof.
  intros doc_label doc_association idx_lookup Hlen Hactive Hown.
  unfold doc_idx_lookup in idx_lookup.
  assert (Hzip : zip doc_label doc_association
                 = zip lpre apre ++ (l, cs) :: zip lpost apost).
  { subst doc_label doc_association. by rewrite zip_with_app. }
  destruct (build_idx_lookup_occurrence none_value (zip lpre apre) l cs
              (zip lpost apost) Hactive) as [Hmine Honly].
  rewrite <-Hzip, fst_zip in Hmine, Honly by lia.
  fold idx_lookup in Hmine, Honly.
  assert (Hother : ∀ c', c' ∈ concat (apre ++ apost) ->
            idx_lookup !! bpe_idx c' ≠ Some (count_active none_value lpre)).
  { intros c' Hc' Hk. apply Honly in Hk.
    apply list_elem_of_fmap in Hk as (c & Hbpe & Hc).
    by apply (Hown c c'). }
  subst doc_association. rewrite concat_app, concat_cons, !selected_app.
  rewrite concat_app in Hother.
  rewrite (selected_other _ _ _ (concat apre)),
          (selected_other _ _ _ (concat apost)), (selected_own _ _ _ cs).
  - by rewrite app_nil_r.
  - intros c Hc. apply Hmine; [by apply list_elem_of_fmap_2|].
    unfold pair_tokens. intros (c' & Hbpe & Hc')%list_elem_of_fmap.
    apply elem_of_concat_zip_snd in Hc'.
    apply (Hown c c'); [done| |done].
    rewrite concat_app. apply elem_of_app. by right.
  - intros c' Hc'. apply Hother, elem_of_app. by right.
  - intros c' Hc'. apply Hother, elem_of_app. by left.
Qed.

(** The call returns when in every document the source token of each
    valid tuple belongs to an active occurrence. *)
Lemma assign_associations_returns none_value : ∀ labels associations,
  Forall (doc_sources_known none_value) (zip labels associations) ->
  ∃ all_candidates,
    assign_associations labels associations none_value
    = Returns all_candidates.
Proof.
  induction labels as [|dl labels IH]; intros associations Hknown;
    [by eexists|].
  destruct associations as [|da associations]; [by eexists|].
  apply Forall_cons in Hknown as [Hdoc Hknown].
  unfold doc_sources_known, doc_idx_lookup in Hdoc. simpl in Hdoc.
  cbn [assign_associations].
  destruct (doc_candidates_spec _ _ _ Hdoc) as (c & -> & _). simpl.
  destruct (IH associations Hknown) as [rest ->]. by eexists.
Qed.

(** C7, with the input where the code departs from it.  In a document with
    the substrings X, none, Y over the tokens 0, 1, 2, each with one tuple,
    occurrence X has one valid candidate, [(0, 2, R, 0.9)]; the tuple
    [(1, 2, R, 0.5)] of the none-labelled substring is valid too (its label
    is not the none-value and its target token 2 belongs to occurrence Y),
    its source token 1 belongs to no active occurrence, and the call raises
    [KeyError] at [idx_lookup[bpe_idx]] instead of selecting the candidate
    of X.

    Where in every document the source token of each valid tuple belongs
    to an active occurrence, the claim holds, for calls on any number of
    documents: the call returns, and the table of a document has under the
    index of an occurrence the first candidate of maximal probability among
    the valid tuples whose source token belongs to that occurrence (those
    whose label is not the none-value and whose target token belongs to an
    active occurrence), and no entry when there is none.  These are the
    valid tuples of the list of the occurrence's own substring when no
    other substring has a tuple on one of its source tokens.  Of three
    candidates with probabilities 0.2, 0.9 and 0.5 the one with 0.9 is
    selected, and of two with 0.9 the first. *)
Theorem assign_associations_selects_max :
  (let doc_label := [Single (PyStr "X"); Single PyNone; Single (PyStr "Y")] in
   let doc_association :=
     [[Candidate 0 2 (PyStr "R") (9#10)];
      [Candidate 1 2 (PyStr "R") (5#10)];
      [Candidate 2 0 PyNone (1#10)]] in
   let idx_lookup := doc_idx_lookup PyNone doc_label doc_association in
   omap (resolve PyNone idx_lookup) [Candidate 0 2 (PyStr "R") (9#10)]
   = [(1, PyStr "R", 9#10)]
   ∧ resolve PyNone idx_lookup (Candidate 1 2 (PyStr "R") (5#10))
     = Some (1, PyStr "R", 5#10)
   ∧ idx_lookup !! 1 = None
   ∧ assign_associations [doc_label] [doc_association] PyNone
     = Raises KeyError)
  ∧ (∀ none_value labels associations,
       Forall (doc_sources_known none_value) (zip labels associations) ->
       ∃ all_candidates,
         assign_associations labels associations none_value
         = Returns all_candidates
         ∧ ∀ (i : nat) doc_label doc_association,
             labels !! i = Some doc_label ->
             associations !! i = Some doc_association ->
             ∃ candidates,
               all_candidates !! i = Some candidates
               ∧ ∀ k,
                   let valid :=
                     selected none_value
                       (doc_idx_lookup none_value doc_label doc_association)
                       k (concat doc_association) in
                   (valid = [] -> candidates !! k = None)
                   ∧ (valid ≠ [] ->
                      ∃ v1 x v2,
                        candidates !! k = Some x
                        ∧ valid = v1 ++ x :: v2
                        ∧ Forall (fun y => (snd y < snd x)%Q) v1
                        ∧ Forall (fun y => (snd y <= snd x)%Q) v2))
  ∧ (∀ none_value lpre l lpost apre cs apost,
       let doc_label := lpre ++ l :: lpost in
       let doc_association := apre ++ cs :: apost in
       let idx_lookup := doc_idx_lookup none_value doc_label doc_association in
       length lpre = length apre ->
       raw_label_is l none_value = false ->
       (∀ c c', c ∈ cs -> c' ∈ concat (apre ++ apost) ->
                bpe_idx c ≠ bpe_idx c') ->
       selected none_value idx_lookup (count_active none_value lpre)
         (concat doc_association)
       = omap (resolve none_value idx_lookup) cs)
  ∧ (let X := Single (PyStr "X") in
     let Y := Single (PyStr "Y") in
     assign_associations [[X; Single PyNone; Y]]
       [[[Candidate 0 2 (PyStr "R") (2#10);
          Candidate 0 2 (PyStr "S") (9#10);
          Candidate 0 2 (PyStr "T") (5#10)];
         [];
         [Candidate 2 7 (PyStr "R") (5#10)]]] PyNone
     = Returns [{[ 0 := (1, PyStr "S", 9#10) ]}]
     ∧ assign_associations [[X; Y]]
         [[[Candidate 0 1 (PyStr "A") (9#10);
            Candidate 0 1 (PyStr "B") (9#10)];
           [Candidate 1 0 PyNone (1#10)]]] PyNone
       = Returns [{[ 0 := (1, PyStr "A", 9#10) ]}]).
Proof.
  split; [|split; [|split]].
  - intros doc_label doc_association idx_lookup.
    split; [by vm_compute|]. split; [by vm_compute|].
    split; by vm_compute.
  - intros none_value labels associations Hknown.
    destruct (assign_associations_returns none_value labels associations
                Hknown) as [all_candidates Hrun].
    exists all_candidates. split; [done|].
    intros i doc_label doc_association Hl Ha.
    destruct (assign_associations_lookup _ _ _ _ Hrun i _ _ Hl Ha)
      as (candidates & Hi & Hdoc).
    exists candidates. split; [done|].
    assert (doc_sources_known none_value (doc_label, doc_association))
      as Hdoc_known.
    { rewrite Forall_lookup in Hknown. apply (Hknown i).
      apply lookup_zip_with_Some. by exists doc_label, doc_association. }
    unfold doc_sources_known, doc_idx_lookup in Hdoc_known.
    simpl in Hdoc_known.
    destruct (doc_candidates_spec _ _ _ Hdoc_known)
      as (candidates' & Hdoc' & Hspec).
    rewrite Hdoc in Hdoc'. injection Hdoc' as <-.
    intros k valid. subst valid. unfold doc_idx_lookup.
    rewrite Hspec. split.
    + by intros ->.
    + intros Hvalid.
      match goal with |- context [max_by_prob ?v] =>
        destruct (max_by_prob v) as [x|] eqn:Hmax end.
      * apply max_by_prob_first_max in Hmax as (v1 & v2 & Hv & H1 & H2).
        by exists v1, x, v2.
      * by apply max_by_prob_None in Hmax.
  - intros none_value lpre l lpost apre cs apost. apply selected_occurrence.
  - split; by vm_compute.
Qed.

Lemma assign_associations_selects_max_witness :
  let labels :=
    [[Single (PyStr "X"); Single PyNone; Single (PyStr "Y")];
     [Single (PyStr "Z"); Single (PyStr "W")]] in
  let associations :=
    [[[Candidate 0 2 (PyStr "R") (2#10);
       Candidate 0 2 (PyStr "S") (9#10);
       Candidate 0 2 (PyStr "T") (5#10)];
      [];
      [Candidate 2 7 (PyStr "R") (5#10)]];
     [[Candidate 0 1 (PyStr "A") (9#10);
       Candidate 0 1 (PyStr "B") (9#10)];
      [Candidate 1 0 PyNone (1#10)]]] in
  Forall (doc_sources_known PyNone) (zip labels associations)
  ∧ ∃ all_candidates,
      assign_associations labels associations PyNone = Returns all_candidates
      ∧ ∀ (i : nat) doc_label doc_association,
          labels !! i = Some doc_label ->
          associations !! i = Some doc_association ->
          ∃ candidates,
            all_candidates !! i = Some candidates
            ∧ ∀ k,
                let valid :=
                  selected PyNone
                    (doc_idx_lookup PyNone doc_label doc_association)
                    k (concat doc_association) in
                (valid = [] -> candidates !! k = None)
                ∧ (valid ≠ [] ->
                   ∃ v1 x v2,
                     candidates !! k = Some x
                     ∧ valid = v1 ++ x :: v2
                     ∧ Forall (fun y => (snd y < snd x)%Q) v1
                     ∧ Forall (fun y => (snd y <= snd x)%Q) v2).
Proof.
  intros labels associations.
  assert (Forall (doc_sources_known PyNone) (zip labels associations))
    as Hknown.
  { unfold labels, associations. cbn [zip zip_with].
    repeat apply Forall_cons_2; try apply Forall_nil_2;
      unfold doc_sources_known, sources_known; simpl;
      repeat apply Forall_cons_2; try apply Forall_nil_2;
      intros _; vm_compute; eexists; reflexivity. }
  split; [exact Hknown|].
  destruct assign_associations_selects_max as (_ & Hsel & _).
  exact (Hsel PyNone labels associations Hknown).
Defined.
(** * Further properties *)

(** ** overlap, overlap_handler, sort_by_start *)

(** X1: [overlap] does not depend on the order of its arguments; on two
    spans that are not empty it holds exactly when they share a character;
    and an empty span lying inside or at the end of another span counts as
    overlapping it, although it shares no character with it. *)
Theorem overlap_is_intersection :
  (∀ L (c a : annot L), overlap c a = overlap a c)
  ∧ (∀ L (c a : annot L),
       proper c -> proper a ->
       (overlap c a = true <-> ∃ p, covers c p ∧ covers a p))
  ∧ (∀ L (c a : annot L),
       start a = end_ a -> start c < end_ a -> end_ a <= end_ c ->
       overlap c a = true ∧ ¬ ∃ p, covers c p ∧ covers a p).
Proof.
  split; [|split].
  - intros L c a. unfold overlap. apply orb_comm.
  - intros L c a Hc Ha. rewrite overlap_proper by done.
    unfold covers, proper in *. split.
    + intros Hlt. exists (Z.max (start c) (start a)). lia.
    + intros (p & ? & ?). lia.
  - intros L c a Hdeg Hlt Hle. split.
    + unfold overlap.
      by rewrite (proj2 (Z.ltb_lt _ _) Hlt), (proj2 (Z.leb_le _ _) Hle).
    + unfold covers. intros (p & ? & ?). lia.
Qed.

Lemma overlap_is_intersection_witness :
  let c : annot pylabel := Annotation 0 10 (PyStr "X") [] in
  let a : annot pylabel := Annotation 5 15 (PyStr "Y") [] in
  let e : annot pylabel := Annotation 10 10 (PyStr "Z") [] in
  (overlap c a = true <-> ∃ p, covers c p ∧ covers a p)
  ∧ overlap c e = true ∧ ¬ ∃ p, covers c p ∧ covers e p.
Proof.
  intros c a e.
  destruct overlap_is_intersection as (_ & Hexact & Hempty).
  split.
  - apply Hexact; unfold proper; simpl; lia.
  - apply Hempty; simpl; lia.
Defined.

(** X2: the three pieces [overlap_handler] makes of two overlapping spans
    that are not empty follow one another from the smaller start to the
    larger end; the middle one is not empty and carries the labels of both
    spans; and when the two spans lie in the text, the texts of the pieces
    concatenate to the slice of the raw text from the smaller start to the
    larger end. *)
Theorem overlap_handler_pieces_contiguous (c a : annot labelset)
    (raw_text : pystr) :
  proper c -> proper a -> overlap c a = true ->
  ∃ p1 p2 p3,
    overlap_handler c a raw_text = [p1; p2; p3]
    ∧ start p1 = Z.min (start c) (start a)
    ∧ end_ p1 = start p2 ∧ end_ p2 = start p3
    ∧ end_ p3 = Z.max (end_ c) (end_ a)
    ∧ start p1 <= end_ p1 ∧ start p2 < end_ p2 ∧ start p3 <= end_ p3
    ∧ label p2 = label c ∪ label a
    ∧ (0 <= Z.min (start c) (start a) ->
       Z.max (end_ c) (end_ a) <= Z.of_nat (length raw_text) ->
       text p1 ++ text p2 ++ text p3
       = py_slice raw_text (Z.min (start c) (start a))
           (Z.max (end_ c) (end_ a))).
Proof.
  intros Hc Ha Hov. apply overlap_proper in Hov; [|done..].
  unfold proper in *. unfold overlap_handler.
  destruct (Z.leb_spec (start c) (start a)); do 3 eexists;
    (split; [reflexivity|]); simpl.
  - repeat (split; [lia || done|]).
    intros H0 Hlen. rewrite !py_slice_app by lia. f_equal; lia.
  - repeat (split; [lia || done || apply (comm_L (∪))|]).
    intros H0 Hlen. rewrite !py_slice_app by lia. f_equal; lia.
Qed.

Lemma overlap_handler_pieces_contiguous_witness :
  let c : annot labelset := Annotation 5 15 {[PyStr "Y"]} (str "56789abcde") in
  let a : annot labelset := Annotation 0 10 {[PyStr "X"]} (str "0123456789") in
  let raw_text := str "0123456789abcde" in
  ∃ p1 p2 p3,
    overlap_handler c a raw_text = [p1; p2; p3]
    ∧ start p1 = Z.min (start c) (start a)
    ∧ end_ p1 = start p2 ∧ end_ p2 = start p3
    ∧ end_ p3 = Z.max (end_ c) (end_ a)
    ∧ start p1 <= end_ p1 ∧ start p2 < end_ p2 ∧ start p3 <= end_ p3
    ∧ label p2 = label c ∪ label a
    ∧ (0 <= Z.min (start c) (start a) ->
       Z.max (end_ c) (end_ a) <= Z.of_nat (length raw_text) ->
       text p1 ++ text p2 ++ text p3
       = py_slice raw_text (Z.min (start c) (start a))
           (Z.max (end_ c) (end_ a))).
Proof.
  intros c a raw_text.
  apply overlap_handler_pieces_contiguous;
    [unfold proper; simpl; lia..|reflexivity].
Defined.

(** X3: [sort_by_start] returns the annotations it is given, each as many
    times, in ascending order of start; annotations with the same start
    stay in the order they came in. *)
Theorem sort_by_start_stable {L} (annotations : list (annot L)) :
  sort_by_start annotations ≡ₚ annotations
  ∧ StronglySorted (fun a b => start a <= start b) (sort_by_start annotations)
  ∧ ∀ k, filter (fun a => start a = k) (sort_by_start annotations)
         = filter (fun a => start a = k) annotations.
Proof.
  unfold sort_by_start. split; [apply sorted_by_Permutation|].
  split; [apply sorted_by_Sorted|].
  intros k. rewrite filter_sorted_by. apply sorted_by_Sorted_id.
  generalize (filter (fun a : annot L => start a = k) annotations)
    (λ a, proj1 (list_elem_of_filter (fun a : annot L => start a = k)
                   annotations a)).
  intros l Hl. induction l as [|a l IH]; constructor.
  - apply IH. intros b Hb. apply Hl. by right.
  - apply Forall_forall. intros b Hb. unfold key_le.
    destruct (Hl a) as [-> _]; [left|].
    destruct (Hl b) as [-> _]; [by right|]. done.
Qed.

(** ** The merge engine on spans with [end >= start] *)

Lemma NoDup_fmap_eq {A B} (f : A -> B) (l : list A) x y :
  NoDup (f <$> l) -> x ∈ l -> y ∈ l -> f x = f y -> x = y.
Proof.
  induction l as [|a l IH]; [by intros _ ?%elem_of_nil|].
  rewrite fmap_cons. intros [Ha Hl]%NoDup_cons Hx Hy Hf.
  apply elem_of_cons in Hx as [->|Hx]; apply elem_of_cons in Hy as [->|Hy].
  - done.
  - destruct Ha. rewrite Hf. by apply list_elem_of_fmap_2.
  - destruct Ha. rewrite <-Hf. by apply list_elem_of_fmap_2.
  - by apply IH.
Qed.

Lemma sorted_by_unique {A} (key : A -> Z) (l l' : list A) :
  l ≡ₚ l' -> NoDup (key <$> l) -> sorted_by key l = sorted_by key l'.
Proof.
  intros Hp Hnd.
  apply (StronglySorted_unique_strong (key_le key));
    [|apply sorted_by_Sorted..|by rewrite !sorted_by_Permutation].
  intros x1 x2 Hx1%sorted_by_elem_of Hx2%sorted_by_elem_of Hle1 Hle2.
  apply (NoDup_fmap_eq key l); [done|done|by rewrite Hp|].
  unfold key_le in *. lia.
Qed.

(** X4: the order in which the annotations of a document are given does
    not matter when no two of them start at the same offset: the document
    converts to the same result, or raises the same exception. *)
Theorem annotation_order_irrelevant fuel multi_label none_value raw_text
    (label_seq label_seq' : list (annot pylabel)) :
  label_seq ≡ₚ label_seq' -> NoDup (start <$> label_seq) ->
  indico_to_finetune_document fuel multi_label none_value raw_text label_seq
  = indico_to_finetune_document fuel multi_label none_value raw_text label_seq'.
Proof.
  intros Hp Hnd.
  unfold indico_to_finetune_document, all_annotations_of,
    merged_annotations_of, initial_queue, sort_by_start.
  by rewrite (sorted_by_unique start label_seq label_seq').
Qed.

Lemma annotation_order_irrelevant_witness :
  let A := Annotation 0 10 (PyStr "X") (str "0123456789") in
  let B := Annotation 5 15 (PyStr "Y") (str "56789abcde") in
  indico_to_finetune_document 100 true PyNone (str "0123456789abcde") [A; B]
  = indico_to_finetune_document 100 true PyNone (str "0123456789abcde") [B; A].
Proof.
  intros A B. apply annotation_order_irrelevant.
  - apply Permutation_swap.
  - apply (bool_decide_unpack _). reflexivity.
Defined.

Lemma labelled_at_nil {L} `{ElemOf pylabel L} p x :
  labelled_at p x (@nil (annot L)) <-> False.
Proof. split; [|done]. by intros (s & ?%elem_of_nil & _). Qed.

Lemma labelled_at_cons {L} `{ElemOf pylabel L} p x (s : annot L) l :
  labelled_at p x (s :: l) <-> (covers s p ∧ x ∈ label s) ∨ labelled_at p x l.
Proof.
  unfold labelled_at. split.
  - intros (s' & [->|Hs']%elem_of_cons & Hcov & Hx); [by left|].
    right. by exists s'.
  - intros [[Hcov Hx]|(s' & Hs' & Hcov & Hx)].
    + exists s. split; [left|done].
    + exists s'. split; [by right|done].
Qed.

Lemma labelled_at_app {L} `{ElemOf pylabel L} p x (l1 l2 : list (annot L)) :
  labelled_at p x (l1 ++ l2) <-> labelled_at p x l1 ∨ labelled_at p x l2.
Proof.
  induction l1 as [|s l1 IH]; simpl.
  - rewrite labelled_at_nil. tauto.
  - rewrite !labelled_at_cons, IH. tauto.
Qed.

Lemma labelled_at_Permutation {L} `{ElemOf pylabel L} p x (l l' : list (annot L)) :
  l ≡ₚ l' -> labelled_at p x l <-> labelled_at p x l'.
Proof.
  intros Hp. unfold labelled_at.
  split; intros (s & Hs & ?); exists s; (split; [|done]).
  - by rewrite <-Hp.
  - by rewrite Hp.
Qed.

(** Proof search on goals that mix offsets and label membership. *)
Ltac offsets :=
  solve [ lia | done | split; offsets | left; offsets | right; offsets ].

(** The pieces of a split carry, character by character, the labels of the
    two spans that were split. *)
Lemma overlap_handler_labelled_at (c a : annot labelset) raw_text p x :
  proper c -> proper a -> overlap c a = true ->
  labelled_at p x (overlap_handler c a raw_text) <-> labelled_at p x [c; a].
Proof.
  intros Hc Ha Hov. apply overlap_proper in Hov; [|done..].
  unfold proper in *. unfold overlap_handler.
  destruct (Z.lt_ge_cases p (start c)), (Z.lt_ge_cases p (start a)),
    (Z.lt_ge_cases p (end_ c)), (Z.lt_ge_cases p (end_ a)).
  all: destruct (Z.leb_spec (start c) (start a));
    rewrite !labelled_at_cons, !labelled_at_nil; unfold covers; simpl;
    rewrite elem_of_union.
  all: try (destruct (Z.gtb_spec (end_ a) (end_ c)));
    try (destruct (Z.gtb_spec (end_ c) (end_ a))).
  all: split; intros Hcase; decompose [and or] Hcase; clear Hcase;
    try lia; try done; offsets.
Qed.

Lemma overlap_handler_Exists_proper (c a : annot labelset) raw_text :
  proper c -> proper a -> overlap c a = true ->
  Exists proper (overlap_handler c a raw_text).
Proof.
  intros Hc Ha Hov. apply overlap_proper in Hov; [|done..].
  unfold proper in *. unfold overlap_handler.
  destruct (Z.leb_spec (start c) (start a));
    apply Exists_cons_tl, Exists_cons_hd; unfold proper; simpl; lia.
Qed.

Lemma merge_step_resolved raw_text c q m :
  resolved_invariant (c :: q) m ->
  resolved_invariant (merge_step raw_text c q m).1 (merge_step raw_text c q m).2
  ∧ (Exists proper (c :: q) ∨ m ≠ [] ->
     Exists proper (merge_step raw_text c q m).1
     ∨ (merge_step raw_text c q m).2 ≠ [])
  ∧ ∀ p x,
      labelled_at p x ((c :: q) ++ m)
      <-> labelled_at p x ((merge_step raw_text c q m).1
                            ++ (merge_step raw_text c q m).2).
Proof.
  intros ([Hc Hq]%Forall_cons & Hproper & Hsep).
  unfold merge_step.
  destruct (Z.eqb_spec (start c) (end_ c)) as [Hdeg|Hnd]; simpl.
  { split; [done|]. split.
    - intros [[Hp|Hp]%Exists_cons|?]; [|by left|by right].
      unfold proper in Hp. lia.
    - intros p x. rewrite labelled_at_cons. unfold covers.
      split; [intros [[? _]|?]; [lia|done]|by right]. }
  assert (proper c) as Hpc by (unfold proper, well_formed in *; lia).
  assert (Happend : (∀ a, scan_merged c (sort_by_start m) ≠ Overlapping a) ->
    resolved_invariant q (m ++ [c])
    ∧ (Exists proper (c :: q) ∨ m ≠ [] -> Exists proper q ∨ m ++ [c] ≠ [])
    ∧ ∀ p x, labelled_at p x (c :: q ++ m) <-> labelled_at p x (q ++ m ++ [c])).
  { intros Hscan. split; [|split].
    - repeat split; [done|apply Forall_app; split; [done|by constructor]|].
      apply (separate_Permutation (c :: m)); [by rewrite Permutation_app_comm|].
      constructor; [done|].
      apply (sorted_by_Forall start), scan_merged_no_overlap; try done.
      + apply sorted_by_Sorted.
      + by apply sorted_by_Forall.
    - intros _. right. by destruct m.
    - intros p x.
      rewrite labelled_at_cons, !labelled_at_app, labelled_at_cons,
        labelled_at_nil. tauto. }
  destruct (scan_merged c (sort_by_start m)) as [|a|] eqn:Hscan; simpl;
    [by apply Happend| |by apply Happend].
  pose proof (scan_merged_Overlapping_elem _ _ _ Hscan) as Hin.
  apply scan_merged_Overlapping in Hscan as [_ Hov].
  assert (proper a) as Hpa by (by eapply Forall_forall in Hproper).
  destruct (overlap_handler_mass c a raw_text Hpc Hpa Hov) as [Hwf _].
  split; [|split].
  - repeat split.
    + by apply Forall_app.
    + by apply list_remove_Forall.
    + apply (separate_Permutation _ (a :: list_remove a m)) in Hsep;
        [|by rewrite list_remove_Permutation].
      by apply StronglySorted_inv in Hsep as [? _].
  - intros _. left. apply Exists_app. left.
    by apply overlap_handler_Exists_proper.
  - intros p x.
    rewrite labelled_at_cons, !labelled_at_app.
    rewrite overlap_handler_labelled_at by done.
    rewrite (labelled_at_Permutation p x m (a :: list_remove a m))
      by (by rewrite list_remove_Permutation).
    rewrite !labelled_at_cons, labelled_at_nil. tauto.
Qed.

Lemma merge_loop_resolved raw_text fuel : ∀ q m r,
  resolved_invariant q m ->
  merge_loop fuel raw_text q m = Returns r ->
  resolved_invariant [] r
  ∧ (Exists proper q ∨ m ≠ [] -> r ≠ [])
  ∧ ∀ p x, labelled_at p x (q ++ m) <-> labelled_at p x r.
Proof.
  induction fuel as [|fuel IH]; intros q m r Hinv Hrun.
  - destruct q as [|c q]; [|done]. injection Hrun as <-.
    split; [done|]. split; [|done].
    intros [Hex|?]; [|done]. by inversion Hex.
  - destruct q as [|c q].
    + injection Hrun as <-.
      split; [done|]. split; [|done].
      intros [Hex|?]; [|done]. by inversion Hex.
    + simpl in Hrun.
      destruct (merge_step_resolved raw_text c q m Hinv)
        as (Hinv' & Hsome' & Hlab').
      destruct (merge_step raw_text c q m) as [q' m']. simpl in *.
      destruct (IH q' m' r Hinv' Hrun) as (Hinv'' & Hsome'' & Hlab'').
      split; [done|]. split; [by auto|].
      intros p x. by rewrite <-Hlab'', <-Hlab'.
Qed.

Lemma labelled_at_label_to_list p x (r : list (annot labelset)) :
  labelled_at p x (label_to_list <$> r) <-> labelled_at p x r.
Proof.
  unfold labelled_at. split.
  - intros (s & (s' & -> & Hs')%list_elem_of_fmap & Hcov & Hx).
    exists s'. split; [done|]. split; [done|].
    simpl in Hx. by apply elem_of_elements in Hx.
  - intros (s & Hs & Hcov & Hx). exists (label_to_list s).
    split; [by apply list_elem_of_fmap_2|]. split; [done|].
    simpl. by apply elem_of_elements.
Qed.

Lemma labelled_at_initial_queue p x label_seq :
  labelled_at p x (initial_queue label_seq) <-> annotated_at p x label_seq.
Proof.
  unfold labelled_at, annotated_at, initial_queue, sort_by_start. split.
  - intros (s & (a & -> & Ha)%list_elem_of_fmap & Hcov & Hx).
    rewrite !sorted_by_elem_of in Ha. exists a. split; [done|].
    split; [done|]. simpl in Hx. by apply elem_of_singleton in Hx.
  - intros (a & Ha & Hcov & <-). exists (label_to_set a).
    split; [|split; [done|by apply elem_of_singleton]].
    apply list_elem_of_fmap_2. by rewrite !sorted_by_elem_of.
Qed.

Lemma merged_annotations_of_resolved fuel raw_text label_seq :
  Forall well_formed label_seq ->
  (merge_budget (initial_queue label_seq) [] <= fuel)%nat ->
  ∃ merged,
    merged_annotations_of fuel raw_text label_seq = Returns merged
    ∧ (Exists proper label_seq -> merged ≠ [])
    ∧ Forall proper merged
    ∧ StronglySorted (fun a b => end_ a <= start b) merged
    ∧ ∀ p x, labelled_at p x merged <-> annotated_at p x label_seq.
Proof.
  intros Hwf Hfuel.
  destruct (merge_loop_terminates raw_text fuel (initial_queue label_seq) [])
    as [r Hrun]; [by apply initial_queue_well_formed|constructor|done|].
  destruct (merge_loop_resolved raw_text fuel (initial_queue label_seq) [] r)
    as ((_ & Hproper & Hsep) & Hne & Hlab); [|done|].
  { split; [by apply initial_queue_well_formed|]. split; constructor. }
  unfold merged_annotations_of. rewrite Hrun. simpl.
  eexists. split; [done|].
  assert (Hp : Forall proper (sort_by_start (label_to_list <$> r))).
  { apply sorted_by_Forall, Forall_fmap.
    eapply Forall_impl; [exact Hproper|]. by intros []. }
  split; [|split; [done|split]].
  - intros Hex Hnil. apply (f_equal length) in Hnil.
    unfold sort_by_start in Hnil.
    rewrite sorted_by_length, length_fmap in Hnil.
    destruct Hne; [left; by apply initial_queue_Exists_proper|].
    by destruct r.
  - apply sorted_separate_chain; [apply sorted_by_Sorted| |done].
    apply (separate_Permutation (label_to_list <$> r));
      [by unfold sort_by_start; rewrite sorted_by_Permutation|].
    by apply separate_fmap.
  - intros p x.
    rewrite (labelled_at_Permutation p x _ (label_to_list <$> r))
      by (unfold sort_by_start; apply sorted_by_Permutation).
    rewrite labelled_at_label_to_list, <-Hlab, app_nil_r.
    apply labelled_at_initial_queue.
Qed.

(** X5: on annotations with [end >= start] the merge engine returns spans
    that are not empty, in ascending order, each ending before the next
    starts; and a character carries a label in the merged spans exactly
    when an input annotation that holds it has that label. *)
Theorem merge_engine_resolves_overlaps fuel raw_text label_seq :
  Forall well_formed label_seq ->
  (merge_budget (initial_queue label_seq) [] <= fuel)%nat ->
  ∃ merged,
    merged_annotations_of fuel raw_text label_seq = Returns merged
    ∧ Forall proper merged
    ∧ StronglySorted (fun a b => end_ a <= start b) merged
    ∧ ∀ p x, labelled_at p x merged <-> annotated_at p x label_seq.
Proof.
  intros Hwf Hfuel.
  destruct (merged_annotations_of_resolved fuel raw_text label_seq Hwf Hfuel)
    as (merged & Hrun & _ & Hproper & Hsorted & Hlab).
  by exists merged.
Qed.

Lemma merge_engine_resolves_overlaps_witness :
  let raw_text := str "0123456789abcde" in
  let label_seq := [Annotation 0 10 (PyStr "X") (str "0123456789");
                    Annotation 5 15 (PyStr "Y") (str "56789abcde")] in
  ∃ merged,
    merged_annotations_of 100 raw_text label_seq = Returns merged
    ∧ Forall proper merged
    ∧ StronglySorted (fun a b => end_ a <= start b) merged
    ∧ ∀ p x, labelled_at p x merged <-> annotated_at p x label_seq.
Proof.
  intros raw_text label_seq. apply merge_engine_resolves_overlaps.
  - repeat constructor; unfold well_formed; simpl; lia.
  - vm_compute. lia.
Defined.

(** X6: in multi-label mode, a document whose annotations have
    [end >= start] is converted exactly when one of them is not empty; the
    text and the offsets of the annotations play no part in this.
    Otherwise the conversion raises [ValueError]. *)
Theorem document_converts_iff_proper_span fuel none_value raw_text label_seq :
  Forall well_formed label_seq ->
  (merge_budget (initial_queue label_seq) [] <= fuel)%nat ->
  ((∃ r, indico_to_finetune_document fuel true none_value raw_text label_seq
         = Returns r)
   <-> Exists proper label_seq)
  ∧ (¬ Exists proper label_seq ->
     indico_to_finetune_document fuel true none_value raw_text label_seq
     = Raises ValueError).
Proof.
  intros Hwf Hfuel.
  assert (Hdeg : ¬ Exists proper label_seq ->
                 Forall (fun a => start a = end_ a) label_seq).
  { intros Hnone. rewrite Forall_forall in Hwf. apply Forall_forall.
    intros a Ha. specialize (Hwf a Ha).
    destruct (decide (start a = end_ a)) as [|Hne]; [done|].
    destruct Hnone. apply Exists_exists. exists a. split; [done|].
    unfold proper, well_formed in *. lia. }
  assert (Hraise : ¬ Exists proper label_seq ->
     indico_to_finetune_document fuel true none_value raw_text label_seq
     = Raises ValueError).
  { intros Hnone. specialize (Hdeg Hnone).
    unfold indico_to_finetune_document, all_annotations_of,
      merged_annotations_of.
    rewrite merge_loop_degenerate; [done|by apply initial_queue_degenerate|].
    unfold merge_budget in Hfuel. lia. }
  split; [|done]. split.
  - intros [r Hr].
    destruct (decide (Exists (fun a : annot pylabel => start a < end_ a)
                        label_seq)) as [Hex|Hnone]; [exact Hex|].
    by rewrite (Hraise Hnone) in Hr.
  - intros Hex.
    destruct (merged_annotations_of_resolved fuel raw_text label_seq Hwf Hfuel)
      as (merged & Hrun & Hne & _).
    specialize (Hne Hex).
    unfold indico_to_finetune_document, all_annotations_of.
    rewrite Hrun. simpl.
    pose proof (add_none_labels_nonempty raw_text none_value merged 0 Hne)
      as Hall.
    destruct (add_none_labels raw_text none_value merged 0) as [|a l];
      [done|]. simpl. by eexists.
Qed.

Lemma document_converts_iff_proper_span_witness :
  let label_seq := [Annotation 7 9 (PyStr "X") (str "zz");
                    Annotation 3 3 (PyStr "Y") []] in
  (∃ r, indico_to_finetune_document 100 true PyNone (str "ab") label_seq
        = Returns r)
  <-> Exists proper label_seq.
Proof.
  intros label_seq.
  apply document_converts_iff_proper_span.
  - repeat constructor; unfold well_formed; simpl; lia.
  - vm_compute. lia.
Defined.

(** ** The labels of each character *)

Lemma add_none_labels_elem raw_text none_value merged : ∀ current_idx s,
  s ∈ add_none_labels raw_text none_value merged current_idx ->
  s ∈ merged ∨ label s = [none_value].
Proof.
  induction merged as [|a merged IH]; intros current_idx s.
  { by intros ?%elem_of_nil. }
  cbn [add_none_labels]. rewrite elem_of_app, elem_of_cons.
  intros [Hgap|[->|Htail]].
  - right. destruct (start a >? current_idx); [|by apply elem_of_nil in Hgap].
    by apply list_elem_of_singleton in Hgap as ->.
  - left. left.
  - destruct (IH _ _ Htail) as [?|?]; [left; by right|by right].
Qed.

Lemma add_none_labels_incl raw_text none_value merged : ∀ current_idx s,
  s ∈ merged ->
  s ∈ add_none_labels raw_text none_value merged current_idx.
Proof.
  induction merged as [|a merged IH]; intros current_idx s.
  { by intros ?%elem_of_nil. }
  cbn [add_none_labels]. rewrite elem_of_app, !elem_of_cons.
  intros [->|Hs]; [right; by left|]. right. right. by apply IH.
Qed.

(** In a list of spans that follow one another, a character lies in one
    span at most. *)
Lemma chain_covers_unique {L} (l : list (annot L)) s s' p :
  StronglySorted (fun a b => end_ a <= start b) l ->
  s ∈ l -> s' ∈ l -> covers s p -> covers s' p -> s = s'.
Proof.
  intros Hsorted Hs Hs' Hcov Hcov'. unfold covers in *.
  induction Hsorted as [|a l Hsorted IH Ha]; [by apply elem_of_nil in Hs|].
  rewrite Forall_forall in Ha.
  apply elem_of_cons in Hs as [->|Hs]; apply elem_of_cons in Hs' as [->|Hs'].
  - done.
  - specialize (Ha _ Hs'). lia.
  - specialize (Ha _ Hs). lia.
  - by apply IH.
Qed.

(** Every character of the range of a tiling lies in one of its spans. *)
Lemma tiling_covers {L} raw_text (l : list (annot L)) : ∀ from to p,
  tiling raw_text from to l -> from <= p < to -> ∃ s, s ∈ l ∧ covers s p.
Proof.
  induction l as [|a l IH]; intros from to p; simpl.
  - intros <- ?. lia.
  - intros (<- & Hlt & _ & Htail) Hp.
    destruct (Z.lt_ge_cases p (end_ a)).
    + exists a. split; [left|]. unfold covers. lia.
    + destruct (IH (end_ a) to p Htail) as (s & Hs & Hcov); [lia|].
      exists s. split; [by right|done].
Qed.

Lemma all_annotations_of_spec fuel none_value raw_text label_seq :
  Forall (faithful raw_text) label_seq -> Exists proper label_seq ->
  (merge_budget (initial_queue label_seq) [] <= fuel)%nat ->
  ∃ merged all_annotations,
    merged_annotations_of fuel raw_text label_seq = Returns merged
    ∧ all_annotations_of fuel true none_value raw_text label_seq
      = Returns all_annotations
    ∧ tiling raw_text 0 (Z.of_nat (length raw_text)) all_annotations
    ∧ (∀ s, s ∈ all_annotations -> s ∈ merged ∨ label s = [none_value])
    ∧ (∀ s, s ∈ merged -> s ∈ all_annotations).
Proof.
  intros Hfaithful Hproper Hfuel.
  destruct (merged_annotations_of_spec fuel raw_text label_seq)
    as (merged & Hrun & Hne & Hall & Hchain); [done..|].
  pose proof (add_none_labels_tiling raw_text none_value merged 0) as Htiling.
  specialize (Htiling ltac:(lia) Hall Hchain).
  set (to := default 0 (last (end_ <$> merged))) in *.
  assert (Hto : to <= Z.of_nat (length raw_text)).
  { subst to. destruct (last (end_ <$> merged)) as [e|] eqn:Hlast; [|simpl; lia].
    apply last_Some_elem_of, list_elem_of_fmap in Hlast as (a & -> & Ha).
    rewrite Forall_forall in Hall.
    by destruct (Hall a Ha) as (_ & (_ & _ & ? & _) & _). }
  exists merged. unfold all_annotations_of. rewrite Hrun. simpl.
  rewrite (tiling_py_max raw_text _ 0 to);
    [|by apply add_none_labels_nonempty|done].
  simpl. case_decide as Hend.
  - eexists. split; [done|]. split; [done|]. split; [|split].
    + eapply tiling_app; [done|]. simpl. repeat split; lia.
    + intros s [Hs|Hs]%elem_of_app.
      * by eapply add_none_labels_elem.
      * right. by apply list_elem_of_singleton in Hs as ->.
    + intros s Hs. apply elem_of_app. left. by apply add_none_labels_incl.
  - eexists. split; [done|]. split; [done|]. split; [|split].
    + by rewrite <-Hend.
    + intros s Hs. by eapply add_none_labels_elem.
    + intros s Hs. by apply add_none_labels_incl.
Qed.

Lemma overlap_handler_labels_nonempty (c a : annot labelset) raw_text :
  label c ≠ ∅ -> label a ≠ ∅ ->
  Forall (fun s => label s ≠ ∅) (overlap_handler c a raw_text).
Proof.
  intros Hc Ha. unfold overlap_handler.
  destruct (start c <=? start a); simpl.
  - destruct (end_ a >? end_ c); repeat constructor; simpl; set_solver.
  - destruct (end_ c >? end_ a); repeat constructor; simpl; set_solver.
Qed.

Lemma merge_loop_labels_nonempty raw_text fuel : ∀ q m r,
  Forall (fun s => label s ≠ ∅) q -> Forall (fun s => label s ≠ ∅) m ->
  merge_loop fuel raw_text q m = Returns r ->
  Forall (fun s => label s ≠ ∅) r.
Proof.
  induction fuel as [|fuel IH]; intros q m r Hq Hm Hrun.
  - destruct q; [|done]. by injection Hrun as <-.
  - destruct q as [|c q]; [by injection Hrun as <-|].
    apply Forall_cons in Hq as [Hc Hq]. simpl in Hrun. unfold merge_step in Hrun.
    destruct (start c =? end_ c); [exact (IH _ _ _ Hq Hm Hrun)|].
    assert (Forall (fun s => label s ≠ ∅) (m ++ [c])) as Happend.
    { apply Forall_app. split; [done|by constructor]. }
    destruct (scan_merged c (sort_by_start m)) as [|a|] eqn:Hscan;
      [exact (IH _ _ _ Hq Happend Hrun)| |exact (IH _ _ _ Hq Happend Hrun)].
    apply scan_merged_Overlapping_elem in Hscan.
    eapply IH; [| |exact Hrun].
    + apply Forall_app. split; [|done].
      apply overlap_handler_labels_nonempty; [done|].
      by eapply Forall_forall in Hm.
    + by apply list_remove_Forall.
Qed.

Lemma merged_annotations_of_labels_nonempty fuel raw_text label_seq merged :
  merged_annotations_of fuel raw_text label_seq = Returns merged ->
  Forall (fun s => label s ≠ []) merged.
Proof.
  unfold merged_annotations_of.
  destruct (merge_loop fuel raw_text (initial_queue label_seq) [])
    as [r| |] eqn:Hrun; [|done..].
  simpl. intros [= <-].
  apply merge_loop_labels_nonempty in Hrun; [|..|constructor].
  - apply sorted_by_Forall, Forall_fmap.
    eapply Forall_impl; [exact Hrun|].
    intros s Hs. simpl. by intros ?%elements_empty_inv%leibniz_equiv.
  - unfold initial_queue. apply Forall_fmap, Forall_forall.
    intros a _. simpl. set_solver.
Qed.

(** X8: what the conversion says of each character, in multi-label mode,
    for a document with a span that is not empty whose annotations lie in
    the text.  Every character of the raw text lies in one of the returned
    spans.  The returned span that holds a character carries exactly the
    labels of the input annotations that hold it, if there are any, and is a
    span with the none-value alone if there are none. *)
Theorem document_labels_each_character fuel none_value raw_text label_seq :
  Forall (faithful raw_text) label_seq -> Exists proper label_seq ->
  (merge_budget (initial_queue label_seq) [] <= fuel)%nat ->
  ∃ all_annotations,
    all_annotations_of fuel true none_value raw_text label_seq
    = Returns all_annotations
    ∧ (∀ p, 0 <= p < Z.of_nat (length raw_text) ->
            ∃ s, s ∈ all_annotations ∧ covers s p)
    ∧ ∀ s p, s ∈ all_annotations -> covers s p ->
        ((∃ x, annotated_at p x label_seq)
         ∧ ∀ x, x ∈ label s <-> annotated_at p x label_seq)
        ∨ (label s = [none_value] ∧ ∀ x, ¬ annotated_at p x label_seq).
Proof.
  intros Hfaithful Hproper Hfuel.
  destruct (all_annotations_of_spec fuel none_value raw_text label_seq)
    as (merged & all_annotations & Hmerged & Hrun & Htiling & Helem & Hincl);
    [done..|].
  destruct (merged_annotations_of_resolved fuel raw_text label_seq)
    as (merged' & Hmerged' & _ & Hmp & Hchain & Hlab); [|done|].
  { eapply Forall_impl; [done|]. by intros a (_ & ? & _). }
  rewrite Hmerged in Hmerged'. injection Hmerged' as <-.
  pose proof (merged_annotations_of_labels_nonempty _ _ _ _ Hmerged) as Hne.
  destruct (tiling_sorted raw_text all_annotations _ _ Htiling)
    as [_ Hall_chain].
  exists all_annotations. split; [done|]. split.
  { intros p Hp. by eapply tiling_covers. }
  intros s p Hs Hcov.
  assert (Hcase : ∀ x, annotated_at p x label_seq ->
            s ∈ merged ∧ x ∈ label s).
  { intros x (s' & Hs' & Hcov' & Hx)%Hlab.
    assert (s = s') as ->; [|done].
    apply (chain_covers_unique all_annotations s s' p); auto. }
  destruct (decide (s ∈ merged)) as [Hin|Hnin].
  - left.
    assert (Hiff : ∀ x, x ∈ label s <-> annotated_at p x label_seq).
    { intros x. split; [|by intros [_ ?]%Hcase].
      intros Hx. apply Hlab. by exists s. }
    split; [|done].
    rewrite Forall_forall in Hne. specialize (Hne s Hin).
    destruct (label s) as [|x l] eqn:Hlabel; [done|].
    exists x. apply Hiff. left.
  - right. split.
    + by destruct (Helem s Hs).
    + intros x [? _]%Hcase. done.
Qed.

Lemma document_labels_each_character_witness :
  let raw_text := str "0123456789abcde--" in
  let label_seq := [Annotation 0 10 (PyStr "X") (str "0123456789");
                    Annotation 5 15 (PyStr "Y") (str "56789abcde")] in
  ∃ all_annotations,
    all_annotations_of 100 true PyNone raw_text label_seq
    = Returns all_annotations
    ∧ (∀ p, 0 <= p < Z.of_nat (length raw_text) ->
            ∃ s, s ∈ all_annotations ∧ covers s p)
    ∧ ∀ s p, s ∈ all_annotations -> covers s p ->
        ((∃ x, annotated_at p x label_seq)
         ∧ ∀ x, x ∈ label s <-> annotated_at p x label_seq)
        ∨ (label s = [PyNone] ∧ ∀ x, ¬ annotated_at p x label_seq).
Proof.
  intros raw_text label_seq.
  apply document_labels_each_character.
  - repeat constructor; simpl; lia.
  - left. unfold proper. simpl. lia.
  - vm_compute. lia.
Defined.

(** ** The span reconstructor: what it returns *)

Lemma startswith_take (s sub : pystr) :
  startswith s sub = true ->
  take (length sub) s = sub ∧ (length sub <= length s)%nat.
Proof.
  revert s. induction sub as [|c sub IH]; intros s; [split; [done|simpl; lia]|].
  destruct s as [|d s]; [done|]. simpl.
  intros [Hcd Hrest]%andb_true_iff. apply bool_decide_eq_true in Hcd as <-.
  destruct (IH s Hrest) as [-> ?]. split; [done|lia].
Qed.

Lemma find_from_found (sub : pystr) : ∀ s pos r,
  find_from s sub pos = r -> r ≠ -1 -> 0 <= pos ->
  pos <= r ∧ r - pos <= Z.of_nat (length s)
  ∧ startswith (drop (Z.to_nat (r - pos)) s) sub = true.
Proof.
  induction s as [|c s IH]; intros pos r Hfind Hr Hpos.
  - cbn [find_from] in Hfind. destruct (startswith [] sub) eqn:Hsw; [|lia].
    subst r. replace (pos - pos) with 0 by lia. simpl. split; [lia|by split].
  - cbn [find_from] in Hfind.
    destruct (startswith (c :: s) sub) eqn:Hsw.
    + subst r. replace (pos - pos) with 0 by lia. simpl.
      split; [lia|split; [lia|done]].
    + destruct (IH (pos + 1) r Hfind Hr) as (Hle & Hlen & Hstarts); [lia|].
      split; [lia|]. split; [simpl; lia|].
      replace (Z.to_nat (r - pos)) with (S (Z.to_nat (r - (pos + 1)))) by lia.
      done.
Qed.

(** What [str.find] returns, when it is not -1, is the offset of an
    occurrence. *)
Lemma py_find_found (s sub : pystr) (start r : Z) :
  py_find s sub start = r -> r ≠ -1 ->
  0 <= r ∧ r + Z.of_nat (length sub) <= Z.of_nat (length s)
  ∧ py_slice s r (r + Z.of_nat (length sub)) = sub.
Proof.
  unfold py_find. intros Hfind Hr.
  set (n := Z.of_nat (length s)) in *.
  set (start' := if start <? 0 then Z.max 0 (start + n) else start) in *.
  assert (0 <= start') as Hstart'.
  { subst start'. destruct (Z.ltb_spec start 0); lia. }
  destruct (Z.gtb_spec start' n) as [|Hle]; [lia|].
  apply find_from_found in Hfind as (Hpos & Hlen & Hsw); [|done..].
  rewrite length_drop in Hlen. rewrite drop_drop in Hsw.
  replace (Z.to_nat start' + Z.to_nat (r - start'))%nat with (Z.to_nat r)
    in Hsw by lia.
  apply startswith_take in Hsw as [Htake Hsub].
  rewrite length_drop in Hsub.
  split; [lia|]. split; [lia|].
  rewrite py_slice_in_range by lia.
  by replace (Z.to_nat (r + Z.of_nat (length sub) - r)) with (length sub) by lia.
Qed.

Section Items.
Context (none_value : pylabel) (subtoken_predictions : bool)
  (raw_text : pystr) (spacy_token_starts spacy_token_ends : list Z)
  (associations_seq : option (gmap Z association)).

(** A property of the state that every candidate keeps is kept by the
    loop. *)
Lemma process_substrings_invariant (P : doc_state -> Prop)
    (items0 : list (pystr * raw_label * option confidence)) :
  (∀ sub_str raw_label confidences multi_label label st st',
     (sub_str, raw_label, confidences) ∈ items0 ->
     label ∈ labels_of raw_label -> P st ->
     process_label none_value subtoken_predictions raw_text
       spacy_token_starts spacy_token_ends associations_seq sub_str
       multi_label confidences st label = Returns st' ->
     P st') ->
  ∀ items st st',
    items ⊆ items0 -> P st ->
    process_substrings none_value subtoken_predictions raw_text
      spacy_token_starts spacy_token_ends associations_seq st items
    = Returns st' ->
    P st'.
Proof.
  intros Hstep.
  assert (Hlabels : ∀ sub_str raw_label confidences multi_label labels st st',
    (sub_str, raw_label, confidences) ∈ items0 ->
    labels ⊆ labels_of raw_label -> P st ->
    process_labels none_value subtoken_predictions raw_text
      spacy_token_starts spacy_token_ends associations_seq sub_str
      multi_label confidences st labels = Returns st' -> P st').
  { intros sub_str raw_label confidences multi_label labels.
    induction labels as [|l labels IH]; intros st st' Hin Hsub HP; simpl.
    - by intros [= <-].
    - destruct (process_label _ _ _ _ _ _ _ _ _ st l) as [st1| |] eqn:Hl;
        [|done..].
      simpl. apply IH; [done|set_solver|].
      eapply Hstep; [done| |done|done]. set_solver. }
  induction items as [|[[sub_str raw_label] confidences] items IH];
    intros st st' Hsub HP; simpl.
  - by intros [= <-].
  - destruct raw_label as [l|ls].
    + destruct (process_labels _ _ _ _ _ _ _ false _ st [l])
        as [st1| |] eqn:Hl; [|done..].
      simpl. apply IH; [set_solver|].
      eapply (Hlabels _ (Single l)); [|done|done|done]. set_solver.
    + destruct (process_labels _ _ _ _ _ _ _ true _ st ls)
        as [st1| |] eqn:Hl; [|done..].
      simpl. apply IH; [set_solver|].
      eapply (Hlabels _ (Tuple ls)); [|done|done|done]. set_solver.
Qed.

(** If no candidate raises from a state with [Q], the loop returns. *)
Lemma process_substrings_returns (Q : doc_state -> Prop) :
  (∀ sub_str multi_label confidences label st,
     Q st ->
     ∃ st',
       process_label none_value subtoken_predictions raw_text
         spacy_token_starts spacy_token_ends associations_seq sub_str
         multi_label confidences st label = Returns st'
       ∧ Q st') ->
  ∀ items st,
    Q st ->
    ∃ st',
      process_substrings none_value subtoken_predictions raw_text
        spacy_token_starts spacy_token_ends associations_seq st items
      = Returns st'
      ∧ Q st'.
Proof.
  intros Hstep.
  assert (Hlabels : ∀ sub_str multi_label confidences labels st,
    Q st ->
    ∃ st',
      process_labels none_value subtoken_predictions raw_text
        spacy_token_starts spacy_token_ends associations_seq sub_str
        multi_label confidences st labels = Returns st' ∧ Q st').
  { intros sub_str multi_label confidences labels.
    induction labels as [|l labels IH]; intros st HQ; simpl; [by eauto|].
    destruct (Hstep sub_str multi_label confidences l st HQ)
      as (st1 & -> & HQ1). simpl. by apply IH. }
  induction items as [|[[sub_str raw_label] confidences] items IH];
    intros st HQ; simpl; [by eauto|].
  destruct raw_label as [l|ls].
  - destruct (Hlabels sub_str false confidences [l] st HQ) as (st1 & -> & HQ1).
    simpl. by apply IH.
  - destruct (Hlabels sub_str true confidences ls st HQ) as (st1 & -> & HQ1).
    simpl. by apply IH.
Qed.

End Items.

Lemma advance_start_bounds a : ∀ starts_from i,
  i <= advance_start starts_from a i
  ∧ advance_start starts_from a i <= i + Z.of_nat (length starts_from).
Proof.
  induction starts_from as [|s rest IH]; intros i; simpl; [lia|].
  destruct (a >=? s); [|lia]. specialize (IH (i + 1)). lia.
Qed.

Lemma advance_end_bounds e : ∀ ends_from i,
  i <= advance_end ends_from e i
  ∧ advance_end ends_from e i
    <= i + Z.max 0 (Z.of_nat (length ends_from) - 1).
Proof.
  induction ends_from as [|x ends IH]; intros i; [simpl; lia|].
  destruct ends as [|y ends]; [simpl; lia|].
  rewrite advance_end_cons. destruct (e >? x); [|simpl; lia].
  specialize (IH (i + 1)). simpl length in *. lia.
Qed.

Lemma py_getitem_in_range {A} (l : list A) (i : Z) :
  - Z.of_nat (length l) <= i < Z.of_nat (length l) ->
  ∃ x, py_getitem l i = Returns x ∧ x ∈ l.
Proof.
  intros Hi. unfold py_getitem.
  set (i' := if i <? 0 then i + Z.of_nat (length l) else i).
  assert (0 <= i' < Z.of_nat (length l)) as Hi'.
  { subst i'. destruct (Z.ltb_spec i 0); lia. }
  destruct (Z.ltb_spec i' 0); [lia|].
  destruct (lookup_lt_is_Some_2 l (Z.to_nat i')) as [x Hx]; [lia|].
  rewrite Hx. exists x. split; [done|]. by eapply list_elem_of_lookup_2.
Qed.

Lemma py_getitem_Returns_elem {A} (l : list A) (i : Z) x :
  py_getitem l i = Returns x -> x ∈ l.
Proof.
  unfold py_getitem. destruct (_ <? 0); [done|].
  destruct (l !! _) as [y|] eqn:Hy; [|done].
  intros [= <-]. by eapply list_elem_of_lookup_2.
Qed.

(** With at least one token and the cursors inside the token tables, the
    snapping block raises nothing and leaves the cursors inside. *)
Lemma snap_returns none_value spacy_token_starts spacy_token_ends
    multi_label label start_idx end_idx annotation_start annotation_end :
  let n := Z.of_nat (length spacy_token_starts) in
  length spacy_token_ends = length spacy_token_starts ->
  0 < n ->
  0 <= start_idx -> start_idx <= n -> 0 <= end_idx -> end_idx <= n - 1 ->
  ∃ start_idx' end_idx' annotation_start' annotation_end',
    snap none_value false spacy_token_starts spacy_token_ends multi_label
      label start_idx end_idx annotation_start annotation_end
    = Returns (start_idx', end_idx', annotation_start', annotation_end')
    ∧ 0 <= start_idx' ∧ start_idx' <= n
    ∧ 0 <= end_idx' ∧ end_idx' <= n - 1.
Proof.
  intros n Hlen Hn Hs0 Hs1 He0 He1. unfold snap.
  set (cursors := if multi_label then (0, 0) else (start_idx, end_idx)).
  assert (0 <= cursors.1 ∧ cursors.1 <= n ∧ 0 <= cursors.2 ∧ cursors.2 <= n - 1)
    as Hcursors.
  { subst cursors. destruct multi_label; simpl; lia. }
  destruct cursors as [si ei]. simpl in Hcursors.
  case_bool_decide; [|eexists _, _, _, _; split; [done|lia]].
  pose proof (advance_start_bounds annotation_start
                (drop (Z.to_nat si) spacy_token_starts) si) as Hstart.
  pose proof (advance_end_bounds annotation_end
                (drop (Z.to_nat ei) spacy_token_ends) ei) as Hend.
  rewrite length_drop in Hstart, Hend.
  destruct (py_getitem_in_range spacy_token_starts
              (advance_start (drop (Z.to_nat si) spacy_token_starts)
                 annotation_start si - 1)) as (a' & -> & _); [lia|].
  simpl.
  destruct (py_getitem_in_range spacy_token_ends
              (advance_end (drop (Z.to_nat ei) spacy_token_ends)
                 annotation_end ei)) as (e' & -> & _); [lia|].
  simpl. eexists _, _, _, _. split; [done|]. lia.
Qed.

(** What the snapping block returns for a label other than the none-value
    are a token start and a token end. *)
Lemma snap_Returns_boundaries none_value spacy_token_starts spacy_token_ends
    multi_label label start_idx end_idx annotation_start annotation_end
    start_idx' end_idx' annotation_start' annotation_end' :
  snap none_value false spacy_token_starts spacy_token_ends multi_label
    label start_idx end_idx annotation_start annotation_end
  = Returns (start_idx', end_idx', annotation_start', annotation_end') ->
  label ≠ none_value ->
  annotation_start' ∈ spacy_token_starts
  ∧ annotation_end' ∈ spacy_token_ends.
Proof.
  unfold snap. intros Hsnap Hlabel.
  destruct (if multi_label then (0, 0) else (start_idx, end_idx)) as [si ei].
  rewrite bool_decide_eq_true_2 in Hsnap by done.
  destruct (py_getitem spacy_token_starts _) as [a'| |] eqn:Ha; [|done..].
  simpl in Hsnap.
  destruct (py_getitem spacy_token_ends _) as [e'| |] eqn:He; [|done..].
  simpl in Hsnap. injection Hsnap as <- <- <- <-.
  split; by eapply py_getitem_Returns_elem.
Qed.

(** Without a token, the snapping block raises for every label other than
    the none-value. *)
Lemma snap_no_token none_value multi_label label start_idx end_idx
    annotation_start annotation_end :
  label ≠ none_value ->
  snap none_value false [] [] multi_label label start_idx end_idx
    annotation_start annotation_end = Raises IndexError.
Proof.
  intros Hlabel. unfold snap.
  destruct (if multi_label then (0, 0) else (start_idx, end_idx)) as [si ei].
  rewrite bool_decide_eq_true_2 by done.
  rewrite drop_nil. simpl. unfold py_getitem. simpl.
  by destruct (si - 1 <? 0) eqn:Hsi; rewrite ?Hsi, ?Z.add_0_r, ?Hsi.
Qed.

(** The ways one candidate changes the annotations of the document. *)
Lemma process_label_cases none_value subtoken_predictions raw_text
    spacy_token_starts spacy_token_ends associations_seq sub_str multi_label
    confidences st label st' :
  process_label none_value subtoken_predictions raw_text spacy_token_starts
    spacy_token_ends associations_seq sub_str multi_label confidences st label
  = Returns st' ->
  let found := py_find raw_text (strip sub_str) (raw_annotation_start st) in
  (doc_annotations st' = doc_annotations st
   ∧ annotation_ranges st' = annotation_ranges st)
  ∨ ∃ start_idx' end_idx' a,
      snap none_value subtoken_predictions spacy_token_starts
        spacy_token_ends multi_label label (start_idx st) (end_idx st)
        found (found + Z.of_nat (length (strip sub_str)))
      = Returns (start_idx', end_idx', ia_start a, ia_end a)
      ∧ found ≠ (-1) ∧ label ≠ none_value ∧ ia_label a = label
      ∧ ia_text a = py_slice raw_text (ia_start a) (ia_end a)
      ∧ ia_confidence a = confidences
      ∧ (triple_of_indico a ∉ annotation_ranges st)
      ∧ doc_annotations st' = doc_annotations st ++ [a]
      ∧ annotation_ranges st'
        = {[ triple_of_indico a ]} ∪ annotation_ranges st.
Proof.
  intros Hrun found. unfold process_label in Hrun. fold found in Hrun.
  destruct (Z.eqb_spec found (-1)) as [|Hfound].
  { injection Hrun as <-. by left. }
  destruct (snap _ _ _ _ _ _ _ _ _ _) as [[[[si ei] a] e]| |] eqn:Hsnap;
    [|done..].
  simpl in Hrun.
  case_bool_decide as Hlabel; [|injection Hrun as <-; by left].
  case_bool_decide as Hnew; injection Hrun as <-; [|by left].
  right. eexists si, ei, (IndicoAnnotation a e label _ _ _). simpl.
  by repeat split.
Qed.

Lemma process_label_ranges_recorded none_value subtoken_predictions raw_text
    spacy_token_starts spacy_token_ends associations_seq sub_str multi_label
    confidences st label st' :
  process_label none_value subtoken_predictions raw_text spacy_token_starts
    spacy_token_ends associations_seq sub_str multi_label confidences st label
  = Returns st' ->
  ranges_recorded st -> ranges_recorded st'.
Proof.
  intros Hrun [Hiff Hnodup].
  destruct (process_label_cases _ _ _ _ _ _ _ _ _ _ _ _ Hrun)
    as [[Hanns Hranges]
       |(si & ei & a & _ & _ & _ & _ & _ & _ & Hnew & Hanns & Hranges)];
    unfold ranges_recorded; rewrite Hanns, Hranges; [done|].
  rewrite fmap_app. simpl. split.
  - intros t. rewrite elem_of_union, elem_of_singleton, elem_of_app,
      list_elem_of_singleton, Hiff. tauto.
  - apply NoDup_app. split; [done|]. split; [|apply NoDup_singleton].
    intros t Ht ->%list_elem_of_singleton. by apply Hnew, Hiff.
Qed.
Lemma process_label_subtoken_returns none_value raw_text spacy_token_starts
    spacy_token_ends associations_seq sub_str multi_label confidences st
    label :
  ∃ st',
    process_label none_value true raw_text spacy_token_starts
      spacy_token_ends associations_seq sub_str multi_label confidences st
      label = Returns st'.
Proof.
  unfold process_label, snap. destruct (_ =? -1); [by eauto|]. simpl.
  repeat case_bool_decide; by eauto.
Qed.

Lemma process_label_snap_returns none_value raw_text spacy_token_starts
    spacy_token_ends associations_seq sub_str multi_label confidences st
    label :
  length spacy_token_ends = length spacy_token_starts ->
  spacy_token_starts ≠ [] ->
  cursors_in_range (Z.of_nat (length spacy_token_starts)) st ->
  ∃ st',
    process_label none_value false raw_text spacy_token_starts
      spacy_token_ends associations_seq sub_str multi_label confidences st
      label = Returns st'
    ∧ cursors_in_range (Z.of_nat (length spacy_token_starts)) st'.
Proof.
  intros Hlen Hne (Hs0 & Hs1 & He0 & He1). unfold process_label.
  destruct (_ =? -1); [eexists; split; [done|]; by unfold cursors_in_range|].
  edestruct (snap_returns none_value spacy_token_starts spacy_token_ends
               multi_label label (start_idx st) (end_idx st))
    as (si & ei & a & e & -> & Hcursors); [done| |done..|].
  { destruct spacy_token_starts; [done|simpl; lia]. }
  simpl.
  repeat case_bool_decide; (eexists; split; [done|]);
    unfold cursors_in_range; simpl; lia.
Qed.

Lemma process_label_no_token none_value raw_text associations_seq sub_str
    multi_label confidences st label :
  doc_annotations st = [] ->
  process_label none_value false raw_text [] [] associations_seq sub_str
    multi_label confidences st label = Raises IndexError
  ∨ ∃ st',
      process_label none_value false raw_text [] [] associations_seq sub_str
        multi_label confidences st label = Returns st'
      ∧ doc_annotations st' = [].
Proof.
  intros Hnone. unfold process_label.
  destruct (_ =? -1); [by eauto|].
  destruct (decide (label = none_value)) as [->|Hlabel].
  - right. unfold snap. rewrite bool_decide_eq_false_2 by naive_solver.
    destruct multi_label; simpl; by eauto.
  - left. by rewrite snap_no_token.
Qed.

Lemma initial_doc_state_recorded : ranges_recorded initial_doc_state.
Proof.
  split; [|constructor]. intros t. simpl. split; [set_solver|].
  by intros ?%elem_of_nil.
Qed.

(** X9: with sub-token predictions allowed, the reconstruction of a document
    raises nothing, and each annotation it returns is an occurrence in the
    raw text of the stripped text of one of the substrings, under one of the
    labels of that substring other than the none-value; no two annotations
    have the same start, end and label, and they come in ascending order of
    start. *)
Theorem subtoken_reconstruction_returns_occurrences NLP none_value raw_text
    doc_seq label_seq prob_seq associations_seq :
  ∃ annotations,
    finetune_to_indico_document NLP none_value true raw_text doc_seq
      label_seq prob_seq associations_seq = Returns annotations
    ∧ Forall (occurrence_of none_value raw_text
                (doc_items doc_seq label_seq prob_seq)) annotations
    ∧ NoDup (triple_of_indico <$> annotations)
    ∧ StronglySorted (fun a b => ia_start a <= ia_start b) annotations.
Proof.
  unfold finetune_to_indico_document, reconstruct_document.
  fold (doc_items doc_seq label_seq prob_seq).
  set (starts := tok_idx <$> NLP raw_text).
  set (ends := (fun t => tok_idx t + Z.of_nat (length (tok_text t)))
               <$> NLP raw_text).
  set (items := doc_items doc_seq label_seq prob_seq).
  destruct (process_substrings_returns none_value true raw_text starts ends
              associations_seq (fun _ => True)) with (items := items)
    (st := initial_doc_state) as (st & Hrun & _); [|done|].
  { intros sub_str multi_label confidences label st _.
    destruct (process_label_subtoken_returns none_value raw_text starts ends
                associations_seq sub_str multi_label confidences st label)
      as [st' ->]. by eauto. }
  rewrite Hrun. simpl. eexists. split; [done|].
  assert (Forall (occurrence_of none_value raw_text items) (doc_annotations st)
          ∧ ranges_recorded st) as [Hall [_ Hnodup]].
  { eapply (process_substrings_invariant none_value true raw_text starts ends
              associations_seq
              (fun st => Forall (occurrence_of none_value raw_text items)
                           (doc_annotations st) ∧ ranges_recorded st)
              items); [|reflexivity| |exact Hrun].
    - intros sub_str raw_label confidences multi_label label st0 st1
        Hitem Hlabel [Hall Hrec] Hstep.
      split; [|by eapply process_label_ranges_recorded].
      destruct (process_label_cases _ _ _ _ _ _ _ _ _ _ _ _ Hstep)
        as [[-> _]
           |(si & ei & a & Hsnap & Hfound & Hne & Hl & Htext & Hconf & _
             & -> & _)]; [done|].
      apply Forall_app. split; [done|]. apply Forall_singleton.
      unfold snap in Hsnap. injection Hsnap as _ _ Hstart Hend.
      destruct (py_find_found _ _ _ _ eq_refl Hfound) as (H0 & Hlen & Hslice).
      rewrite Hend in Hlen, Hslice. rewrite Hstart in Hslice, H0.
      unfold occurrence_of. rewrite Hl.
      assert (ia_start a <= ia_end a) by lia.
      split; [done|]. split; [done|]. split; [done|]. split; [done|].
      split; [done|]. exists sub_str, raw_label, confidences.
      by rewrite Htext, Hslice.
    - split; [constructor|apply initial_doc_state_recorded]. }
  split; [by apply sorted_by_Forall|]. split; [|apply sorted_by_Sorted].
  by rewrite sorted_by_Permutation.
Qed.

(** X10: with whole-token snapping and a tokenizer that finds at least one
    token, the reconstruction of a document raises nothing; each annotation
    it returns starts at the start of a token and ends at the end of a
    token, carries a label other than the none-value and the text between
    its boundaries; no two annotations have the same start, end and label,
    and they come in ascending order of start. *)
Theorem snapped_reconstruction_on_token_boundaries NLP none_value raw_text
    doc_seq label_seq prob_seq associations_seq :
  NLP raw_text ≠ [] ->
  ∃ annotations,
    finetune_to_indico_document NLP none_value false raw_text doc_seq
      label_seq prob_seq associations_seq = Returns annotations
    ∧ Forall (on_token_boundaries none_value raw_text
                (tok_idx <$> NLP raw_text)
                ((fun t => tok_idx t + Z.of_nat (length (tok_text t)))
                 <$> NLP raw_text)) annotations
    ∧ NoDup (triple_of_indico <$> annotations)
    ∧ StronglySorted (fun a b => ia_start a <= ia_start b) annotations.
Proof.
  intros Htokens.
  unfold finetune_to_indico_document, reconstruct_document.
  set (starts := tok_idx <$> NLP raw_text).
  set (ends := (fun t => tok_idx t + Z.of_nat (length (tok_text t)))
               <$> NLP raw_text).
  set (items := zip _ _).
  assert (length ends = length starts) as Hlen.
  { subst starts ends. by rewrite !length_fmap. }
  assert (starts ≠ []) as Hne.
  { subst starts. by destruct (NLP raw_text). }
  destruct (process_substrings_returns none_value false raw_text starts ends
              associations_seq
              (cursors_in_range (Z.of_nat (length starts))))
    with (items := items) (st := initial_doc_state) as (st & Hrun & _).
  { intros sub_str multi_label confidences label st.
    by apply process_label_snap_returns. }
  { unfold cursors_in_range. simpl. destruct starts; [done|simpl; lia]. }
  rewrite Hrun. simpl. eexists. split; [done|].
  assert (Forall (on_token_boundaries none_value raw_text starts ends)
            (doc_annotations st)
          ∧ ranges_recorded st) as [Hall [_ Hnodup]].
  { eapply (process_substrings_invariant none_value false raw_text starts
              ends associations_seq
              (fun st => Forall (on_token_boundaries none_value raw_text
                                   starts ends) (doc_annotations st)
                         ∧ ranges_recorded st)
              items); [|reflexivity| |exact Hrun].
    - intros sub_str raw_label confidences multi_label label st0 st1
        _ _ [Hall Hrec] Hstep.
      split; [|by eapply process_label_ranges_recorded].
      destruct (process_label_cases _ _ _ _ _ _ _ _ _ _ _ _ Hstep)
        as [[-> _]
           |(si & ei & a & Hsnap & _ & Hlabel & Hl & Htext & _ & _ & -> & _)];
        [done|].
      apply Forall_app. split; [done|]. apply Forall_singleton.
      destruct (snap_Returns_boundaries _ _ _ _ _ _ _ _ _ _ _ _ _
                  Hsnap Hlabel) as [Hstart Hend].
      unfold on_token_boundaries. by rewrite Hl.
    - split; [constructor|apply initial_doc_state_recorded]. }
  split; [by apply sorted_by_Forall|]. split; [|apply sorted_by_Sorted].
  by rewrite sorted_by_Permutation.
Qed.

Lemma snapped_reconstruction_on_token_boundaries_witness :
  let NLP := fun _ : pystr => [Token 0 (str "ab"); Token 3 (str "cd")] in
  NLP (str "ab cd") ≠ []
  ∧ ∃ annotations,
      finetune_to_indico_document NLP PyNone false (str "ab cd")
        [str "a"; str "b c"; str "d"]
        [Single (PyStr "X"); Single PyNone; Single (PyStr "Y")] None None
      = Returns annotations
      ∧ Forall (on_token_boundaries PyNone (str "ab cd") [0; 3] [2; 5])
          annotations
      ∧ NoDup (triple_of_indico <$> annotations)
      ∧ StronglySorted (fun a b => ia_start a <= ia_start b) annotations.
Proof.
  split; [done|].
  apply (snapped_reconstruction_on_token_boundaries
           (fun _ => [Token 0 (str "ab"); Token 3 (str "cd")]) PyNone
           (str "ab cd") [str "a"; str "b c"; str "d"]
           [Single (PyStr "X"); Single PyNone; Single (PyStr "Y")] None None).
  done.
Defined.

Lemma process_substrings_no_token none_value raw_text associations_seq :
  ∀ items st,
    doc_annotations st = [] ->
    process_substrings none_value false raw_text [] [] associations_seq st
      items = Raises IndexError
    ∨ ∃ st',
        process_substrings none_value false raw_text [] [] associations_seq
          st items = Returns st'
        ∧ doc_annotations st' = [].
Proof.
  assert (Hlabels : ∀ sub_str multi_label confidences labels st,
    doc_annotations st = [] ->
    process_labels none_value false raw_text [] [] associations_seq sub_str
      multi_label confidences st labels = Raises IndexError
    ∨ ∃ st',
        process_labels none_value false raw_text [] [] associations_seq
          sub_str multi_label confidences st labels = Returns st'
        ∧ doc_annotations st' = []).
  { intros sub_str multi_label confidences labels.
    induction labels as [|l labels IH]; intros st Hst; simpl; [by eauto|].
    destruct (process_label_no_token none_value raw_text associations_seq
                sub_str multi_label confidences st l Hst)
      as [->|(st1 & -> & Hst1)]; [by left|].
    simpl. by apply IH. }
  induction items as [|[[sub_str raw_label] confidences] items IH];
    intros st Hst; simpl; [by eauto|].
  destruct raw_label as [l|ls].
  - destruct (Hlabels sub_str false confidences [l] st Hst)
      as [->|(st1 & -> & Hst1)]; [by left|]. simpl. by apply IH.
  - destruct (Hlabels sub_str true confidences ls st Hst)
      as [->|(st1 & -> & Hst1)]; [by left|]. simpl. by apply IH.
Qed.

(** X11: with whole-token snapping and a tokenizer that finds no token, a
    document never gets an annotation: its reconstruction either returns
    the empty list or raises [IndexError]; it raises as soon as the first
    substring is found in the raw text and its first label is not the
    none-value. *)
Theorem no_token_no_annotation NLP none_value raw_text doc_seq label_seq
    prob_seq associations_seq :
  NLP raw_text = [] ->
  let result :=
    finetune_to_indico_document NLP none_value false raw_text doc_seq
      label_seq prob_seq associations_seq in
  (result = Returns [] ∨ result = Raises IndexError)
  ∧ ∀ sub_str doc_seq' raw_label label_seq' label label_list',
      doc_seq = sub_str :: doc_seq' ->
      label_seq = raw_label :: label_seq' ->
      labels_of raw_label = label :: label_list' ->
      label ≠ none_value ->
      py_find raw_text (strip sub_str) 0 ≠ -1 ->
      result = Raises IndexError.
Proof.
  intros Htokens result. subst result.
  unfold finetune_to_indico_document, reconstruct_document.
  rewrite Htokens. simpl fmap. split.
  - destruct (process_substrings_no_token none_value raw_text
                associations_seq
                (zip (zip doc_seq label_seq)
                   (prob_seq_or_none prob_seq doc_seq))
                initial_doc_state eq_refl) as [->|(st & -> & Hst)];
      [by right|].
    left. simpl. by rewrite Hst.
  - intros sub_str doc_seq' raw_label label_seq' label label_list'
      -> -> Hlabels Hlabel Hfound.
    assert (∃ c cs, prob_seq_or_none prob_seq (sub_str :: doc_seq') = c :: cs)
      as (c & cs & ->).
    { destruct prob_seq as [[|c cs]|]; simpl; by eauto. }
    simpl zip.
    assert (∀ multi_label,
      process_labels none_value false raw_text [] [] associations_seq sub_str
        multi_label c initial_doc_state (label :: label_list')
      = Raises IndexError) as Hraise.
    { intros multi_label. cbn [process_labels]. unfold process_label at 1.
      change (raw_annotation_start initial_doc_state) with 0.
      destruct (Z.eqb_spec (py_find raw_text (strip sub_str) 0) (-1));
        [done|].
      by rewrite snap_no_token. }
    cbn [process_substrings process_substring].
    destruct raw_label as [l|ls]; simpl in Hlabels.
    + injection Hlabels as -> <-. by rewrite Hraise.
    + subst ls. by rewrite Hraise.
Qed.

Lemma no_token_no_annotation_witness :
  let NLP := fun _ : pystr => @nil token in
  NLP [] = []
  ∧ finetune_to_indico_document NLP PyNone false [] [[]]
      [Single (PyStr "X")] None None = Raises IndexError.
Proof.
  split; [done|].
  refine (proj2 (no_token_no_annotation (fun _ => []) PyNone [] [[]]
                   [Single (PyStr "X")] None None eq_refl)
            [] [] (Single (PyStr "X")) [] (PyStr "X") [] eq_refl eq_refl
            eq_refl _ _); [done|].
  vm_compute. done.
Defined.
(** ** The association linker: outcome and range *)

Lemma doc_candidates_Returns_known none_value idx_lookup doc_association
    candidates :
  doc_candidates none_value idx_lookup doc_association = Returns candidates ->
  sources_known none_value idx_lookup (concat doc_association).
Proof.
  intros Hrun.
  destruct (decide (sources_known none_value idx_lookup
                      (concat doc_association))) as [|Hunknown]; [done|].
  by rewrite doc_candidates_KeyError in Hrun.
Qed.

Lemma elem_of_selected none_value idx_lookup k cs x :
  x ∈ selected none_value idx_lookup k cs ->
  ∃ c target,
    c ∈ cs ∧ idx_lookup !! bpe_idx c = Some k
    ∧ idx_lookup !! candidate_idx c = Some target
    ∧ candidate_label c ≠ none_value
    ∧ x = (target, candidate_label c, candidate_prob c).
Proof.
  unfold selected. rewrite list_elem_of_omap.
  intros (c & Hc & Hkept). unfold kept_for in Hkept.
  destruct (idx_lookup !! bpe_idx c) as [k'|] eqn:Hk'; [|done].
  destruct (decide (k' = k)) as [->|]; [|done].
  unfold resolve in Hkept. case_bool_decide; [done|].
  destruct (idx_lookup !! candidate_idx c) as [target|] eqn:Htarget; [|done].
  injection Hkept as <-. by exists c, target.
Qed.

Lemma doc_idx_lookup_range none_value doc_label doc_association b v :
  doc_idx_lookup none_value doc_label doc_association !! b = Some v ->
  0 <= v < count_active none_value (zip doc_label doc_association).*1.
Proof.
  unfold doc_idx_lookup. intros Hb. split.
  - apply build_idx_lookup_new in Hb as [Hb|Hb]; [done|lia].
  - eapply build_idx_lookup_upper in Hb; [lia|].
    intros b' v'. by rewrite lookup_empty.
Qed.

(** X12: [assign_associations] returns one table per pair of the zipped
    documents when in every document each candidate tuple that is kept (its
    label is not the none-value and its target token belongs to an active
    occurrence) has a source token of an active occurrence; otherwise it
    raises [KeyError]. *)
Theorem assign_associations_KeyError_iff labels associations none_value :
  (∃ all_candidates,
     assign_associations labels associations none_value
     = Returns all_candidates
     ∧ length all_candidates = length (zip labels associations)
     ∧ Forall (doc_sources_known none_value) (zip labels associations))
  ∨ (assign_associations labels associations none_value = Raises KeyError
     ∧ ¬ Forall (doc_sources_known none_value) (zip labels associations)).
Proof.
  revert associations.
  induction labels as [|dl labels IH]; intros associations.
  { left. exists []. by repeat split. }
  destruct associations as [|da associations].
  { left. exists []. by repeat split. }
  cbn [assign_associations zip zip_with].
  destruct (decide (sources_known none_value
                      (build_idx_lookup none_value (zip dl da) (-1) ∅)
                      (concat da))) as [Hknown|Hunknown].
  - destruct (doc_candidates_spec _ _ _ Hknown) as (c & -> & _). simpl.
    destruct (IH associations)
      as [(rest & -> & Hlen & Hall)|[-> Hnot]]; simpl.
    + left. eexists. split; [done|]. split; [simpl; by rewrite Hlen|].
      by constructor.
    + right. split; [done|]. intros Hall.
      apply Forall_cons in Hall as [_ Hall]. by apply Hnot.
  - rewrite doc_candidates_KeyError by done. right. split; [done|].
    intros Hall. apply Forall_cons in Hall as [Hdoc _]. by apply Hunknown.
Qed.

(** X13: in what [assign_associations] returns, the key of every entry and
    the index it points to are indices of active (not none) occurrences of
    the document, counted over the zipped labels and candidate lists; the
    relationship is not the none-value, and relationship and probability
    are those of a candidate tuple of the document. *)
Theorem associations_point_to_active_labels labels associations none_value
    all_candidates (i : nat) doc_label doc_association candidates k index
    relationship prob :
  assign_associations labels associations none_value
  = Returns all_candidates ->
  labels !! i = Some doc_label ->
  associations !! i = Some doc_association ->
  all_candidates !! i = Some candidates ->
  candidates !! k = Some (index, relationship, prob) ->
  let n_active :=
    count_active none_value (zip doc_label doc_association).*1 in
  0 <= k < n_active ∧ 0 <= index < n_active
  ∧ relationship ≠ none_value
  ∧ ∃ c, c ∈ concat doc_association
         ∧ candidate_label c = relationship ∧ candidate_prob c = prob.
Proof.
  intros Hrun Hl Ha Hi Hk n_active.
  destruct (assign_associations_lookup _ _ _ _ Hrun i _ _ Hl Ha)
    as (candidates' & Hi' & Hdoc).
  rewrite Hi in Hi'. injection Hi' as <-.
  pose proof (doc_candidates_Returns_known _ _ _ _ Hdoc) as Hknown.
  destruct (doc_candidates_spec _ _ _ Hknown) as (candidates' & Hdoc' & Hspec).
  rewrite Hdoc in Hdoc'. injection Hdoc' as <-.
  rewrite Hspec in Hk.
  apply max_by_prob_first_max in Hk as (v1 & v2 & Hv & _ & _).
  destruct (elem_of_selected none_value
              (doc_idx_lookup none_value doc_label doc_association) k
              (concat doc_association) (index, relationship, prob))
    as (c & target & Hc & Hsource & Htarget & Hlabel & Hx).
  { unfold doc_idx_lookup. rewrite Hv. apply elem_of_app. right. left. }
  injection Hx as -> -> ->.
  split; [by eapply doc_idx_lookup_range|].
  split; [by eapply doc_idx_lookup_range|].
  split; [done|]. by exists c.
Qed.

Lemma associations_point_to_active_labels_witness :
  let labels := [[Single (PyStr "X"); Single PyNone; Single (PyStr "Y")]] in
  let associations :=
    [[[Candidate 0 2 (PyStr "R") (2#10); Candidate 0 2 (PyStr "S") (9#10)];
      [];
      [Candidate 2 7 (PyStr "R") (5#10)]]] in
  0 <= 0 < 2 ∧ 0 <= 1 < 2 ∧ PyStr "S" ≠ PyNone
  ∧ ∃ c, c ∈ [Candidate 0 2 (PyStr "R") (2#10);
               Candidate 0 2 (PyStr "S") (9#10);
               Candidate 2 7 (PyStr "R") (5#10)]
         ∧ candidate_label c = PyStr "S" ∧ candidate_prob c = 9#10.
Proof.
  intros labels associations.
  apply (associations_point_to_active_labels labels associations PyNone
           [{[ 0 := (1, PyStr "S", 9#10) ]}] 0
           [Single (PyStr "X"); Single PyNone; Single (PyStr "Y")]
           [[Candidate 0 2 (PyStr "R") (2#10);
             Candidate 0 2 (PyStr "S") (9#10)];
            [];
            [Candidate 2 7 (PyStr "R") (5#10)]]
           {[ 0 := (1, PyStr "S", 9#10) ]} 0 1 (PyStr "S") (9#10)).
  - by vm_compute.
  - reflexivity.
  - reflexivity.
  - reflexivity.
  - by vm_compute.
Defined.
(** ** The span reconstructor: the loop over documents *)

Lemma subtoken_document_returns NLP none_value raw_text doc_seq label_seq
    prob_seq associations_seq :
  ∃ annotations,
    finetune_to_indico_document NLP none_value true raw_text doc_seq
      label_seq prob_seq associations_seq = Returns annotations.
Proof.
  unfold finetune_to_indico_document, reconstruct_document.
  edestruct (process_substrings_returns none_value true raw_text)
    with (Q := fun _ : doc_state => True) as (st & -> & _);
    [|done|by eexists].
  intros sub_str multi_label confidences label st _.
  edestruct process_label_subtoken_returns as [st' ->]. by eauto.
Qed.

(** The documents are reconstructed one by one. *)
Lemma reconstruct_documents_lookup NLP none_value subtoken_predictions :
  ∀ loop_vals annotations,
    reconstruct_documents NLP none_value subtoken_predictions loop_vals
    = Returns annotations ->
    length annotations = length loop_vals
    ∧ ∀ (i : nat) raw_text doc_seq label_seq prob_seq associations_seq,
        loop_vals !! i
        = Some (raw_text, doc_seq, label_seq, prob_seq, associations_seq) ->
        ∃ doc_annotations,
          annotations !! i = Some doc_annotations
          ∧ finetune_to_indico_document NLP none_value subtoken_predictions
              raw_text doc_seq label_seq prob_seq associations_seq
            = Returns doc_annotations.
Proof.
  induction loop_vals as [|[[[[rt ds] ls] ps] az] loop_vals IH];
    intros annotations Hrun.
  { injection Hrun as <-. by split. }
  cbn [reconstruct_documents] in Hrun.
  destruct (finetune_to_indico_document _ _ _ rt ds ls ps az)
    as [a| |] eqn:Hdoc; [|done..].
  simpl in Hrun.
  destruct (reconstruct_documents _ _ _ loop_vals) as [rest| |] eqn:Hrest;
    [|done..].
  injection Hrun as <-. destruct (IH rest eq_refl) as [Hlen Hlook].
  split; [simpl; by rewrite Hlen|].
  intros [|i] raw_text doc_seq label_seq prob_seq associations_seq Hi;
    simpl in Hi.
  - injection Hi as <- <- <- <- <-. by exists a.
  - by apply Hlook.
Qed.

Lemma reconstruct_documents_returns NLP none_value subtoken_predictions :
  ∀ loop_vals,
    Forall (fun '(raw_text, doc_seq, label_seq, prob_seq, associations_seq) =>
              ∃ doc_annotations,
                finetune_to_indico_document NLP none_value
                  subtoken_predictions raw_text doc_seq label_seq prob_seq
                  associations_seq = Returns doc_annotations) loop_vals ->
    ∃ annotations,
      reconstruct_documents NLP none_value subtoken_predictions loop_vals
      = Returns annotations.
Proof.
  induction loop_vals as [|[[[[rt ds] ls] ps] az] loop_vals IH]; intros Hall.
  { by eexists. }
  apply Forall_cons in Hall as [[a Ha] Hall].
  destruct (IH Hall) as [rest Hrest].
  cbn [reconstruct_documents]. rewrite Ha. simpl. rewrite Hrest. by eexists.
Qed.

(** X14: with sub-token predictions allowed and no associations,
    [finetune_to_indico_sequence] raises nothing (the call of the encoder,
    of which nothing is used, apart).  It returns one list of
    annotations for each position at which a raw text, a list of
    substrings, a list of labels and (if given) a list of confidences are
    all present, and the list at a position is the reconstruction of the
    document at that position alone: nothing is carried over from one
    document to the next. *)
Theorem subtoken_sequence_returns_per_document NLP none_value raw_texts
    subseqs labels probs :
  ∃ annotations,
    finetune_to_indico_sequence NLP none_value true raw_texts subseqs labels
      probs None = Returns annotations
    ∧ length annotations
      = Nat.min (Nat.min (Nat.min (length raw_texts) (length subseqs))
                   (length labels))
          (length (probs_or_none probs raw_texts))
    ∧ ∀ (i : nat) raw_text doc_seq label_seq prob_seq,
        raw_texts !! i = Some raw_text ->
        subseqs !! i = Some doc_seq ->
        labels !! i = Some label_seq ->
        probs_or_none probs raw_texts !! i = Some prob_seq ->
        ∃ doc_annotations,
          annotations !! i = Some doc_annotations
          ∧ finetune_to_indico_document NLP none_value true raw_text doc_seq
              label_seq prob_seq None = Returns doc_annotations.
Proof.
  unfold finetune_to_indico_sequence, assoc_cleaned_of. simpl.
  set (loop_vals := zip _ _).
  destruct (reconstruct_documents_returns NLP none_value true loop_vals)
    as [annotations Hrun].
  { apply Forall_forall. intros [[[[rt ds] ls] ps] az] _.
    apply subtoken_document_returns. }
  exists annotations. split; [done|].
  destruct (reconstruct_documents_lookup _ _ _ _ _ Hrun) as [Hlen Hlook].
  split.
  - rewrite Hlen. subst loop_vals.
    rewrite !length_zip_with, length_replicate. lia.
  - intros i raw_text doc_seq label_seq prob_seq Hraw Hsub Hlabel Hprob.
    apply Hlook. subst loop_vals.
    apply lookup_zip_with_Some. eexists (_, _, _, _), None.
    split; [done|]. split.
    + apply lookup_zip_with_Some. eexists (_, _, _), _.
      split; [done|]. split; [|done].
      apply lookup_zip_with_Some. eexists (_, _), _.
      split; [done|]. split; [|done].
      apply lookup_zip_with_Some. by eexists _, _.
    + apply lookup_replicate. split; [done|]. by eapply lookup_lt_Some.
Qed.
(** ** The span reconstructor: associations *)

Lemma process_label_associations none_value subtoken_predictions raw_text
    spacy_token_starts spacy_token_ends associations_seq sub_str multi_label
    confidences st label st' :
  process_label none_value subtoken_predictions raw_text spacy_token_starts
    spacy_token_ends associations_seq sub_str multi_label confidences st label
  = Returns st' ->
  (∀ (i : nat) a, doc_annotations st !! i = Some a ->
     ia_associations a
     = associations_seq ≫= (fun m : gmap Z association => m !! Z.of_nat i)) ->
  ∀ (i : nat) a, doc_annotations st' !! i = Some a ->
    ia_associations a
    = associations_seq ≫= (fun m : gmap Z association => m !! Z.of_nat i).
Proof.
  unfold process_label. intros Hrun Hst.
  destruct (_ =? -1); [by injection Hrun as <-|].
  destruct (snap _ _ _ _ _ _ _ _ _ _) as [[[[si ei] s] e]| |]; [|done..].
  simpl in Hrun.
  case_bool_decide; [|by injection Hrun as <-].
  case_bool_decide; injection Hrun as <-; [|done].
  intros i a. simpl. rewrite lookup_app_Some.
  intros [Hold|[Hlen Hnew]]; [by apply Hst|].
  apply list_lookup_singleton_Some in Hnew as [Hi <-]. simpl.
  by replace i with (length (doc_annotations st)) by lia.
Qed.

(** X16: the annotation a document gets as its k-th (counting from 0, in
    the order the annotations are made, before they are sorted by start)
    carries the association filed under k in the table of the document, and
    none if the table has no entry k or there is no table.  The position
    counts annotations, not active substrings: a duplicate that is dropped
    or a substring that is not found shifts the later ones. *)
Theorem associations_follow_insertion_order NLP none_value
    subtoken_predictions raw_text doc_seq label_seq prob_seq associations_seq
    st :
  reconstruct_document NLP none_value subtoken_predictions raw_text doc_seq
    label_seq prob_seq associations_seq = Returns st ->
  finetune_to_indico_document NLP none_value subtoken_predictions raw_text
    doc_seq label_seq prob_seq associations_seq
  = Returns (sorted_by ia_start (doc_annotations st))
  ∧ ∀ (k : nat) a, doc_annotations st !! k = Some a ->
      ia_associations a
      = associations_seq ≫= (fun m : gmap Z association => m !! Z.of_nat k).
Proof.
  intros Hrun. unfold finetune_to_indico_document. rewrite Hrun.
  split; [done|]. unfold reconstruct_document in Hrun.
  eapply (process_substrings_invariant none_value subtoken_predictions
            raw_text _ _ associations_seq
            (fun st => ∀ (k : nat) a, doc_annotations st !! k = Some a ->
               ia_associations a
               = associations_seq
                   ≫= (fun m : gmap Z association => m !! Z.of_nat k)));
    [|reflexivity| |exact Hrun].
  - intros sub_str raw_label confidences multi_label label st0 st1 _ _
      Hst0 Hstep. by eapply process_label_associations.
  - intros k a Hk. simpl in Hk. by rewrite lookup_nil in Hk.
Qed.

Lemma associations_follow_insertion_order_witness :
  let NLP := fun _ : pystr => [Token 0 (str "ab"); Token 3 (str "cd")] in
  let table : gmap Z association := {[ 1 := (0, PyStr "R", 9#10) ]} in
  ∃ st,
    reconstruct_document NLP PyNone true (str "ab cd")
      [str "ab"; str " "; str "cd"]
      [Single (PyStr "X"); Single PyNone; Single (PyStr "Y")] None
      (Some table) = Returns st
    ∧ finetune_to_indico_document NLP PyNone true (str "ab cd")
        [str "ab"; str " "; str "cd"]
        [Single (PyStr "X"); Single PyNone; Single (PyStr "Y")] None
        (Some table)
      = Returns (sorted_by ia_start (doc_annotations st))
    ∧ ∀ (k : nat) a, doc_annotations st !! k = Some a ->
        ia_associations a = table !! Z.of_nat k.
Proof.
  intros NLP table. eexists. split; [vm_compute; reflexivity|].
  apply (associations_follow_insertion_order NLP PyNone true (str "ab cd")
           [str "ab"; str " "; str "cd"]
           [Single (PyStr "X"); Single PyNone; Single (PyStr "Y")] None
           (Some table)).
  vm_compute. reflexivity.
Defined.
